(** * ABM email generator: rule validator, contact ranking, storage and
      generation orchestrator

    A shallow embedding of the deterministic parts of the application:
    the email rule validator, the contact ranking and auto-selection
    policy of the contact selector, the in-memory store of saved
    sequences, and the response-parsing and batch loop of the email
    generator component; with them the handlers of the contact selector,
    the routes over the store, the file name of an exported document and
    the variant-id suffix of the prompt builder.

    JavaScript strings are sequences of UTF-16 code units; they are
    modelled as lists of [N].  Regular expressions are modelled by a
    backtracking matcher over the fragment of the syntax the sources
    use. *)

From Stdlib Require Import NArith ZArith List Bool Lia String Ascii DecimalString.
From stdpp Require Import base option list gmap.
Import ListNotations.

(** ** JavaScript strings *)

Module Js.

Notation jsstring := (list N).

(** A string literal of the source, as code units (ASCII literals only). *)
Definition str (s : string) : jsstring :=
  List.map N_of_ascii (list_ascii_of_string s).

(** The double quote, em dash and en dash, which literals of the source
    contain. *)
Definition dquote : N := 34%N.
Definition emDash : N := 8212%N.
Definition enDash : N := 8211%N.

(** WhiteSpace and LineTerminator code units: what [trim] strips and what
    the class [\s] matches. *)
Definition isWhite (c : N) : bool :=
  ((9 <=? c) && (c <=? 13) || (c =? 32) || (c =? 160) || (c =? 5760)
   || (8192 <=? c) && (c <=? 8202) || (c =? 8232) || (c =? 8233)
   || (c =? 8239) || (c =? 8287) || (c =? 12288) || (c =? 65279))%N.

(** The class [\w] (no unicode flag): ASCII letters, digits, underscore. *)
Definition isWordChar (c : N) : bool :=
  ((48 <=? c) && (c <=? 57) || (65 <=? c) && (c <=? 90) || (c =? 95)
   || (97 <=? c) && (c <=? 122))%N.

(** [String.prototype.toLowerCase], one code unit at a time.  The code
    units that lower-casing sends into the ASCII range are handled
    exactly: A-Z, U+0130 (which becomes the two units i, U+0307) and the
    Kelvin sign U+212A (which becomes k).  Every other code unit is left
    as it is: lower-casing maps it to a non-ASCII unit without case, and
    the sources only compare lower-cased text with ASCII letters,
    whitespace, dashes and punctuation. *)
Definition lowerUnit (c : N) : jsstring :=
  if ((65 <=? c) && (c <=? 90))%N then [(c + 32)%N]
  else if (c =? 304)%N then [105%N; 775%N]
  else if (c =? 8490)%N then [107%N]
  else [c].

Definition toLowerCase (s : jsstring) : jsstring := flat_map lowerUnit s.

Fixpoint trimStart (s : jsstring) : jsstring :=
  match s with
  | c :: s' => if isWhite c then trimStart s' else s
  | [] => []
  end.

Definition trimEnd (s : jsstring) : jsstring := rev (trimStart (rev s)).

Definition trim (s : jsstring) : jsstring := trimEnd (trimStart s).

Definition eqb (a b : jsstring) : bool := bool_decide (a = b).

Fixpoint startsWith (s p : jsstring) : bool :=
  match p, s with
  | [], _ => true
  | x :: p', y :: s' => (x =? y)%N && startsWith s' p'
  | _ :: _, [] => false
  end.

Fixpoint includes (s sub : jsstring) : bool :=
  startsWith s sub ||
  match s with
  | [] => false
  | _ :: s' => includes s' sub
  end.

(** [indexOf] and [lastIndexOf] return -1 when there is no occurrence. *)
Fixpoint indexOfFrom (i : Z) (s sub : jsstring) : Z :=
  if startsWith s sub then i
  else match s with
       | [] => (-1)%Z
       | _ :: s' => indexOfFrom (i + 1) s' sub
       end.

Definition indexOf (s sub : jsstring) : Z := indexOfFrom 0 s sub.

Fixpoint lastIndexOfFrom (i : Z) (s sub : jsstring) : Z :=
  let later := match s with
               | [] => (-1)%Z
               | _ :: s' => lastIndexOfFrom (i + 1) s' sub
               end in
  if (later =? -1)%Z then (if startsWith s sub then i else (-1)%Z) else later.

Definition lastIndexOf (s sub : jsstring) : Z := lastIndexOfFrom 0 s sub.

(** [slice(a, b)] for indices 0 <= a, both within the string or beyond. *)
Definition slice (s : jsstring) (a b : Z) : jsstring :=
  firstn (Z.to_nat (b - a)) (skipn (Z.to_nat a) s).

(** [split(sep)] for a non-empty string separator.  [skip] counts the
    code units of a separator occurrence still to be passed over. *)
Fixpoint splitLoop (sep : jsstring) (cur : jsstring) (skip : nat)
    (s : jsstring) : list jsstring :=
  match s with
  | [] => [rev cur]
  | c :: s' =>
      match skip with
      | S k => splitLoop sep cur k s'
      | O => if startsWith s sep
             then rev cur :: splitLoop sep [] (length sep - 1) s'
             else splitLoop sep (c :: cur) 0 s'
      end
  end.

Definition split (s sep : jsstring) : list jsstring := splitLoop sep [] 0 s.

(** [Array.prototype.join]. *)
Fixpoint join (sep : jsstring) (l : list jsstring) : jsstring :=
  match l with
  | [] => []
  | [x] => x
  | x :: l' => x ++ sep ++ join sep l'
  end.

(** A non-negative integer in a template literal. *)
Definition ofNat (n : nat) : jsstring :=
  str (NilZero.string_of_uint (Nat.to_uint n)).

End Js.

(** ** Regular expressions

    The fragment of the regular-expression syntax that the sources use,
    with the backtracking semantics of ECMAScript: alternatives are tried
    left to right, greedy quantifiers try the longer match first, lazy
    ones the shorter.  Quantifiers with [*] and [+] only ever apply to a
    single character class in the sources, so [Star] and [StarLazy] take
    a class.  The patterns of the validator carry the [i] flag: without
    the unicode flag an ASCII letter of a pattern then matches exactly
    its two ASCII cases.  The two patterns of the generator carry no
    flag. *)

Module Regex.
Import Js.

Inductive regex : Type :=
| Eps                                   (* the empty pattern *)
| Chr (p : N -> bool)                   (* one code unit of a class *)
| Seq (a b : regex)                     (* ab *)
| Alt (a b : regex)                     (* a|b *)
| Opt (a : regex)                       (* a? *)
| Star (p : N -> bool)                  (* [class]* *)
| StarLazy (p : N -> bool)              (* [class]*? *)
| Bnd                                   (* \b *)
| Bol                                   (* ^ *)
| Cap (a : regex).                      (* (a), the capture group 1 *)

(** The state of a match attempt: the code units before the current
    position, nearest first, the code units from the current position on,
    where capture group 1 started, and what it captured. *)
Record mstate : Type := MState {
  before : jsstring;
  after : jsstring;
  capStart : option nat;
  group1 : option jsstring
}.

Definition position (st : mstate) : nat := length (before st).

Definition advance (c : N) (rest : jsstring) (st : mstate) : mstate :=
  MState (c :: before st) rest (capStart st) (group1 st).

Definition isWordBoundary (st : mstate) : bool :=
  let a := match before st with c :: _ => isWordChar c | [] => false end in
  let b := match after st with c :: _ => isWordChar c | [] => false end in
  xorb a b.

Definition openGroup (st : mstate) : mstate :=
  MState (before st) (after st) (Some (position st)) (group1 st).

(** The text between the position where the group was opened and the
    current position. *)
Definition closeGroup (st : mstate) : mstate :=
  match capStart st with
  | Some s =>
      MState (before st) (after st) None
        (Some (rev (firstn (position st - s) (before st))))
  | None => st
  end.

Section Matcher.
Context {A : Type}.

(** [class]*, greedy: one more code unit first, the continuation after. *)
Fixpoint starGreedy (p : N -> bool) (k : mstate -> option A)
    (rest : jsstring) (st : mstate) : option A :=
  match rest with
  | c :: rest' =>
      if p c then
        match starGreedy p k rest' (advance c rest' st) with
        | Some r => Some r
        | None => k st
        end
      else k st
  | [] => k st
  end.

(** [class]*?, lazy: the continuation first, one more code unit after. *)
Fixpoint starLazy (p : N -> bool) (k : mstate -> option A)
    (rest : jsstring) (st : mstate) : option A :=
  match k st with
  | Some r => Some r
  | None =>
      match rest with
      | c :: rest' =>
          if p c then starLazy p k rest' (advance c rest' st) else None
      | [] => None
      end
  end.

(** [rmatch r k st]: match [r] at the position of [st], then continue
    with [k]; [None] when every alternative fails. *)
Fixpoint rmatch (r : regex) (k : mstate -> option A) (st : mstate)
    : option A :=
  match r with
  | Eps => k st
  | Chr p =>
      match after st with
      | c :: rest => if p c then k (advance c rest st) else None
      | [] => None
      end
  | Seq a b => rmatch a (rmatch b k) st
  | Alt a b =>
      match rmatch a k st with
      | Some x => Some x
      | None => rmatch b k st
      end
  | Opt a =>
      match rmatch a k st with
      | Some x => Some x
      | None => k st
      end
  | Star p => starGreedy p k (after st) st
  | StarLazy p => starLazy p k (after st) st
  | Bnd => if isWordBoundary st then k st else None
  | Bol => match before st with [] => k st | _ :: _ => None end
  | Cap a => rmatch a (fun st' => k (closeGroup st')) (openGroup st)
  end.

End Matcher.

(** What [exec] and [match] return on success. *)
Record result : Type := Result {
  index : nat;
  matched : jsstring;
  captured : option jsstring
}.

(** The match that starts at the position of [st], if there is one. *)
Definition matchAt (r : regex) (st : mstate) : option result :=
  rmatch r
    (fun st' =>
       Some (Result (position st)
               (rev (firstn (position st' - position st) (before st')))
               (group1 st')))
    st.

(** The leftmost match in [s], which [pre] (nearest first) precedes:
    each start position in turn, the end of the input included. *)
Fixpoint searchFrom (r : regex) (pre : jsstring) (s : jsstring)
    : option result :=
  match matchAt r (MState pre s None None) with
  | Some m => Some m
  | None =>
      match s with
      | c :: s' => searchFrom r (c :: pre) s'
      | [] => None
      end
  end.

(** [RegExp.prototype.exec] and [String.prototype.match] for a pattern
    without the [g] flag. *)
Definition exec (r : regex) (s : jsstring) : option result :=
  searchFrom r [] s.

(** [RegExp.prototype.test] for a pattern without the [g] flag. *)
Definition test (r : regex) (s : jsstring) : bool :=
  match exec r s with Some _ => true | None => false end.

(** The successive results of [exec] on a pattern with the [g] flag,
    called until it returns null: after a match the search resumes at
    its end ([skip] counts the code units of the last match still to be
    passed over).  For patterns that match no empty string. *)
Fixpoint execAllFrom (r : regex) (pre : jsstring) (skip : nat)
    (s : jsstring) : list result :=
  match skip with
  | S k =>
      match s with
      | c :: s' => execAllFrom r (c :: pre) k s'
      | [] => []
      end
  | O =>
      match matchAt r (MState pre s None None) with
      | Some m =>
          m :: match s with
               | c :: s' => execAllFrom r (c :: pre) (length (matched m) - 1) s'
               | [] => []
               end
      | None =>
          match s with
          | c :: s' => execAllFrom r (c :: pre) 0 s'
          | [] => []
          end
      end
  end.

Definition execAll (r : regex) (s : jsstring) : list result :=
  execAllFrom r [] 0 s.

(** [String.prototype.split] with a pattern that matches no empty string:
    at each position outside a separator the pattern is tried; a match
    closes the current piece and its code units are passed over. *)
Fixpoint splitFrom (r : regex) (pre : jsstring) (cur : jsstring)
    (skip : nat) (s : jsstring) : list jsstring :=
  match s with
  | [] => [rev cur]
  | c :: s' =>
      match skip with
      | S k => splitFrom r (c :: pre) cur k s'
      | O =>
          match matchAt r (MState pre s None None) with
          | Some m =>
              rev cur :: splitFrom r (c :: pre) [] (length (matched m) - 1) s'
          | None => splitFrom r (c :: pre) (c :: cur) 0 s'
          end
      end
  end.

Definition split (s : jsstring) (r : regex) : list jsstring :=
  splitFrom r [] [] 0 s.

(** *** Pattern notation *)

(** Canonicalisation under the [i] flag, exact on the ASCII range and on
    the dashes, which is where the literals of the patterns lie. *)
Definition canon (c : N) : N :=
  if ((97 <=? c) && (c <=? 122))%N then (c - 32)%N else c.

(** A literal code unit under the [i] flag. *)
Definition unit (c : N) : regex := Chr (fun x => (canon x =? canon c)%N).

(** A literal run of ASCII characters under the [i] flag. *)
Fixpoint units (l : jsstring) : regex :=
  match l with
  | [] => Eps
  | [c] => unit c
  | c :: l' => Seq (unit c) (units l')
  end.

Definition lit (s : string) : regex := units (str s).

(** A literal run of characters without the [i] flag. *)
Fixpoint exactUnits (l : jsstring) : regex :=
  match l with
  | [] => Eps
  | [c] => Chr (N.eqb c)
  | c :: l' => Seq (Chr (N.eqb c)) (exactUnits l')
  end.

Definition exact (s : string) : regex := exactUnits (str s).

(** A class [[...]] of listed code units, with [\s] when [ws] is set. *)
Definition inClass (l : list N) (ws : bool) (x : N) : bool :=
  existsb (fun c => (canon x =? canon c)%N) l || ws && isWhite x.

Definition anyUnit (x : N) : bool := true.          (* [\s\S] *)
Definition notDot (x : N) : bool := negb (x =? 46)%N. (* [^.] *)

Definition ws1 : regex := Seq (Chr isWhite) (Star isWhite).   (* \s+ *)
Definition ws0 : regex := Star isWhite.                       (* \s* *)

Fixpoint seqs (l : list regex) : regex :=
  match l with
  | [] => Eps
  | [r] => r
  | r :: l' => Seq r (seqs l')
  end.

Fixpoint alts (l : list regex) : regex :=
  match l with
  | [] => Eps
  | [r] => r
  | r :: l' => Alt r (alts l')
  end.

(** Literal words separated by [\s+]. *)
Fixpoint phrase (l : list string) : regex :=
  match l with
  | [] => Eps
  | [w] => lit w
  | w :: l' => Seq (lit w) (Seq ws1 (phrase l'))
  end.

End Regex.

(** ** Exceptions

    A computation of the sources either returns normally or throws.  A
    thrown value is an [Error] object with a message, or something
    else. *)

Inductive thrown : Type :=
| ErrorObject (message : Js.jsstring)
| NonError.

Inductive completion (A : Type) : Type :=
| Normal (a : A)
| Throw (e : thrown).
Arguments Normal {A} a.
Arguments Throw {A} e.

#[export] Instance completion_ret : MRet completion := fun A a => Normal a.
#[export] Instance completion_bind : MBind completion := fun A B f m =>
  match m with
  | Normal a => f a
  | Throw e => Throw e
  end.

(** ** The email schema types (lib/email-generator/schemas.ts) *)

Module Schemas.
Import Js.

Inductive EmailAngle : Type := timing | challenge | outcome.

Definition angleName (a : EmailAngle) : jsstring :=
  match a with
  | timing => str "timing"
  | challenge => str "challenge"
  | outcome => str "outcome"
  end.

Record EmailVariant : Type := {
  variant_id : jsstring;
  email_number : nat;
  subject_line : jsstring;
  body : jsstring;
  word_count : Z;
  angle : EmailAngle
}.

Notation EmailSequence := (list EmailVariant).

End Schemas.

(** ** The rule validator (email validator with humanization checks) *)

Module Validator.
Import Js Regex Schemas.
Local Open Scope string_scope.
Local Open Scope list_scope.

Record ValidationResult : Type := {
  passed : bool;
  checks : gmap jsstring bool;
  failures : list jsstring;
  suggestions : list jsstring
}.

(** A quoted piece of a message. *)
Definition quoted (s : string) : jsstring := dquote :: str s ++ [dquote].

(** [text.trim().split(/\s+/).filter(w => w.length > 0).length] *)
Definition countWords (text : jsstring) : nat :=
  length (List.filter (fun w => (0 <? length w)%nat) (Regex.split (trim text) ws1)).

(** The sixteen patterns [/\bI am\b/i], [/\bI have\b/i], ... *)
Definition uncontractedPatterns : list regex :=
  List.map (fun w => seqs [Bnd; lit w; Bnd])
    ["I am"; "I have"; "You are"; "We are"; "They are"; "It is";
     "That is"; "What is"; "There is"; "Here is"; "Do not"; "Can not";
     "Will not"; "Would not"; "Could not"; "Should not"].

Definition hasContractionIssues (text : jsstring) : bool :=
  existsb (fun pattern => test pattern text) uncontractedPatterns.

(** [500,?000\+?\s+clinicians] *)
Definition scaleClaim : regex :=
  seqs [lit "500"; Opt (lit ","); lit "000"; Opt (lit "+"); ws1;
        lit "clinicians"].

(** The class [[—–-]]. *)
Definition dash : regex := Chr (inClass [emDash; enDash; 45%N] false).

Definition validIntros : list regex :=
  [ (* /klas\s+research[—–-]which\s+surveyed\s+500,?000\+?\s+clinicians/i *)
    seqs [lit "klas"; ws1; lit "research"; dash; lit "which"; ws1;
          lit "surveyed"; ws1; scaleClaim];
    (* /klas\s+research,?\s+which\s+surveyed\s+500,?000\+?\s+clinicians/i *)
    seqs [lit "klas"; ws1; lit "research"; Opt (lit ","); ws1; lit "which";
          ws1; lit "surveyed"; ws1; scaleClaim];
    (* /according\s+to\s+klas\s+research[—–-]the\s+healthcare/i *)
    seqs [phrase ["according"; "to"; "klas"; "research"]; dash;
          phrase ["the"; "healthcare"]];
    (* /surveyed\s+by\s+klas\s+research\s*\(500,?000\+?\s+clinicians/i *)
    seqs [phrase ["surveyed"; "by"; "klas"; "research"]; ws0; lit "(";
          scaleClaim];
    (* /from\s+klas\s+research\s*\(500,?000\+?\s+clinicians/i *)
    seqs [phrase ["from"; "klas"; "research"]; ws0; lit "("; scaleClaim];
    (* /from\s+klas\s+research\.\s+according\s+to\s+their\s+study\s+of\s+500,?000\+?\s+clinicians/i *)
    seqs [phrase ["from"; "klas"; "research"]; lit "."; ws1;
          phrase ["according"; "to"; "their"; "study"; "of"]; ws1;
          scaleClaim] ].

Definition badPatterns : list regex :=
  [ (* /^[^.]*klas\s+data\s+shows/i *)
    seqs [Bol; Star notDot; phrase ["klas"; "data"; "shows"]];
    (* /^[^.]*the\s+klas\s+study/i *)
    seqs [Bol; Star notDot; phrase ["the"; "klas"; "study"]];
    (* /^[^.]*klas\s+shows/i *)
    seqs [Bol; Star notDot; phrase ["klas"; "shows"]];
    (* /^[^.]*klas\s+research\s+shows/i *)
    seqs [Bol; Star notDot; phrase ["klas"; "research"; "shows"]] ].

Definition hasValidKlasIntro (text : jsstring) : bool :=
  let lowerText := toLowerCase text in
  if negb (includes lowerText (str "klas")) then true
  else
    let hasProperIntro := existsb (fun pattern => test pattern text) validIntros in
    if negb hasProperIntro
    then negb (existsb (fun pattern => test pattern text) badPatterns)
    else hasProperIntro.

Definition classPatterns : list regex :=
  [ (* /\babout class[—–\-,.\s]/i *)
    seqs [Bnd; lit "about class";
          Chr (inClass [emDash; enDash; 45%N; 44%N; 46%N] true)];
    (* /\bclass[—–\-\s]+a\s+virtual/i *)
    seqs [Bnd; lit "class";
          Chr (inClass [emDash; enDash; 45%N] true);
          Star (inClass [emDash; enDash; 45%N] true);
          phrase ["a"; "virtual"]];
    (* /\bclass\s+is\s+built/i *)
    seqs [Bnd; phrase ["class"; "is"; "built"]];
    (* /\busing class\b/i *)
    seqs [Bnd; lit "using class"; Bnd];
    (* /\bclass\s+helps\b/i and its five siblings *)
    seqs [Bnd; phrase ["class"; "helps"]; Bnd];
    seqs [Bnd; phrase ["class"; "provides"]; Bnd];
    seqs [Bnd; phrase ["class"; "gives"]; Bnd];
    seqs [Bnd; phrase ["class"; "lets"]; Bnd];
    seqs [Bnd; phrase ["class"; "turns"]; Bnd];
    seqs [Bnd; phrase ["class"; "adds"]; Bnd];
    (* /\bwith class\b/i *)
    seqs [Bnd; lit "with class"; Bnd] ].

(** [/\b(we|we're|we've|we'll|our)\b/gi] *)
Definition wePattern : regex :=
  seqs [Bnd;
        Cap (alts [lit "we"; lit "we're"; lit "we've"; lit "we'll"; lit "our"]);
        Bnd].

(** The loop over [classPatterns]: the smallest index of a first match,
    -1 when no pattern matches. *)
Definition classPositionStep (text : jsstring) (classPosition : Z)
    (pattern : regex) : Z :=
  match exec pattern text with
  | Some m =>
      if ((classPosition =? -1) || (Z.of_nat (index m) <? classPosition))%Z
      then Z.of_nat (index m)
      else classPosition
  | None => classPosition
  end.

Definition classPositionOf (text : jsstring) : Z :=
  fold_left (classPositionStep text) classPatterns (-1)%Z.

(** The [while] loop over the successive matches of [wePattern]: [false]
    at the first match that no introduction precedes. *)
Fixpoint weLoop (classPosition : Z) (ms : list result) : bool :=
  match ms with
  | [] => true
  | m :: ms' =>
      if ((classPosition =? -1) || (Z.of_nat (index m) <? classPosition))%Z
      then false
      else weLoop classPosition ms'
  end.

Definition hasValidWeTiming (text : jsstring) : bool :=
  let lowerText := toLowerCase text in
  let classPosition := classPositionOf text in
  weLoop classPosition (execAll wePattern lowerText).

(** (monday|tuesday|wednesday|thursday|friday) *)
Definition weekday : regex :=
  Cap (alts [lit "monday"; lit "tuesday"; lit "wednesday"; lit "thursday";
             lit "friday"]).

Definition bannedCtaPatterns : list regex :=
  [ (* /20\s*minutes?/i *)
    seqs [lit "20"; ws0; lit "minute"; Opt (lit "s")];
    (* /15\s*minutes?/i *)
    seqs [lit "15"; ws0; lit "minute"; Opt (lit "s")];
    (* /does\s+(monday|...|friday)\s+work/i *)
    seqs [lit "does"; ws1; weekday; ws1; lit "work"];
    (* /would\s+(monday|...|friday)\s+work/i *)
    seqs [lit "would"; ws1; weekday; ws1; lit "work"];
    (* /can\s+we\s+schedule/i *)
    phrase ["can"; "we"; "schedule"];
    (* /i\s+genuinely\s+don't\s+know\s+if\s+class\s+is\s+right/i *)
    phrase ["i"; "genuinely"; "don't"; "know"; "if"; "class"; "is"; "right"];
    (* /happy\s+to\s+share\s+over\s+email\s+if\s+easier/i *)
    phrase ["happy"; "to"; "share"; "over"; "email"; "if"; "easier"];
    (* /no\s+meeting\s+required/i *)
    phrase ["no"; "meeting"; "required"] ].

Definition hasValidCta (text : jsstring) : bool :=
  let lowerText := toLowerCase text in
  negb (existsb (fun pattern => test pattern lowerText) bannedCtaPatterns).

Definition warmthPatterns : list regex :=
  [ (* /even\s+if\s+(the\s+)?timing\s+isn't\s+right/i *)
    seqs [phrase ["even"; "if"]; ws1; Opt (Cap (Seq (lit "the") ws1));
          phrase ["timing"; "isn't"; "right"]];
    (* /even\s+if\s+class\s+isn't\s+the\s+right\s+solution/i *)
    phrase ["even"; "if"; "class"; "isn't"; "the"; "right"; "solution"];
    (* /even\s+if\s+now\s+isn't\s+the\s+right\s+time/i *)
    phrase ["even"; "if"; "now"; "isn't"; "the"; "right"; "time"];
    (* /i\s+hope\s+this\s+data\s+is\s+useful/i *)
    phrase ["i"; "hope"; "this"; "data"; "is"; "useful"];
    (* /i\s+hope\s+these\s+findings\s+are\s+useful/i *)
    phrase ["i"; "hope"; "these"; "findings"; "are"; "useful"];
    (* /the\s+klas\s+research\s+might\s+be\s+useful/i *)
    phrase ["the"; "klas"; "research"; "might"; "be"; "useful"];
    (* /this\s+research\s+might\s+be\s+useful/i *)
    phrase ["this"; "research"; "might"; "be"; "useful"];
    (* /i\s+appreciate\s+you're\s+managing\s+a\s+lot/i *)
    phrase ["i"; "appreciate"; "you're"; "managing"; "a"; "lot"];
    (* /these\s+findings\s+will\s+still\s+be\s+relevant/i *)
    phrase ["these"; "findings"; "will"; "still"; "be"; "relevant"] ].

Definition hasWarmthPhrase (text : jsstring) (emailNumber : nat) : bool :=
  if negb (emailNumber =? 3)%nat then true
  else
    let lowerText := toLowerCase text in
    existsb (fun pattern => test pattern lowerText) warmthPatterns.

Definition bannedPhrases : list (regex * jsstring) :=
  [ (* /competency\s+verification/i *)
    (phrase ["competency"; "verification"],
     str "Use " ++ quoted "embedded assessments" ++ str " instead of "
       ++ quoted "competency verification");
    (* /hands-?on\s+ehr\s+practice\s+environment/i *)
    (seqs [lit "hands"; Opt (lit "-"); phrase ["on"; "ehr"; "practice"; "environment"]],
     str "Class is not an EHR simulator");
    (* /single\s+dashboard\s+across\s+your\s+entire\s+network/i *)
    (phrase ["single"; "dashboard"; "across"; "your"; "entire"; "network"],
     str "Overstated feature claim");
    (* /no\s+new\s+infrastructure\s+to\s+learn/i *)
    (phrase ["no"; "new"; "infrastructure"; "to"; "learn"],
     str "Users need Class training");
    (* /deployment\s+layer/i *)
    (phrase ["deployment"; "layer"], str "Confusing terminology");
    (* /overwhelming\s+the\s+education\s+infrastructure/i *)
    (phrase ["overwhelming"; "the"; "education"; "infrastructure"],
     str "Vague wording");
    (* /one\s+more\s+thought/i *)
    (phrase ["one"; "more"; "thought"], str "Feels pestering");
    (* /i\s+keep\s+wondering/i *)
    (phrase ["i"; "keep"; "wondering"], str "Forced personalization");
    (* /january\s+sessions?/i *)
    (seqs [lit "january"; ws1; lit "session"; Opt (lit "s")],
     str "Too immediate timing reference");
    (* /runs?\s+on\s+your\s+existing\s+zoom/i *)
    (seqs [lit "run"; Opt (lit "s"); ws1; phrase ["on"; "your"; "existing"; "zoom"]],
     str "Use " ++ quoted "built for Zoom" ++ str " instead") ].

Definition hasBannedPhrases (text : jsstring) : list jsstring :=
  List.map snd (List.filter (fun b => test (fst b) text) bannedPhrases).

(** [lines[lines.length - 1]] is read from the array; were it undefined,
    calling [trim] on it would throw a TypeError. *)
Definition hasValidSignature (text : jsstring) : completion bool :=
  let lines := Js.split (trim text) (str (String (ascii_of_nat 10) EmptyString)) in
  match lines !! (length lines - 1) with
  | Some lastLine => Normal (eqb (toLowerCase (trim lastLine)) (str "dalton"))
  | None => Throw (ErrorObject (str "Cannot read properties of undefined"))
  end.

(** The three accumulators of [validateEmail] and [validateSequence]. *)
Record acc : Type := Acc {
  accChecks : gmap jsstring bool;
  accFailures : list jsstring;
  accSuggestions : list jsstring
}.

(** Truthiness of [checks[key]]: an absent key reads as undefined. *)
Definition isSet (cs : gmap jsstring bool) (key : jsstring) : bool :=
  default false (cs !! key).

(** [checks[key] = value; if (!checks[key]) { failures.push(failure);
    suggestions.push(...fixes) }] *)
Definition recordCheck (key : jsstring) (value : bool) (failure : jsstring)
    (fixes : list jsstring) (a : acc) : acc :=
  let cs := <[key := value]> (accChecks a) in
  if negb (isSet cs key)
  then Acc cs (accFailures a ++ [failure]) (accSuggestions a ++ fixes)
  else Acc cs (accFailures a) (accSuggestions a).

Definition validateEmail (email : EmailVariant) : completion ValidationResult :=
  let a := Acc ∅ [] [] in
  (* 1. Word count validation *)
  let wordCount := countWords (body email) in
  let a := recordCheck (str "word_count_valid")
             ((150 <=? wordCount)%nat && (wordCount <=? 200)%nat)
             (str "Word count " ++ ofNat wordCount ++ str " outside range 150-200")
             [if (wordCount <? 150)%nat
              then str "Add " ++ ofNat (150 - wordCount)
                     ++ str " more words to meet minimum"
              else str "Remove " ++ ofNat (wordCount - 200)
                     ++ str " words to meet maximum"] a in
  (* 2. Contractions check *)
  let a := recordCheck (str "contractions_used")
             (negb (hasContractionIssues (body email)))
             (str "Uncontracted phrases detected (e.g., " ++ quoted "I am"
                ++ str " instead of " ++ quoted "I'm" ++ str ")")
             [str "Use contractions: I'm, you're, that's, it's, can't, won't, don't"] a in
  (* 3. KLAS introduction check *)
  let a := recordCheck (str "klas_intro_valid")
             (hasValidKlasIntro (body email))
             (str "KLAS mentioned without proper introduction")
             [str "First KLAS mention must include: " ++ [dquote]
                ++ str "KLAS Research" ++ [emDash]
                ++ str "which surveyed 500,000+ clinicians across 300 healthcare organizations"
                ++ [emDash] ++ str "found that..." ++ [dquote]] a in
  (* 4. "We" timing check *)
  let a := recordCheck (str "we_timing_valid")
             (hasValidWeTiming (body email))
             (quoted "We" ++ str " used before Class was introduced")
             [str "Introduce Class by name before using " ++ quoted "we"
                ++ str ": " ++ [dquote]
                ++ str "That's why I'm reaching out about Class" ++ [emDash]
                ++ str "a virtual classroom platform. The challenge we hear..."
                ++ [dquote]] a in
  (* 5. CTA validation *)
  let a := recordCheck (str "cta_valid")
             (hasValidCta (body email))
             (str "CTA contains banned patterns (e.g., " ++ quoted "20 minutes"
                ++ str ", specific day/time)")
             [str "Use conversational CTAs: " ++ quoted
                "Is it worth a quick conversation? Let me know when works best for you."] a in
  (* 6. Warmth phrase (Email 3 only) *)
  let a := recordCheck (str "warmth_phrase_valid")
             (hasWarmthPhrase (body email) (email_number email))
             (str "Email 3 missing warmth phrase")
             [str "Add warmth phrase: " ++ quoted
                "Even if the timing isn't right over the next few months, I hope these findings are useful context for your planning."] a in
  (* 7. Banned phrases check *)
  let bannedFound := hasBannedPhrases (body email) in
  let a := recordCheck (str "no_banned_phrases")
             (length bannedFound =? 0)%nat
             (str "Banned phrases found: " ++ ofNat (length bannedFound))
             bannedFound a in
  (* 8. Signature check *)
  signed ← hasValidSignature (body email);
  let a := recordCheck (str "signature_valid") signed
             (str "Email not signed " ++ quoted "Dalton" ++ str " on last line")
             [str "End email with just " ++ quoted "Dalton"
                ++ str " (first name only)"] a in
  (* 9. Subject line check (no "Re:") *)
  let a := recordCheck (str "subject_valid")
             (negb (startsWith (toLowerCase (subject_line email)) (str "re:")))
             (str "Subject line starts with " ++ quoted "Re:")
             [str "Each email needs a unique subject line, no " ++ quoted "Re:"
                ++ str " prefix"] a in
  mret {| passed := (length (accFailures a) =? 0)%nat;
          checks := accChecks a;
          failures := accFailures a;
          suggestions := accSuggestions a |}.

Definition expectedAngles : list jsstring :=
  [str "timing"; str "challenge"; str "outcome"].

(** [actualAngles.every((a, i) => a === expectedAngles[i])], from index
    [i] on. *)
Fixpoint everyFrom (i : nat) (actualAngles : list jsstring) : bool :=
  match actualAngles with
  | [] => true
  | a :: rest =>
      match expectedAngles !! i with
      | Some e => eqb a e && everyFrom (S i) rest
      | None => false
      end
  end.

(** [`E${email.email_number}_`] *)
Definition checkPrefix (email : EmailVariant) : jsstring :=
  str "E" ++ ofNat (email_number email) ++ str "_".

(** The body of the loop over the emails of a sequence. *)
Definition sequenceStep (a : acc) (email : EmailVariant) : completion acc :=
  result ← validateEmail email;
  let cs := map_fold (fun key value m => <[checkPrefix email ++ key := value]> m)
              (accChecks a) (checks result) in
  if negb (passed result)
  then mret (Acc cs
         (accFailures a ++
            [str "Email " ++ ofNat (email_number email) ++ str ": "
               ++ join (str "; ") (failures result)])
         (accSuggestions a ++
            List.map (fun s => str "E" ++ ofNat (email_number email) ++ str ": " ++ s)
              (suggestions result)))
  else mret (Acc cs (accFailures a) (accSuggestions a)).

Fixpoint sequenceLoop (a : acc) (emails : EmailSequence) : completion acc :=
  match emails with
  | [] => mret a
  | email :: rest => a' ← sequenceStep a email; sequenceLoop a' rest
  end.

Definition validateSequence (emails : EmailSequence) : completion ValidationResult :=
  let a := Acc ∅ [] [] in
  (* Validate sequence length *)
  let a := if negb (length emails =? 3)%nat
           then Acc (accChecks a)
                  (accFailures a ++
                     [str "Sequence has " ++ ofNat (length emails)
                        ++ str " emails, expected 3"])
                  (accSuggestions a ++ [str "Generate exactly 3 emails per sequence"])
           else a in
  (* Validate angle order *)
  let actualAngles := List.map (fun e => angleName (angle e)) emails in
  let angleOrderValid := everyFrom 0 actualAngles in
  let a := Acc (<[str "angle_order_valid" := angleOrderValid]> (accChecks a))
             (accFailures a) (accSuggestions a) in
  let a := if negb angleOrderValid
           then Acc (accChecks a)
                  (accFailures a ++
                     [str "Angle order incorrect: expected timing->challenge->outcome, got "
                        ++ join (str "->") actualAngles])
                  (accSuggestions a ++
                     [str "Emails must follow angle order: E1=timing, E2=challenge, E3=outcome"])
           else a in
  (* Validate each email *)
  a ← sequenceLoop a emails;
  mret {| passed := (length (accFailures a) =? 0)%nat;
          checks := accChecks a;
          failures := accFailures a;
          suggestions := accSuggestions a |}.

End Validator.

(** ** Contact list items (lib/types.ts) *)

Module Types.
Import Js.

Record ContactListItem : Type := {
  contact_id : jsstring;
  full_name : jsstring;
  title : jsstring;
  email : jsstring;
  persona_match : jsstring;
  outreach_priority : Z
}.

End Types.

(** ** Contact ranking and auto-selection (the contact selector with
       exclusion patterns and priority tiers) *)

Module ContactSelector.
Import Js Types.
Local Open Scope string_scope.
Local Open Scope list_scope.

Definition EXCLUDED_KEYWORDS : list jsstring :=
  List.map str
    ["CEO"; "Chief Executive";
     "CMO"; "Chief Medical Officer";
     "CFO"; "Chief Financial";
     "COO"; "Chief Operating";
     "CMIO"; "Chief Medical Information";
     "CNO"; "Chief Nursing";
     "Epic Trainer"; "Credentialed Trainer"; "Training Specialist"; "EHR Trainer"].

Definition TIER_1_KEYWORDS : list jsstring :=
  List.map str ["CLO"; "Chief Learning"; "VP Learning"; "VP L&D"].

Definition TIER_2_KEYWORDS : list jsstring :=
  List.map str ["CIO"; "Chief Information Officer"; "Chief Digital"].

Definition TIER_3_KEYWORDS : list jsstring :=
  List.map str ["CHRO"; "Chief Human Resources"; "Chief People"; "CPO"].

Definition TIER_4_KEYWORDS : list jsstring :=
  List.map str
    ["Director of Learning"; "Director of Training"; "Director of L&D";
     "Director of Education"; "Director of Clinical Education";
     "VP Education"; "VP Training"; "Director of Workforce"].

Definition ALL_PRIORITY_KEYWORDS : list jsstring :=
  TIER_1_KEYWORDS ++ TIER_2_KEYWORDS ++ TIER_3_KEYWORDS ++ TIER_4_KEYWORDS.

(** [keywords.some((kw) => text.includes(kw.toLowerCase()))] *)
Definition someKeyword (keywords : list jsstring) (text : jsstring) : bool :=
  existsb (fun kw => includes text (toLowerCase kw)) keywords.

(** [`${contact.title} ${contact.persona_match}`.toLowerCase()] *)
Definition combinedText (contact : ContactListItem) : jsstring :=
  toLowerCase (title contact ++ str " " ++ persona_match contact).

Definition isExcluded (contact : ContactListItem) : bool :=
  someKeyword EXCLUDED_KEYWORDS (combinedText contact).

(** [None] is the source's [null]: excluded contacts have no tier. *)
Definition getPriorityTier (contact : ContactListItem) : option Z :=
  if isExcluded contact then None
  else
    let title := toLowerCase (title contact) in
    if someKeyword TIER_1_KEYWORDS title then Some 1%Z
    else if someKeyword TIER_2_KEYWORDS title then Some 2%Z
    else if someKeyword TIER_3_KEYWORDS title then Some 3%Z
    else if someKeyword TIER_4_KEYWORDS title then Some 4%Z
    else Some 5%Z.

Definition shouldAutoSelect (contact : ContactListItem) : bool :=
  if isExcluded contact then false
  else someKeyword ALL_PRIORITY_KEYWORDS (combinedText contact).

Definition getAutoSelectedIds (contacts : list ContactListItem) : list jsstring :=
  List.map contact_id (List.filter shouldAutoSelect contacts).

(** The comparator of [sortContacts]. *)
Definition compareContacts (a b : ContactListItem) : Z :=
  let tierA := getPriorityTier a in
  let tierB := getPriorityTier b in
  match tierA, tierB with
  | None, None => 0
  | None, Some _ => 1
  | Some _, None => -1
  | Some ta, Some tb =>
      if negb (ta =? tb)%Z then (ta - tb)%Z
      else (outreach_priority a - outreach_priority b)%Z
  end.

(** [Array.prototype.sort] with a comparator.  The sort is stable, and
    for a comparator that is a consistent ordering its result does not
    depend on the algorithm; it is modelled as an insertion sort that
    keeps [x] before the elements it does not compare greater than. *)
Fixpoint insertBy {A : Type} (cmp : A -> A -> Z) (x : A) (l : list A) : list A :=
  match l with
  | [] => [x]
  | y :: l' => if (cmp x y <=? 0)%Z then x :: l else y :: insertBy cmp x l'
  end.

Definition sortBy {A : Type} (cmp : A -> A -> Z) (l : list A) : list A :=
  foldr (insertBy cmp) [] l.

Definition sortContacts (contacts : list ContactListItem) : list ContactListItem :=
  sortBy compareContacts contacts.

End ContactSelector.

(** ** The in-memory store of saved sequences (lib/storage.ts) *)

Module Storage.
Import Js Schemas.

Record SaveEmailInput : Type := {
  inAccountIndex : Z;
  inAccountName : jsstring;
  inContactId : jsstring;
  inContactName : jsstring;
  inContactTitle : jsstring;
  inEmails : EmailSequence
}.

Record SavedEmail : Type := {
  id : jsstring;
  accountIndex : Z;
  accountName : jsstring;
  contactId : jsstring;
  contactName : jsstring;
  contactTitle : jsstring;
  emails : EmailSequence;
  createdAt : jsstring;
  updatedAt : jsstring
}.

Record SavedEmailMetadata : Type := {
  metaId : jsstring;
  metaAccountIndex : Z;
  metaAccountName : jsstring;
  metaContactId : jsstring;
  metaContactName : jsstring;
  metaContactTitle : jsstring;
  emailCount : nat;
  metaCreatedAt : jsstring;
  metaUpdatedAt : jsstring
}.

(** The module-level [emailStore], a [Map<string, SavedEmail>].  The
    order in which a [Map] is iterated is not modelled. *)
Notation emailStore := (gmap jsstring SavedEmail).

(** [uuid] is what [crypto.randomUUID()] returned and [now] what
    [new Date().toISOString()] returned. *)
Definition saveEmail (uuid now : jsstring) (data : SaveEmailInput)
    (store : emailStore) : SavedEmail * emailStore :=
  let saved := {| id := uuid;
                  accountIndex := inAccountIndex data;
                  accountName := inAccountName data;
                  contactId := inContactId data;
                  contactName := inContactName data;
                  contactTitle := inContactTitle data;
                  emails := inEmails data;
                  createdAt := now;
                  updatedAt := now |} in
  (saved, <[uuid := saved]> store).

(** [None] is the source's [null]. *)
Definition getEmail (i : jsstring) (store : emailStore) : option SavedEmail :=
  store !! i.

Definition toMetadata (e : SavedEmail) : SavedEmailMetadata :=
  {| metaId := id e;
     metaAccountIndex := accountIndex e;
     metaAccountName := accountName e;
     metaContactId := contactId e;
     metaContactName := contactName e;
     metaContactTitle := contactTitle e;
     emailCount := length (emails e);
     metaCreatedAt := createdAt e;
     metaUpdatedAt := updatedAt e |}.

(** The filter is [None] when the argument is undefined. *)
Definition listEmails (filterIndex : option Z) (store : emailStore)
    : list SavedEmailMetadata :=
  let emails := List.map snd (map_to_list store) in
  let filtered :=
    match filterIndex with
    | Some n => List.filter (fun e => (accountIndex e =? n)%Z) emails
    | None => emails
    end in
  List.map toMetadata filtered.

Definition deleteEmail (i : jsstring) (store : emailStore) : bool * emailStore :=
  (bool_decide (is_Some (store !! i)), delete i store).

Definition getEmailCount (store : emailStore) : nat := size store.

Definition clearAllEmails (store : emailStore) : emailStore := ∅.

(** The operations that change the store. *)
Inductive operation : Type :=
| OpSave (uuid now : jsstring) (data : SaveEmailInput)
| OpDelete (i : jsstring)
| OpClear.

Definition applyOp (store : emailStore) (op : operation) : emailStore :=
  match op with
  | OpSave uuid now data => snd (saveEmail uuid now data store)
  | OpDelete i => snd (deleteEmail i store)
  | OpClear => clearAllEmails store
  end.

(** The stores a process can be in: the empty store it starts with,
    changed by any sequence of operations. *)
Definition reachable (store : emailStore) : Prop :=
  exists ops : list operation, store = fold_left applyOp ops ∅.

End Storage.

(** ** JSON values

    What [response.json()] can resolve to, and the conversions the
    generator component applies to such a value. *)

Module Json.
Import Js.
Local Open Scope string_scope.
Local Open Scope list_scope.

(** A number is given by [String(n)], its rendering ([0] for either
    zero).  An object is the map of its own properties. *)
#[warnings="-register-all"]
Inductive value : Type :=
| JNull
| JBool (b : bool)
| JNumber (rendering : jsstring)
| JString (s : jsstring)
| JArray (elements : list value)
| JObject (properties : gmap jsstring value).

(** The messages of the TypeErrors that reading a property of [null] and
    converting an object without a usable [toString] raise.  The wording
    is V8's; other engines word them differently. *)
Definition nullReadMessage (key : jsstring) : jsstring :=
  str "Cannot read properties of null (reading '" ++ key ++ str "')".

Definition toPrimitiveMessage : jsstring :=
  str "Cannot convert object to primitive value".

(** [v[key]] for a key that is no property of the prototypes, such as
    [details] and [error]; [None] is undefined.  Primitives and arrays
    have no such property; reading it from [null] throws a TypeError. *)
Definition getProperty (v : value) (key : jsstring) : completion (option value) :=
  match v with
  | JNull => Throw (ErrorObject (nullReadMessage key))
  | JObject properties => Normal (properties !! key)
  | JBool _ | JNumber _ | JString _ | JArray _ => Normal None
  end.

(** ToBoolean, on a value that may be undefined. *)
Definition truthy (o : option value) : bool :=
  match o with
  | None | Some JNull => false
  | Some (JBool b) => b
  | Some (JNumber rendering) => negb (eqb rendering (str "0"))
  | Some (JString s) => match s with [] => false | _ :: _ => true end
  | Some (JArray _) | Some (JObject _) => true
  end.

(** ToString.  An array is the join of its elements with commas, [null]
    elements giving the empty string.  A plain object is
    [[object Object]], unless it has a property [toString] of its own:
    that property, coming from JSON, is no function, and neither
    [valueOf] of its own nor the inherited one yields a primitive, so the
    conversion throws a TypeError. *)
Fixpoint toString (v : value) : completion jsstring :=
  match v with
  | JNull => Normal (str "null")
  | JBool b => Normal (if b then str "true" else str "false")
  | JNumber rendering => Normal rendering
  | JString s => Normal s
  | JArray elements =>
      let pieces :=
        (fix piecesOf (l : list value) : completion (list jsstring) :=
           match l with
           | [] => Normal []
           | x :: l' =>
               match (match x with JNull => Normal [] | _ => toString x end) with
               | Normal piece =>
                   match piecesOf l' with
                   | Normal rest => Normal (piece :: rest)
                   | Throw e => Throw e
                   end
               | Throw e => Throw e
               end
           end) elements in
      match pieces with
      | Normal strings => Normal (join (str ",") strings)
      | Throw e => Throw e
      end
  | JObject properties =>
      match properties !! str "toString" with
      | Some _ => Throw (ErrorObject toPrimitiveMessage)
      | None => Normal (str "[object Object]")
      end
  end.

End Json.

(** ** The email generator component (components/EmailGenerator.tsx) *)

Module EmailGenerator.
Import Js Regex Types.
Local Open Scope string_scope.
Local Open Scope list_scope.

Module Http.

(** What [fetch] resolves to, as far as the component reads it: [json]
    is what [response.json()] resolves to, any JSON value, and [None]
    when it rejects; [body] is [None] when there is no body to read, and
    otherwise the decoded chunks with, possibly, the error that ends the
    reading. *)
Record Response : Type := {
  ok : bool;
  status : nat;
  json : option Json.value;
  body : option (list jsstring * option thrown)
}.

End Http.

Notation Response := Http.Response.

(** The four values of the [status] field. *)
Inductive Status : Type := Pending | Generating | Complete | Error.

Record GenerationStatus : Type := {
  contactId : jsstring;
  contactName : jsstring;
  status : Status;
  error : option jsstring
}.

(** [/```(?:json)?\s*([\s\S]*?)```/] *)
Definition codeBlockPattern : regex :=
  seqs [exact "```"; Opt (exact "json"); ws0; Cap (StarLazy anyUnit);
        exact "```"].

(** [/\[\s*\{[\s\S]*?\}\s*\]/] *)
Definition jsonArrayPattern : regex :=
  seqs [exact "["; ws0; exact "{"; StarLazy anyUnit; exact "}"; ws0;
        exact "]"].

(** [a || b] on optional strings: the empty string is falsy. *)
Definition truthyString (o : option jsstring) : option jsstring :=
  match o with
  | Some (c :: s) => Some (c :: s)
  | _ => None
  end.

Section Generator.

(** The values [JSON.parse] produces, [JSON.parse] itself ([None] when it
    throws a SyntaxError), and the truthiness of a parsed value. *)
Context {J : Type}.
Variable JSON_parse : jsstring -> option J.
Variable truthy : J -> bool.

(** [try { return JSON.parse(text) } catch { }] inside the outer
    [catch]: the next strategy runs when parsing throws. *)
Definition orElse (attempt : option J) (next : completion J) : completion J :=
  match attempt with
  | Some emails => Normal emails
  | None => next
  end.

(** The [try]/[catch] that interprets the accumulated response text. *)
Definition parseAccumulated (accumulated : jsstring) : completion J :=
  match JSON_parse accumulated with
  | Some emails => Normal emails
  | None =>
      (* Strategy 1: Extract from markdown code block *)
      let codeBlockMatch := exec codeBlockPattern accumulated in
      orElse
        (match codeBlockMatch with
         | Some m =>
             match captured m with
             | Some inner => JSON_parse (trim inner)
             | None => None
             end
         | None => None
         end)
      (* Strategy 2: Find JSON array pattern anywhere in response *)
      (let jsonMatch := exec jsonArrayPattern accumulated in
       orElse
         (match jsonMatch with
          | Some m => JSON_parse (matched m)
          | None => None
          end)
       (* Strategy 3: Find from first [ to last ] *)
       (let firstBracket := indexOf accumulated (str "[") in
        let lastBracket := lastIndexOf accumulated (str "]") in
        orElse
          (if (negb (firstBracket =? -1) && (firstBracket <? lastBracket))%Z
           then JSON_parse (slice accumulated firstBracket (lastBracket + 1))
           else None)
          (Throw (ErrorObject (str "Failed to parse email sequence from response")))))
  end.

(** Reading the stream to its end, concatenating the chunks. *)
Definition readAll (s : list jsstring * option thrown) : completion jsstring :=
  match snd s with
  | Some e => Throw e
  | None => Normal (concat (fst s))
  end.

(** [errorData.details || errorData.error || `HTTP ${response.status}`]:
    the first of the three that is truthy; reading a property may
    throw. *)
Definition errorMessageOf (errorData : Json.value) (status : nat)
    : completion Json.value :=
  details ← Json.getProperty errorData (str "details");
  if Json.truthy details then mret (default Json.JNull details)
  else
    error ← Json.getProperty errorData (str "error");
    if Json.truthy error then mret (default Json.JNull error)
    else mret (Json.JString (str "HTTP " ++ ofNat status)).

(** [generateForContact], given what [fetch] did for this contact.
    [new Error(errorMessage)] converts its argument to a string. *)
Definition generateForContact (fetched : completion Response) : completion J :=
  response ← fetched;
  if negb (Http.ok response) then
    let errorData :=
      match Http.json response with
      | Some d => d
      | None => Json.JObject {[ str "error" := Json.JString (str "Unknown error") ]}
      end in
    errorMessage ← errorMessageOf errorData (Http.status response);
    message ← Json.toString errorMessage;
    Throw (ErrorObject message)
  else
    match Http.body response with
    | None => Throw (ErrorObject (str "No response body"))
    | Some s => accumulated ← readAll s; parseAccumulated accumulated
    end.

(** The state the batch loop works on: the [statuses] of the component
    and the local [results] map. *)
Record batch : Type := Batch {
  statuses : list GenerationStatus;
  results : gmap jsstring J
}.

(** [prev.map(s => s.contactId === id ? { ...s, status, error? } : s)];
    [err] is [None] when the update leaves the error field as it is. *)
Definition setStatus (i : jsstring) (st : Status) (err : option jsstring)
    (prev : list GenerationStatus) : list GenerationStatus :=
  List.map (fun s =>
    if eqb (contactId s) i
    then {| contactId := contactId s;
            contactName := contactName s;
            status := st;
            error := match err with Some m => Some m | None => error s end |}
    else s) prev.

(** [err instanceof Error ? err.message : 'Generation failed'] *)
Definition messageOf (e : thrown) : jsstring :=
  match e with
  | ErrorObject m => m
  | NonError => str "Generation failed"
  end.

(** One iteration of the loop over the contacts; [fetched] is what
    [fetch] did for this contact. *)
Definition batchStep (fetched : completion Response) (contact : ContactListItem)
    (b : batch) : batch :=
  let b := Batch (setStatus (contact_id contact) Generating None (statuses b))
             (results b) in
  match generateForContact fetched with
  | Normal emails =>
      let res := if truthy emails
                 then <[contact_id contact := emails]> (results b)
                 else results b in
      Batch (setStatus (contact_id contact) Complete None (statuses b)) res
  | Throw err =>
      let errorMessage := messageOf err in
      Batch (setStatus (contact_id contact) Error (Some errorMessage) (statuses b))
        (results b)
  end.

(** The loop, from the [n]-th request of the batch on; [fetch n contact]
    is what the [n]-th call of [fetch] did. *)
Fixpoint batchLoop (fetch : nat -> ContactListItem -> completion Response)
    (n : nat) (contacts : list ContactListItem) (b : batch) : batch :=
  match contacts with
  | [] => b
  | contact :: rest =>
      batchLoop fetch (S n) rest (batchStep (fetch n contact) contact b)
  end.

Definition initialStatuses (contacts : list ContactListItem)
    : list GenerationStatus :=
  List.map (fun c => {| contactId := contact_id c;
                        contactName := full_name c;
                        status := Pending;
                        error := None |}) contacts.

(** [handleGenerate]: [None] when no contact is selected and nothing
    happens; otherwise the final statuses and the map handed to
    [onEmailsGenerated]. *)
Definition handleGenerate (fetch : nat -> ContactListItem -> completion Response)
    (contacts : list ContactListItem) : option batch :=
  if (length contacts =? 0)%nat then None
  else Some (batchLoop fetch 0 contacts (Batch (initialStatuses contacts) ∅)).

End Generator.

End EmailGenerator.

(** ** Reference definitions

    Definitions that follow the wording of the specification, to be
    compared with the functions above. *)

Module Reference.
Import Js Regex.
Local Open Scope string_scope.
Local Open Scope list_scope.

(** Splitting on maximal runs of whitespace: a run closes the current
    token once, however long it is.  [inRun] tells that the previous code
    unit was whitespace. *)
Fixpoint splitOnWhitespaceRuns (cur : jsstring) (inRun : bool)
    (s : jsstring) : list jsstring :=
  match s with
  | [] => [rev cur]
  | c :: s' =>
      if isWhite c
      then (if inRun then splitOnWhitespaceRuns [] true s'
            else rev cur :: splitOnWhitespaceRuns [] true s')
      else splitOnWhitespaceRuns (c :: cur) false s'
  end.

(** The number of non-empty tokens obtained by splitting on maximal runs
    of whitespace. *)
Definition tokenCount (s : jsstring) : nat :=
  length (List.filter (fun w => (0 <? length w)%nat)
            (splitOnWhitespaceRuns [] false s)).

(** The state of a match attempt that starts at offset [p] of [s]. *)
Definition stateAt (s : jsstring) (p : nat) : mstate :=
  MState (rev (firstn p s)) (skipn p s) None None.

(** The pattern matches some text that starts at offset [p] of [s]. *)
Definition occursAt (r : regex) (s : jsstring) (p : nat) : bool :=
  (p <=? length s)%nat &&
  match matchAt r (stateAt s p) with Some _ => true | None => false end.

(** [x] is the earliest offset of [s] at which one of the patterns
    matches. *)
Definition earliestOffset (rs : list regex) (s : jsstring) (x : nat) : Prop :=
  (exists r, In r rs /\ occursAt r s x = true) /\
  (forall y r, (y < x)%nat -> In r rs -> occursAt r s y = false).



















(** The five plural pronouns of the first person. *)
Definition pluralPronouns : list jsstring :=
  List.map str ["we"; "we're"; "we've"; "we'll"; "our"].

(** Whether the code unit at offset [i] of [s] is a word character;
    there is none before the text and after it. *)
Definition wordCharAt (s : jsstring) (i : nat) : bool :=
  match s !! i with
  | Some c => isWordChar c
  | None => false
  end.

(** [word] stands at offset [y] of [s] as a whole word: it is there,
    code unit for code unit, and neither the code unit before it nor the
    one after it is a word character. *)
Definition wholeWordAt (s word : jsstring) (y : nat) : bool :=
  startsWith (skipn y s) word
  && negb (match y with 0 => false | S y' => wordCharAt s y' end)
  && negb (wordCharAt s (y + length word)).

(** A plural pronoun occurs at offset [y] of [s]. *)
Definition pronounAt (s : jsstring) (y : nat) : bool :=
  existsb (fun word => wholeWordAt s word y) pluralPronouns.

(** The names of the nine checks of [validateEmail]. *)
Definition checkNames : list jsstring :=
  List.map str
    ["word_count_valid"; "contractions_used"; "klas_intro_valid";
     "we_timing_valid"; "cta_valid"; "warmth_phrase_valid";
     "no_banned_phrases"; "signature_valid"; "subject_valid"].

(** [precedes x y l]: an occurrence of [x] comes before an occurrence of
    [y] in [l]. *)
Definition precedes {A : Type} (x y : A) (l : list A) : Prop :=
  exists l1 l2 l3, l = l1 ++ x :: l2 ++ y :: l3.

End Reference.

(** ** Auxiliary definitions for the proofs *)

Module Auxiliary.
Import Js Regex Schemas Validator.
Local Open Scope string_scope.
Local Open Scope list_scope.

(** The state after the longest run of class [p] at the front of
    [rest]. *)
Fixpoint skipRun (p : N -> bool) (rest : jsstring) (st : mstate) : mstate :=
  match rest with
  | c :: rest' => if p c then skipRun p rest' (advance c rest' st) else st
  | [] => st
  end.

Fixpoint runLength (p : N -> bool) (rest : jsstring) : nat :=
  match rest with
  | c :: rest' => if p c then S (runLength p rest') else 0
  | [] => 0
  end.

Definition nonEmpty (w : jsstring) : bool := (0 <? length w)%nat.

(** A run of [recordCheck]s, as [validateEmail] makes them. *)
Definition runChecks (items : list (jsstring * bool * jsstring * list jsstring))
    (a : acc) : acc :=
  fold_left (fun a it => recordCheck it.1.1.1 it.1.1.2 it.1.2 it.2 a) items a.

Definition checkItems (email : EmailVariant) (signed : bool)
    : list (jsstring * bool * jsstring * list jsstring) :=
  let wordCount := countWords (body email) in
  let bannedFound := hasBannedPhrases (body email) in
  [ (str "word_count_valid",
     (150 <=? wordCount)%nat && (wordCount <=? 200)%nat,
     str "Word count " ++ ofNat wordCount ++ str " outside range 150-200",
     [if (wordCount <? 150)%nat
      then str "Add " ++ ofNat (150 - wordCount) ++ str " more words to meet minimum"
      else str "Remove " ++ ofNat (wordCount - 200) ++ str " words to meet maximum"]);
    (str "contractions_used", negb (hasContractionIssues (body email)),
     str "Uncontracted phrases detected (e.g., " ++ quoted "I am"
       ++ str " instead of " ++ quoted "I'm" ++ str ")",
     [str "Use contractions: I'm, you're, that's, it's, can't, won't, don't"]);
    (str "klas_intro_valid", hasValidKlasIntro (body email),
     str "KLAS mentioned without proper introduction",
     [str "First KLAS mention must include: " ++ [dquote]
        ++ str "KLAS Research" ++ [emDash]
        ++ str "which surveyed 500,000+ clinicians across 300 healthcare organizations"
        ++ [emDash] ++ str "found that..." ++ [dquote]]);
    (str "we_timing_valid", hasValidWeTiming (body email),
     quoted "We" ++ str " used before Class was introduced",
     [str "Introduce Class by name before using " ++ quoted "we"
        ++ str ": " ++ [dquote]
        ++ str "That's why I'm reaching out about Class" ++ [emDash]
        ++ str "a virtual classroom platform. The challenge we hear..."
        ++ [dquote]]);
    (str "cta_valid", hasValidCta (body email),
     str "CTA contains banned patterns (e.g., " ++ quoted "20 minutes"
       ++ str ", specific day/time)",
     [str "Use conversational CTAs: " ++ quoted
        "Is it worth a quick conversation? Let me know when works best for you."]);
    (str "warmth_phrase_valid", hasWarmthPhrase (body email) (email_number email),
     str "Email 3 missing warmth phrase",
     [str "Add warmth phrase: " ++ quoted
        "Even if the timing isn't right over the next few months, I hope these findings are useful context for your planning."]);
    (str "no_banned_phrases", (length bannedFound =? 0)%nat,
     str "Banned phrases found: " ++ ofNat (length bannedFound),
     bannedFound);
    (str "signature_valid", signed,
     str "Email not signed " ++ quoted "Dalton" ++ str " on last line",
     [str "End email with just " ++ quoted "Dalton" ++ str " (first name only)"]);
    (str "subject_valid",
     negb (startsWith (toLowerCase (subject_line email)) (str "re:")),
     str "Subject line starts with " ++ quoted "Re:",
     [str "Each email needs a unique subject line, no " ++ quoted "Re:"
        ++ str " prefix"]) ].

Definition resultOf (a : acc) : ValidationResult :=
  {| passed := (length (accFailures a) =? 0)%nat;
     checks := accChecks a;
     failures := accFailures a;
     suggestions := accSuggestions a |}.

(** The states [class]* can end in: after any number of code units of the
    class. *)
Fixpoint starReach (p : N -> bool) (rest : jsstring) (st st' : mstate) : Prop :=
  st' = st \/
  match rest with
  | c :: rest' => p c = true /\ starReach p rest' (advance c rest' st) st'
  | [] => False
  end.

(** [reach r st st']: some way of matching [r] from [st] ends in [st'],
    whatever its priority among the alternatives. *)
Fixpoint reach (r : regex) (st st' : mstate) : Prop :=
  match r with
  | Eps => st' = st
  | Chr p => exists c rest, after st = c :: rest /\ p c = true /\
                            st' = advance c rest st
  | Seq a b => exists mid, reach a st mid /\ reach b mid st'
  | Alt a b => reach a st st' \/ reach b st st'
  | Opt a => reach a st st' \/ st' = st
  | Star p => starReach p (after st) st st'
  | StarLazy p => starReach p (after st) st st'
  | Bnd => isWordBoundary st = true /\ st' = st
  | Bol => before st = [] /\ st' = st
  | Cap a => exists mid, reach a (openGroup st) mid /\ st' = closeGroup mid
  end.

(** The code units that can start a plural pronoun: w and o in either
    case. *)
Definition startsPronoun (c : N) : bool :=
  (canon c =? 87)%N || (canon c =? 79)%N.

(** The five alternatives of the pronoun pattern. *)
Definition pronouns : list jsstring :=
  List.map str ["we"; "we're"; "we've"; "we'll"; "our"].

(** The state of a match attempt [k] code units into [s], when [pre]
    (nearest first) precedes [s]. *)
Definition splitState (pre s : jsstring) (k : nat) : mstate :=
  MState (rev (firstn k s) ++ pre) (skipn k s) None None.

(** Equality of code units under the [i] flag. *)
Definition sameLetter (x c : N) : Prop := canon x = canon c.

(** A list in which no element compares greater than a later one. *)
Definition ordered {A : Type} (cmp : A -> A -> Z) (l : list A) : Prop :=
  forall l1 x l2, l = l1 ++ x :: l2 -> forall y, In y l2 -> (cmp x y <= 0)%Z.

(** Every record of the store is filed under its own id. *)
Definition wellKeyed (store : gmap jsstring Storage.SavedEmail) : Prop :=
  forall k e, store !! k = Some e -> Storage.id e = k.

(** A text without upper-case ASCII letters. *)
Definition lowered (s : jsstring) : bool :=
  forallb (fun c => negb ((65 <=? c) && (c <=? 90))%N) s.






End Auxiliary.

(** ** Sample data *)

Module Samples.
Import Js Regex Schemas Validator Types ContactSelector.
Local Open Scope string_scope.
Local Open Scope list_scope.

Definition newline : jsstring := [10%N].

(** [n] filler words, each followed by a space. *)
Definition filler (n : nat) : jsstring := concat (repeat (str "word ") n).

(** A body of 163 words that passes every check of an email that is not
    the third. *)
Definition plainBody : jsstring :=
  str "Hi Sam," ++ newline ++ filler 160 ++ newline ++ str "Dalton".

(** A body of 169 words with a warmth phrase. *)
Definition warmBody : jsstring :=
  str "Hi Sam," ++ newline ++ filler 160 ++ newline
    ++ str "I hope these findings are useful." ++ newline ++ str "Dalton".

Definition email1 : EmailVariant :=
  {| variant_id := str "001-A-E1"; email_number := 1;
     subject_line := str "A question about training"; body := plainBody;
     word_count := 163; angle := timing |}.

Definition email2 : EmailVariant :=
  {| variant_id := str "001-A-E2"; email_number := 2;
     subject_line := str "Following up on training"; body := plainBody;
     word_count := 163; angle := challenge |}.

Definition email3 : EmailVariant :=
  {| variant_id := str "001-A-E3"; email_number := 3;
     subject_line := str "Results from similar teams"; body := warmBody;
     word_count := 169; angle := outcome |}.

(** An email of two words. *)
Definition shortEmail : EmailVariant :=
  {| variant_id := str "001-A-E1"; email_number := 1;
     subject_line := str "A question about training";
     body := str "Hi" ++ newline ++ str "Dalton";
     word_count := 2; angle := timing |}.

(** An email whose [word_count] field says 10 while its body has 163
    words. *)
Definition miscountedEmail : EmailVariant :=
  {| variant_id := str "001-A-E1"; email_number := 1;
     subject_line := str "A question about training"; body := plainBody;
     word_count := 10; angle := timing |}.

(** The example the system prompt gives of a wrong use of "we": no
    introduction of Class anywhere. *)
Definition weWithoutClass : jsstring :=
  str "The challenge we hear from health systems is real.".

(** Class introduced at offset 17, "we" at offset 32. *)
Definition weAfterClass : jsstring :=
  str "I'm reaching out about Class, and we hear this a lot.".

(** The shorthand KLAS mention, at the start and after a full stop. *)
Definition klasShorthandFirst : jsstring :=
  str "KLAS data shows gains in training.".

Definition klasShorthandLater : jsstring :=
  str "Hi Sam. KLAS data shows gains in training.".

Definition klasQualified : jsstring :=
  str "Hi Sam. KLAS Research, which surveyed 500,000+ clinicians, found gains.".

Definition contact (i t p : string) (priority : Z) : ContactListItem :=
  {| contact_id := str i; full_name := str i; title := str t;
     email := str "someone@example.org"; persona_match := str p;
     outreach_priority := priority |}.

Definition ceoContact : ContactListItem :=
  contact "C-1" "President and CEO" "Executive Sponsor" 1.

Definition directorContact : ContactListItem :=
  contact "C-2" "Director of Clinical Education" "Clinical/Education Leader" 3.

Definition trainingContact : ContactListItem :=
  contact "C-3" "Director of Training" "Clinical/Education Leader" 5.

(** A Director of Clinical Education whose persona text names the CNO. *)
Definition directorUnderCno : ContactListItem :=
  contact "C-4" "Director of Clinical Education"
    "Clinical Education, reports to the CNO" 2.

Definition sampleInput : Storage.SaveEmailInput :=
  {| Storage.inAccountIndex := 1;
     Storage.inAccountName := str "General Hospital";
     Storage.inContactId := str "C-2";
     Storage.inContactName := str "Sam Lee";
     Storage.inContactTitle := str "Director of Clinical Education";
     Storage.inEmails := [email1; email2; email3] |}.

Definition sampleUuid : jsstring := str "3f0c2c1e-7a55-4d51-9d0c-52a1f0a6b0e1".
Definition sampleNow : jsstring := str "2026-01-15T10:00:00.000Z".

(** A stand-in for [JSON.parse] that accepts one text only. *)
Definition toyParse (s : jsstring) : option nat :=
  if eqb s (str "[{1},{2},{3}]") then Some 3 else None.

Definition toyTruthy (n : nat) : bool := negb (n =? 0)%nat.

(** A response streamed in three chunks: prose around a fenced block. *)
Definition fencedResponse : EmailGenerator.Response :=
  {| EmailGenerator.Http.ok := true;
     EmailGenerator.Http.status := 200;
     EmailGenerator.Http.json := None;
     EmailGenerator.Http.body :=
       Some ([str "Here you go: ``"; str "`json" ++ newline ++ str "[{1},{2}";
              str ",{3}]" ++ newline ++ str "``` Enjoy!"], None) |}.

(** A response that holds no JSON at all. *)
Definition proseResponse : EmailGenerator.Response :=
  {| EmailGenerator.Http.ok := true;
     EmailGenerator.Http.status := 200;
     EmailGenerator.Http.json := None;
     EmailGenerator.Http.body := Some ([str "I cannot help with that."], None) |}.

(** A response with the array in plain view. *)
Definition plainResponse : EmailGenerator.Response :=
  {| EmailGenerator.Http.ok := true;
     EmailGenerator.Http.status := 200;
     EmailGenerator.Http.json := None;
     EmailGenerator.Http.body := Some ([str "[{1},{2},{3}]"], None) |}.

(** An error response of the upstream service. *)
Definition overloadedResponse : EmailGenerator.Response :=
  {| EmailGenerator.Http.ok := false;
     EmailGenerator.Http.status := 529;
     EmailGenerator.Http.json :=
       Some (Json.JObject {[ str "error" := Json.JString (str "Overloaded") ]});
     EmailGenerator.Http.body := None |}.

(** The answer of the generation route to a request body that fails its
    validation: [details] is an object. *)
Definition invalidBodyResponse : EmailGenerator.Response :=
  {| EmailGenerator.Http.ok := false;
     EmailGenerator.Http.status := 400;
     EmailGenerator.Http.json :=
       Some (Json.JObject
               {[ str "error" := Json.JString (str "Invalid request body");
                  str "details" :=
                    Json.JObject
                      {[ str "formErrors" := Json.JArray [];
                         str "fieldErrors" := Json.JObject ∅ ]} ]});
     EmailGenerator.Http.body := None |}.



(** What the network does for each contact of the sample batch. *)
Definition sampleFetch (n : nat) (c : ContactListItem)
    : completion EmailGenerator.Response :=
  match n with
  | 0 => Normal plainResponse
  | 1 => Normal overloadedResponse
  | 2 => Normal fencedResponse
  | _ => Normal proseResponse
  end.




End Samples.

(** ** The export file name (lib/export/download.ts) *)

Module Download.
Import Js Regex.
Local Open Scope string_scope.
Local Open Scope list_scope.

(** [String.prototype.replace] with a pattern that carries the [g] flag
    and matches no empty string, and a replacement without [$]: every
    successive match gives way to the replacement ([skip] counts the code
    units of the last match still to be passed over). *)
Fixpoint replaceAllFrom (r : regex) (replacement : jsstring) (pre : jsstring)
    (skip : nat) (s : jsstring) : jsstring :=
  match s with
  | [] => []
  | c :: s' =>
      match skip with
      | S k => replaceAllFrom r replacement (c :: pre) k s'
      | O =>
          match matchAt r (MState pre s None None) with
          | Some m =>
              replacement ++
              replaceAllFrom r replacement (c :: pre) (length (matched m) - 1) s'
          | None => c :: replaceAllFrom r replacement (c :: pre) 0 s'
          end
      end
  end.

Definition replaceAll (s : jsstring) (r : regex) (replacement : jsstring)
    : jsstring :=
  replaceAllFrom r replacement [] 0 s.

(** The class [[a-z0-9-]], without the [i] flag. *)
Definition isFilenameUnit (c : N) : bool :=
  ((97 <=? c) && (c <=? 122) || (48 <=? c) && (c <=? 57) || (c =? 45))%N.

(** [name.toLowerCase().replace(/\s+/g, '-').replace(/[^a-z0-9-]/g, '')] *)
Definition sanitizeFilename (name : jsstring) : jsstring :=
  replaceAll
    (replaceAll (toLowerCase name) ws1 (str "-"))
    (Chr (fun c => negb (isFilenameUnit c))) (str "").

(** The file name the export button downloads under:
    [`${sanitizeFilename(contactName)}-emails`], to which
    [downloadDocument] appends [.docx]. *)
Definition exportFilename (contactName : jsstring) : jsstring :=
  (sanitizeFilename contactName ++ str "-emails") ++ str ".docx".

End Download.

(** ** The handlers of the contact selector *)

Module SelectorHandlers.
Import Js Types ContactSelector.
Local Open Scope string_scope.
Local Open Scope list_scope.

(** [selectedIds.includes(contactId)] *)
Definition includesId (selectedIds : list jsstring) (contactId : jsstring) : bool :=
  existsb (fun i => eqb i contactId) selectedIds.

(** What [handleToggle] hands to [onSelectionChange]. *)
Definition handleToggle (selectedIds : list jsstring) (contactId : jsstring)
    : list jsstring :=
  if includesId selectedIds contactId
  then List.filter (fun i => negb (eqb i contactId)) selectedIds
  else selectedIds ++ [contactId].

(** What [handleSelectAll] hands to [onSelectionChange]. *)
Definition handleSelectAll (contacts : list ContactListItem) : list jsstring :=
  List.map contact_id (List.filter (fun c => negb (isExcluded c)) contacts).

(** The contacts the selector renders:
    [sortedContacts.filter((c) => !isExcluded(c))]. *)
Definition eligibleContacts (contacts : list ContactListItem)
    : list ContactListItem :=
  List.filter (fun c => negb (isExcluded c)) (sortContacts contacts).

Definition getTierLabel (tier : option Z) : jsstring :=
  match tier with
  | None => str "Excluded"
  | Some 1%Z => str "CLO"
  | Some 2%Z => str "CIO"
  | Some 3%Z => str "CHRO"
  | Some 4%Z => str "L&D Dir"
  | Some 5%Z => str "Other"
  | Some _ => str "Other"
  end.

End SelectorHandlers.

(** ** The routes of a saved sequence (app/api/emails/[id]/route.ts) *)

Module EmailRoute.
Import Js Schemas Storage.
Local Open Scope string_scope.
Local Open Scope list_scope.

(** The JSON bodies the two handlers answer with. *)
Inductive payload : Type :=
| ErrorPayload (error : jsstring)
| EmailPayload (email : SavedEmail)
| DeletedPayload (success : bool) (id : jsstring).

Record response : Type := {
  status : nat;
  json : payload
}.

(** [!id] for a string. *)
Definition missing (i : jsstring) : bool :=
  match i with [] => true | _ :: _ => false end.

Definition GET (i : jsstring) (store : emailStore) : response :=
  if missing i then {| status := 400; json := ErrorPayload (str "Missing email ID") |}
  else
    match getEmail i store with
    | None => {| status := 404; json := ErrorPayload (str "Email not found") |}
    | Some email => {| status := 200; json := EmailPayload email |}
    end.

Definition DELETE (i : jsstring) (store : emailStore) : response * emailStore :=
  if missing i
  then ({| status := 400; json := ErrorPayload (str "Missing email ID") |}, store)
  else
    let (deleted, store') := deleteEmail i store in
    if negb deleted
    then ({| status := 404; json := ErrorPayload (str "Email not found") |}, store')
    else ({| status := 200; json := DeletedPayload true i |}, store').

End EmailRoute.

(** ** The list route of the stored emails (app/api/emails/route.ts) *)

Module EmailListRoute.
Import Js Schemas Storage.
Local Open Scope string_scope.
Local Open Scope list_scope.

Inductive listPayload : Type :=
| ListError (error : jsstring)
| ListOk (emails : list SavedEmailMetadata).

Record listResponse : Type := {
  listStatus : nat;
  listJson : listPayload
}.

(** A digit of radix 10. *)
Definition isDigit (c : N) : bool := ((48 <=? c) && (c <=? 57))%N.

Fixpoint leadingDigits (s : jsstring) : jsstring :=
  match s with
  | c :: s' => if isDigit c then c :: leadingDigits s' else []
  | [] => []
  end.

(** The integer that a run of digits represents in radix 10. *)
Definition mathInt (digits : jsstring) : Z :=
  fold_left (fun a c => (10 * a + Z.of_N (c - 48))%Z) digits 0%Z.

Section Route.

(** [toNumber] is the Number value of a mathematical integer: the
    result of [parseInt] is a Number, which is the integer itself up to
    2^53 and the nearest Number beyond. *)
Variable toNumber : Z -> Z.

(** [parseInt(string, 10)]: leading whitespace is dropped, then a sign,
    then the digits up to the first code unit that is none are read;
    [None] is NaN, the result when there is no digit to read. *)
Definition parseInt (s : jsstring) : option Z :=
  let S := trimStart s in
  let sign := match S with
              | c :: _ => if (c =? 45)%N then (-1)%Z else 1%Z
              | [] => 1%Z
              end in
  let S := match S with
           | c :: rest => if ((c =? 43) || (c =? 45))%N then rest else S
           | [] => S
           end in
  match leadingDigits S with
  | [] => None
  | c :: digits => Some (toNumber (sign * mathInt (c :: digits)))
  end.

(** [accountIndexParam] is [url.searchParams.get('accountIndex')],
    [None] when the parameter is absent. *)
Definition GET (accountIndexParam : option jsstring) (store : emailStore)
    : listResponse :=
  match accountIndexParam with
  | Some param =>
      match parseInt param with
      | Some parsed =>
          if (parsed <? 1)%Z
          then {| listStatus := 400;
                  listJson := ListError (str "Invalid accountIndex parameter") |}
          else {| listStatus := 200;
                  listJson := ListOk (listEmails (Some parsed) store) |}
      | None => {| listStatus := 400;
                   listJson := ListError (str "Invalid accountIndex parameter") |}
      end
  | None => {| listStatus := 200; listJson := ListOk (listEmails None store) |}
  end.

End Route.

End EmailListRoute.

(** ** The prompt builder (lib/email-generator/prompts.ts) *)

Module Prompts.
Import Js EmailGenerator.
Local Open Scope string_scope.
Local Open Scope list_scope.

(** [contact.contact_id.split('-').pop() || 'A'] *)
Definition contactIdSuffix (contact_id : jsstring) : jsstring :=
  default (str "A") (truthyString (last (Js.split contact_id (str "-")))).

End Prompts.

(** ** Further auxiliary definitions for the proofs *)

Module MoreAuxiliary.
Import Js Regex Schemas Validator.
Local Open Scope string_scope.
Local Open Scope list_scope.

(** Patterns without [\b] and [^]: what they match does not depend on
    the text around. *)
Fixpoint contextFree (r : regex) : bool :=
  match r with
  | Bnd | Bol => false
  | Seq a b | Alt a b => contextFree a && contextFree b
  | Opt a | Cap a => contextFree a
  | Eps | Chr _ | Star _ | StarLazy _ => true
  end.

(** [st2] stands where [st1] stands, in a text that goes on with [b]. *)
Definition sim (b : jsstring) (st1 st2 : mstate) : Prop :=
  after st2 = after st1 ++ b.

(** [w] occurs in [s]. *)
Definition substring (w s : jsstring) : Prop :=
  exists a b, s = a ++ w ++ b.

(** The whole text a state is a position of. *)
Definition textOf (st : mstate) : jsstring := rev (before st) ++ after st.

(** What a state has captured comes from its text. *)
Definition capturedFromText (st : mstate) : Prop :=
  forall g, group1 st = Some g -> substring g (textOf st).

(** A text in which every maximal run of whitespace has given way to one
    dash.  [inRun] tells that the previous code unit was whitespace. *)
Fixpoint dashRuns (inRun : bool) (s : jsstring) : jsstring :=
  match s with
  | [] => []
  | c :: s' =>
      if isWhite c
      then (if inRun then dashRuns true s' else 45%N :: dashRuns true s')
      else c :: dashRuns false s'
  end.

(** Whether an email passes [validateEmail] on its own. *)
Definition passesEmail (email : EmailVariant) : bool :=
  match validateEmail email with
  | Normal r => passed r
  | Throw _ => false
  end.

(** The line separator of [hasValidSignature], and the texts without it. *)
Definition lf : jsstring := str (String (ascii_of_nat 10) EmptyString).

(** The texts in which the code unit [d] does not occur. *)
Definition lacks (d : N) (s : jsstring) : bool :=
  forallb (fun c => negb (c =? d)%N) s.

Definition noLineFeed (s : jsstring) : bool := lacks 10%N s.

End MoreAuxiliary.

(** ** The progress figures of the generator component
       (components/EmailGenerator.tsx) *)

Module Progress.
Import Js Types EmailGenerator.
Local Open Scope list_scope.

(** [statuses.filter(s => s.status === 'complete').length] *)
Definition completedCount (statuses : list GenerationStatus) : nat :=
  length (List.filter
            (fun s => match status s with Complete => true | _ => false end)
            statuses).

(** [statuses.filter(s => s.status === 'error').length] *)
Definition errorCount (statuses : list GenerationStatus) : nat :=
  length (List.filter
            (fun s => match status s with Error => true | _ => false end)
            statuses).

(** [statuses.find(s => s.status === 'generating')] *)
Definition currentlyGenerating (statuses : list GenerationStatus)
    : option GenerationStatus :=
  List.find (fun s => match status s with Generating => true | _ => false end)
    statuses.

(** A record whose generation is over. *)
Definition settled (s : GenerationStatus) : Prop :=
  status s = Complete \/ status s = Error.

End Progress.

Module MoreSamples.
Import Js Types Samples.
Local Open Scope string_scope.
Local Open Scope list_scope.

(** A manager whose title names no priority role but whose persona text
    does. *)
Definition managerWithPersona : ContactListItem :=
  contact "C-5" "Program Manager" "Works with the Director of Learning" 4.

End MoreSamples.

(** * Properties *)

(** ** The matcher on whitespace runs, and [countWords] *)

Section WordCount.
Import Js Regex Validator Reference Auxiliary.

Lemma starGreedy_total {A : Type} (p : N -> bool) (k : mstate -> option A) :
  (forall st, k st <> None) ->
  forall rest st, starGreedy p k rest st = k (skipRun p rest st).
Proof.
  intros Hk rest. induction rest as [|c rest IH]; intros st; simpl; [reflexivity|].
  destruct (p c); [|reflexivity].
  rewrite IH. destruct (k (skipRun p rest (advance c rest st))) eqn:E; [reflexivity|].
  exfalso. exact (Hk _ E).
Qed.

Lemma position_skipRun (p : N -> bool) (rest : jsstring) (st : mstate) :
  position (skipRun p rest st) = runLength p rest + position st.
Proof.
  revert st. induction rest as [|c rest IH]; intros st; simpl; [reflexivity|].
  destruct (p c); [|reflexivity].
  rewrite IH. unfold position, advance. simpl. lia.
Qed.

Lemma matchAt_ws1_white (pre rest : jsstring) (c : N) :
  isWhite c = true ->
  exists m, matchAt ws1 (MState pre (c :: rest) None None) = Some m /\
            length (matched m) = S (runLength isWhite rest).
Proof.
  intros Hc. unfold matchAt, ws1. cbn [rmatch after]. rewrite Hc.
  rewrite starGreedy_total by discriminate.
  eexists. split; [reflexivity|].
  cbn [matched]. rewrite length_rev, length_firstn.
  change (length (before ?x)) with (position x).
  cbn [after advance]. rewrite !position_skipRun.
  unfold position. simpl. lia.
Qed.

Lemma matchAt_ws1_other (pre rest : jsstring) (c : N) :
  isWhite c = false ->
  matchAt ws1 (MState pre (c :: rest) None None) = None.
Proof.
  intros Hc. unfold matchAt, ws1. cbn [rmatch after]. rewrite Hc. reflexivity.
Qed.

(** Splitting with [/\s+/] is splitting on maximal runs of whitespace. *)
Lemma splitFrom_ws1 (s : jsstring) :
  (forall pre cur, splitFrom ws1 pre cur 0 s = splitOnWhitespaceRuns cur false s) /\
  (forall pre, splitFrom ws1 pre [] (runLength isWhite s) s
               = splitOnWhitespaceRuns [] true s).
Proof.
  induction s as [|c s [IH0 IHk]]; [split; reflexivity|].
  assert (H0 : forall pre cur,
    splitFrom ws1 pre cur 0 (c :: s) = splitOnWhitespaceRuns cur false (c :: s)).
  { intros pre cur. cbn [splitFrom splitOnWhitespaceRuns].
    destruct (isWhite c) eqn:Hc.
    - destruct (matchAt_ws1_white pre s c Hc) as (m & -> & Hlen).
      rewrite Hlen. replace (S (runLength isWhite s) - 1) with (runLength isWhite s) by lia.
      rewrite IHk. reflexivity.
    - rewrite (matchAt_ws1_other pre s c Hc). apply IH0. }
  split; [exact H0|].
  intros pre. cbn [runLength]. destruct (isWhite c) eqn:Hc.
  - cbn [splitFrom splitOnWhitespaceRuns]. rewrite Hc. apply IHk.
  - rewrite H0. cbn [splitOnWhitespaceRuns]. rewrite Hc. reflexivity.
Qed.

Lemma tokens_inRun (s : jsstring) :
  List.filter nonEmpty (splitOnWhitespaceRuns [] true s)
  = List.filter nonEmpty (splitOnWhitespaceRuns [] false s).
Proof.
  destruct s as [|c s]; [reflexivity|]. simpl. destruct (isWhite c); reflexivity.
Qed.

Lemma tokenCount_trimStart (s : jsstring) :
  tokenCount (trimStart s) = tokenCount s.
Proof.
  unfold tokenCount. fold nonEmpty.
  induction s as [|c s IH]; [reflexivity|].
  cbn [trimStart splitOnWhitespaceRuns]. destruct (isWhite c) eqn:Hc.
  - rewrite IH. cbn [rev List.filter nonEmpty length Nat.ltb Nat.leb].
    rewrite tokens_inRun. reflexivity.
  - cbn [splitOnWhitespaceRuns]. rewrite Hc. reflexivity.
Qed.

Lemma tokens_white (ws cur : jsstring) (b : bool) :
  forallb isWhite ws = true -> (b = true -> cur = []) ->
  List.filter nonEmpty (splitOnWhitespaceRuns cur b ws)
  = List.filter nonEmpty [rev cur].
Proof.
  revert cur b. induction ws as [|w ws IH]; intros cur b Hws Hb; [reflexivity|].
  simpl in Hws. apply andb_true_iff in Hws as [Hw Hws].
  cbn [splitOnWhitespaceRuns]. rewrite Hw. destruct b.
  - rewrite (Hb eq_refl). apply IH; auto.
  - cbn [List.filter]. rewrite (IH [] true Hws (fun _ => eq_refl)).
    destruct (nonEmpty (rev cur)); reflexivity.
Qed.

Lemma tokens_app_white (t ws cur : jsstring) (b : bool) :
  forallb isWhite ws = true -> (b = true -> cur = []) ->
  List.filter nonEmpty (splitOnWhitespaceRuns cur b (t ++ ws))
  = List.filter nonEmpty (splitOnWhitespaceRuns cur b t).
Proof.
  intros Hws. revert cur b. induction t as [|c t IH]; intros cur b Hb.
  - simpl. apply tokens_white; assumption.
  - cbn [app splitOnWhitespaceRuns]. destruct (isWhite c), b.
    + apply IH. reflexivity.
    + cbn [List.filter]. rewrite IH by reflexivity. reflexivity.
    + apply IH. discriminate.
    + apply IH. discriminate.
Qed.

Lemma trimStart_decompose (t : jsstring) :
  exists ws, t = ws ++ trimStart t /\ forallb isWhite ws = true.
Proof.
  induction t as [|c t (ws & Ht & Hws)]; [exists []; split; reflexivity|].
  simpl. destruct (isWhite c) eqn:Hc.
  - exists (c :: ws). simpl. rewrite Hc, Hws. split; [congruence|reflexivity].
  - exists []. split; reflexivity.
Qed.

Lemma trimEnd_decompose (s : jsstring) :
  exists ws, s = trimEnd s ++ ws /\ forallb isWhite ws = true.
Proof.
  destruct (trimStart_decompose (rev s)) as (ws & Hs & Hws).
  exists (rev ws). split.
  - unfold trimEnd. rewrite <- rev_app_distr, <- Hs, rev_involutive. reflexivity.
  - rewrite forallb_forall in *. intros x Hx. apply Hws. now apply in_rev.
Qed.

Lemma tokenCount_trimEnd (s : jsstring) : tokenCount (trimEnd s) = tokenCount s.
Proof.
  destruct (trimEnd_decompose s) as (ws & Hs & Hws).
  unfold tokenCount. fold nonEmpty. rewrite Hs at 2.
  rewrite tokens_app_white; [reflexivity|assumption|discriminate].
Qed.

Lemma countWords_tokenCount (s : jsstring) : countWords s = tokenCount s.
Proof.
  unfold countWords, Regex.split.
  rewrite (proj1 (splitFrom_ws1 (trim s))).
  change (tokenCount (trim s) = tokenCount s).
  unfold trim. rewrite tokenCount_trimEnd. apply tokenCount_trimStart.
Qed.

(** C7. For every string [s], [countWords s] is the number of non-empty
    tokens obtained by splitting [s] on maximal runs of whitespace; in
    particular the count of "a  b<TAB>c" is 3, and the count of the empty
    string and of every whitespace-only string is 0. *)
Theorem countWords_counts_tokens (s : jsstring) :
  countWords s = tokenCount s /\
  countWords (str "a  b" ++ [9%N] ++ str "c") = 3 /\
  countWords [] = 0 /\
  (forallb isWhite s = true -> countWords s = 0).
Proof.
  split; [apply countWords_tokenCount|].
  split; [reflexivity|]. split; [reflexivity|].
  intros Hs. rewrite countWords_tokenCount. unfold tokenCount. fold nonEmpty.
  rewrite tokens_white; [reflexivity|assumption|discriminate].
Qed.

Lemma countWords_counts_tokens_witness :
  countWords [32%N; 9%N; 10%N; 160%N] = 0.
Proof.
  apply (countWords_counts_tokens [32%N; 9%N; 10%N; 160%N]). reflexivity.
Defined.

End WordCount.

(** ** Soundness of the matcher *)

Section MatcherFacts.
Import Js Regex Auxiliary.

Lemma starGreedy_sound {A : Type} (p : N -> bool) (k : mstate -> option A)
    (rest : jsstring) (st : mstate) (x : A) :
  starGreedy p k rest st = Some x ->
  exists st', starReach p rest st st' /\ k st' = Some x.
Proof.
  revert st. induction rest as [|c rest IH]; intros st; simpl.
  - intros H. exists st. split; [now left|assumption].
  - destruct (p c) eqn:Hp.
    + destruct (starGreedy p k rest (advance c rest st)) eqn:E.
      * intros [= <-]. destruct (IH _ E) as (st' & Hr & Hk).
        exists st'. split; [right; split; [reflexivity|assumption]|assumption].
      * intros H. exists st. split; [now left|assumption].
    + intros H. exists st. split; [now left|assumption].
Qed.

Lemma starLazy_sound {A : Type} (p : N -> bool) (k : mstate -> option A)
    (rest : jsstring) (st : mstate) (x : A) :
  starLazy p k rest st = Some x ->
  exists st', starReach p rest st st' /\ k st' = Some x.
Proof.
  revert st. induction rest as [|c rest IH]; intros st; simpl.
  - destruct (k st) eqn:E; [|discriminate].
    intros [= <-]. exists st. split; [now left|assumption].
  - destruct (k st) eqn:E.
    + intros [= <-]. exists st. split; [now left|assumption].
    + destruct (p c) eqn:Hp; [|discriminate].
      intros H. destruct (IH _ H) as (st' & Hr & Hk).
      exists st'. split; [right; split; [reflexivity|assumption]|assumption].
Qed.

(** A result of the matcher is a result of its continuation, at a state
    that the pattern reaches. *)
Lemma rmatch_sound {A : Type} (r : regex) :
  forall (k : mstate -> option A) (st : mstate) (x : A),
    rmatch r k st = Some x ->
    exists st', reach r st st' /\ k st' = Some x.
Proof.
  induction r as [|p|a IHa b IHb|a IHa b IHb|a IHa|p|p| | |a IHa];
    intros k st x; cbn [rmatch reach].
  - intros H. exists st. split; [reflexivity|assumption].
  - destruct (after st) as [|c rest] eqn:E; [discriminate|].
    destruct (p c) eqn:Hp; [|discriminate].
    intros H. eexists. split; [|exact H]. exists c, rest. auto.
  - intros H. destruct (IHa _ _ _ H) as (mid & Ha & Hb).
    destruct (IHb _ _ _ Hb) as (st' & Hb' & Hk).
    exists st'. split; [exists mid; split; assumption|assumption].
  - destruct (rmatch a k st) eqn:E.
    + intros [= <-]. destruct (IHa _ _ _ E) as (st' & Hr & Hk).
      exists st'. split; [now left|assumption].
    + intros H. destruct (IHb _ _ _ H) as (st' & Hr & Hk).
      exists st'. split; [now right|assumption].
  - destruct (rmatch a k st) eqn:E.
    + intros [= <-]. destruct (IHa _ _ _ E) as (st' & Hr & Hk).
      exists st'. split; [now left|assumption].
    + intros H. exists st. split; [now right|assumption].
  - apply starGreedy_sound.
  - apply starLazy_sound.
  - destruct (isWordBoundary st) eqn:E; [|discriminate].
    intros H. exists st. auto.
  - destruct (before st) eqn:E; [|discriminate].
    intros H. exists st. auto.
  - intros H. destruct (IHa _ _ _ H) as (mid & Hr & Hk).
    exists (closeGroup mid). split; [exists mid; split; [assumption|reflexivity]|assumption].
Qed.

(** A match that starts at a state is indexed by its position. *)
Lemma matchAt_index (r : regex) (st : mstate) (m : result) :
  matchAt r st = Some m -> index m = position st.
Proof.
  unfold matchAt. intros H. apply rmatch_sound in H as (st' & _ & [= <-]).
  reflexivity.
Qed.

(** What a literal run reaches: the same letters, consumed. *)
Lemma reach_units (l : jsstring) : l <> [] ->
  forall st st', reach (units l) st st' ->
  exists w rest, after st = w ++ rest /\ Forall2 sameLetter w l /\
                 before st' = rev w ++ before st /\ after st' = rest /\
                 capStart st' = capStart st /\ group1 st' = group1 st.
Proof.
  induction l as [|c l IH]; [congruence|]. intros _ st st'.
  destruct l as [|c' l].
  - cbn [units unit reach]. intros (x & rest & Ha & Hx & ->).
    exists [x], rest. apply N.eqb_eq in Hx.
    repeat split; try assumption; try reflexivity.
    constructor; [exact Hx|constructor].
  - change (units (c :: c' :: l)) with (Seq (unit c) (units (c' :: l))).
    cbn [reach unit]. intros (mid & (x & rest & Ha & Hx & ->) & Hr).
    apply IH in Hr as (w & rest' & Ha' & Hw & Hb & Haf & Hc & Hg); [|discriminate].
    cbn [after advance before capStart group1] in *. subst rest.
    exists (x :: w), rest'. apply N.eqb_eq in Hx.
    repeat split; try assumption.
    + constructor; assumption.
    + rewrite Hb. cbn [rev]. now rewrite <- app_assoc.
Qed.

Lemma splitState_0 (pre s : jsstring) :
  splitState pre s 0 = MState pre s None None.
Proof. reflexivity. Qed.

Lemma splitState_S (pre s : jsstring) (c : N) (k : nat) :
  splitState pre (c :: s) (S k) = splitState (c :: pre) s k.
Proof.
  unfold splitState. cbn [firstn skipn rev]. now rewrite <- app_assoc.
Qed.

Lemma stateAt_splitState (s : jsstring) (p : nat) :
  Reference.stateAt s p = splitState [] s p.
Proof. unfold Reference.stateAt, splitState. now rewrite app_nil_r. Qed.

(** [searchFrom] finds the leftmost start at which the pattern matches. *)
Lemma searchFrom_leftmost (r : regex) (s : jsstring) :
  forall pre,
    match searchFrom r pre s with
    | Some m =>
        exists k, k <= length s /\ index m = length pre + k /\
                  matchAt r (splitState pre s k) = Some m /\
                  forall j, j < k -> matchAt r (splitState pre s j) = None
    | None => forall k, k <= length s -> matchAt r (splitState pre s k) = None
    end.
Proof.
  induction s as [|c s IH]; intros pre; cbn [searchFrom].
  - destruct (matchAt r (MState pre [] None None)) as [m|] eqn:E.
    + exists 0. rewrite splitState_0. repeat split; try lia; try assumption.
      apply matchAt_index in E. unfold position in E. simpl in E. lia.
    + intros k Hk. simpl in Hk. replace k with 0 by lia. exact E.
  - destruct (matchAt r (MState pre (c :: s) None None)) as [m|] eqn:E.
    + exists 0. rewrite splitState_0. repeat split; try lia; try assumption.
      apply matchAt_index in E. unfold position in E. simpl in E. lia.
    + specialize (IH (c :: pre)).
      destruct (searchFrom r (c :: pre) s) as [m|].
      * destruct IH as (k & Hk & Hi & Hm & Hlt).
        exists (S k). rewrite splitState_S. simpl in *.
        repeat split; try lia; try assumption.
        intros [|j] Hj; [exact E|]. rewrite splitState_S. apply Hlt. lia.
      * intros [|k] Hk; [exact E|]. rewrite splitState_S. apply IH. simpl in Hk. lia.
Qed.

(** What [exec] finds, in terms of the offsets at which the pattern
    occurs. *)
Lemma exec_Some (r : regex) (s : jsstring) (m : result) :
  exec r s = Some m ->
  Reference.occursAt r s (index m) = true /\
  forall y, y < index m -> Reference.occursAt r s y = false.
Proof.
  intros H. pose proof (searchFrom_leftmost r s []) as L.
  unfold exec in H. rewrite H in L. destruct L as (k & Hk & Hi & Hm & Hlt).
  simpl in Hi. subst k. unfold Reference.occursAt. split.
  - rewrite stateAt_splitState, Hm. apply Nat.leb_le in Hk. now rewrite Hk.
  - intros y Hy. rewrite stateAt_splitState, (Hlt y Hy). apply andb_false_r.
Qed.

Lemma exec_None (r : regex) (s : jsstring) :
  exec r s = None -> forall y, Reference.occursAt r s y = false.
Proof.
  intros H y. pose proof (searchFrom_leftmost r s []) as L.
  unfold exec in H. rewrite H in L. unfold Reference.occursAt.
  destruct (y <=? length s) eqn:E; [|reflexivity].
  apply Nat.leb_le in E. now rewrite stateAt_splitState, (L y E).
Qed.

Lemma test_false (r : regex) (s : jsstring) :
  test r s = false <-> forall y, Reference.occursAt r s y = false.
Proof.
  unfold test. destruct (exec r s) as [m|] eqn:E.
  - split; [discriminate|]. intros H.
    apply exec_Some in E as [E _]. rewrite H in E. discriminate.
  - split; [|reflexivity]. intros _. now apply exec_None.
Qed.

End MatcherFacts.

(** ** The shape of what [validateEmail] returns *)

Section ValidateEmail.
Import Js Regex Schemas Validator Auxiliary.
Local Open Scope string_scope.
Local Open Scope list_scope.

Lemma recordCheck_eq (key : jsstring) (value : bool) (failure : jsstring)
    (fixes : list jsstring) (a : acc) :
  recordCheck key value failure fixes a
  = Acc (<[key := value]> (accChecks a))
        (accFailures a ++ (if value then [] else [failure]))
        (accSuggestions a ++ (if value then [] else fixes)).
Proof.
  unfold recordCheck, isSet. rewrite lookup_insert_eq. simpl.
  destruct value; simpl; rewrite ?app_nil_r; reflexivity.
Qed.

Lemma splitLoop_nonempty (sep cur : jsstring) (skip : nat) (s : jsstring) :
  Js.splitLoop sep cur skip s <> [].
Proof.
  revert cur skip. induction s as [|c s IH]; intros cur skip; simpl; [discriminate|].
  destruct skip; [|apply IH].
  destruct (match sep with [] => true | x :: p' => (x =? c)%N && startsWith s p' end);
    [discriminate|apply IH].
Qed.

(** The last line of a text is always there to be read. *)
Lemma hasValidSignature_returns (text : jsstring) :
  exists b, hasValidSignature text = Normal b.
Proof.
  unfold hasValidSignature, Js.split.
  pose proof (splitLoop_nonempty (str (String (ascii_of_nat 10) EmptyString)) [] 0
                (trim text)) as Hne.
  destruct (Js.splitLoop _ [] 0 (trim text)) as [|l ls] eqn:E; [congruence|].
  destruct (lookup_lt_is_Some_2 (l :: ls) (length (l :: ls) - 1)) as [x Hx];
    [simpl; lia|].
  rewrite Hx. eexists. reflexivity.
Qed.

(** [validateEmail] is the run of its nine checks. *)
Lemma validateEmail_run (email : EmailVariant) (signed : bool) :
  hasValidSignature (body email) = Normal signed ->
  validateEmail email = Normal (resultOf (runChecks (checkItems email signed) (Acc ∅ [] []))).
Proof.
  intros Hs. unfold validateEmail. rewrite Hs.
  cbv beta iota zeta delta [runChecks checkItems fold_left fst snd resultOf
    mbind completion_bind mret completion_ret].
  reflexivity.
Qed.

Lemma runChecks_failures items (a : acc) :
  accFailures (runChecks items a)
  = accFailures a ++ List.map (fun it => it.1.2)
                       (List.filter (fun it => negb it.1.1.2) items).
Proof.
  revert a. induction items as [|it items IH]; intros a; simpl.
  - now rewrite app_nil_r.
  - unfold runChecks in *. simpl. rewrite IH, recordCheck_eq. simpl.
    destruct (it.1.1.2); simpl; rewrite <- app_assoc; reflexivity.
Qed.

Lemma runChecks_suggestions items (a : acc) :
  accSuggestions (runChecks items a)
  = accSuggestions a ++ concat (List.map (fun it => it.2)
                                  (List.filter (fun it => negb it.1.1.2) items)).
Proof.
  revert a. induction items as [|it items IH]; intros a; simpl.
  - now rewrite app_nil_r.
  - unfold runChecks in *. simpl. rewrite IH, recordCheck_eq. simpl.
    destruct (it.1.1.2); simpl; rewrite <- app_assoc; reflexivity.
Qed.

Lemma runChecks_lookup_other items (a : acc) (k : jsstring) :
  ~ In k (List.map (fun it => it.1.1.1) items) ->
  accChecks (runChecks items a) !! k = accChecks a !! k.
Proof.
  revert a. induction items as [|it items IH]; intros a Hk; [reflexivity|].
  unfold runChecks in *. simpl in *. rewrite IH by tauto.
  rewrite recordCheck_eq. simpl. apply lookup_insert_ne. tauto.
Qed.

Lemma runChecks_lookup items (a : acc) it :
  List.NoDup (List.map (fun it => it.1.1.1) items) -> In it items ->
  accChecks (runChecks items a) !! it.1.1.1 = Some it.1.1.2.
Proof.
  revert a. induction items as [|it0 items IH]; intros a Hnd Hin; [destruct Hin|].
  simpl in Hnd. apply List.NoDup_cons_iff in Hnd as [Hfresh Hnd].
  destruct Hin as [->|Hin].
  - change (runChecks (it :: items) a)
      with (runChecks items (recordCheck it.1.1.1 it.1.1.2 it.1.2 it.2 a)).
    rewrite runChecks_lookup_other by assumption.
    rewrite recordCheck_eq. simpl. apply lookup_insert_eq.
  - change (runChecks (it0 :: items) a)
      with (runChecks items (recordCheck it0.1.1.1 it0.1.1.2 it0.1.2 it0.2 a)).
    apply IH; assumption.
Qed.

Lemma runChecks_dom items (a : acc) :
  dom (accChecks (runChecks items a))
  = list_to_set (List.map (fun it => it.1.1.1) items) ∪ dom (accChecks a).
Proof.
  revert a. induction items as [|it items IH]; intros a.
  - simpl. set_solver.
  - change (runChecks (it :: items) a)
      with (runChecks items (recordCheck it.1.1.1 it.1.1.2 it.1.2 it.2 a)).
    rewrite IH, recordCheck_eq. simpl. rewrite dom_insert_L. set_solver.
Qed.

Lemma checkItems_names (email : EmailVariant) (signed : bool) :
  List.map (fun it => it.1.1.1) (checkItems email signed) = Reference.checkNames.
Proof. reflexivity. Qed.

Lemma checkNames_NoDup : List.NoDup Reference.checkNames.
Proof. apply NoDup_ListNoDup, (bool_decide_unpack _). vm_compute. exact I. Qed.

(** [validateEmail] always returns. *)
Lemma validateEmail_returns (email : EmailVariant) :
  exists signed,
    hasValidSignature (body email) = Normal signed /\
    validateEmail email
    = Normal (resultOf (runChecks (checkItems email signed) (Acc ∅ [] []))).
Proof.
  destruct (hasValidSignature_returns (body email)) as [signed Hs].
  exists signed. split; [assumption|]. now apply validateEmail_run.
Qed.

Lemma failures_empty_iff items :
  List.map (fun it : jsstring * bool * jsstring * list jsstring => it.1.2)
    (List.filter (fun it => negb it.1.1.2) items) = []
  <-> forall it, In it items -> it.1.1.2 = true.
Proof.
  induction items as [|it items IH]; simpl.
  - split; [intros _ ? []|reflexivity].
  - destruct (it.1.1.2) eqn:E; simpl.
    + rewrite IH. split.
      * intros H x [<-|Hx]; [assumption|now apply H].
      * intros H x Hx. apply H. now right.
    + split; [discriminate|]. intros H. specialize (H it (or_introl eq_refl)). congruence.
Qed.

(** C10. For every email, [validateEmail] returns a result (it does not
    throw) whose checks map has exactly the nine keys word_count_valid,
    contractions_used, klas_intro_valid, we_timing_valid, cta_valid,
    warmth_phrase_valid, no_banned_phrases, signature_valid and
    subject_valid; [passed] is true exactly when the failures list is
    empty, which is exactly when every one of the nine check values is
    true. *)
Theorem validateEmail_checks_and_verdict (email : EmailVariant) :
  exists r, validateEmail email = Normal r /\
    dom (checks r) = list_to_set Reference.checkNames /\
    length Reference.checkNames = 9 /\
    List.NoDup Reference.checkNames /\
    (passed r = true <-> failures r = []) /\
    (failures r = [] <->
     forall k, In k Reference.checkNames -> checks r !! k = Some true).
Proof.
  destruct (validateEmail_returns email) as (signed & _ & Hr).
  eexists. split; [exact Hr|].
  pose proof checkNames_NoDup as Hnd.
  unfold resultOf. cbn [passed checks failures].
  split; [|split; [reflexivity|split; [exact Hnd|split]]].
  - rewrite runChecks_dom, checkItems_names. cbn [accChecks]. set_solver.
  - rewrite Nat.eqb_eq. apply length_zero_iff_nil.
  - rewrite runChecks_failures. cbn [accFailures app].
    rewrite failures_empty_iff. rewrite <- (checkItems_names email signed) in *.
    split.
    + intros H k Hk. apply in_map_iff in Hk as (it & <- & Hit).
      rewrite runChecks_lookup by assumption. f_equal. now apply H.
    + intros H it Hit.
      specialize (H it.1.1.1 (in_map (fun it => it.1.1.1) _ _ Hit)).
      rewrite runChecks_lookup in H by assumption. congruence.
Qed.

(** C2, as the code has it.  For every email whose body has a number of
    words [n] ([countWords] of the body, not the [word_count] field)
    outside 150..200, [validateEmail] returns a result whose check
    word_count_valid is false, whose failures list contains
    "Word count n outside range 150-200", and whose suggestions list
    contains the message naming the exact shortfall [150 - n] or the
    exact excess [n - 200]. *)
Theorem validateEmail_word_count_bounds (email : EmailVariant) :
  (countWords (body email) < 150 \/ 200 < countWords (body email)) ->
  exists r, validateEmail email = Normal r /\
    checks r !! str "word_count_valid" = Some false /\
    In (str "Word count " ++ ofNat (countWords (body email))
          ++ str " outside range 150-200") (failures r) /\
    (countWords (body email) < 150 ->
     In (str "Add " ++ ofNat (150 - countWords (body email))
           ++ str " more words to meet minimum") (suggestions r)) /\
    (200 < countWords (body email) ->
     In (str "Remove " ++ ofNat (countWords (body email) - 200)
           ++ str " words to meet maximum") (suggestions r)).
Proof.
  intros Hn.
  destruct (validateEmail_returns email) as (signed & _ & Hr).
  eexists. split; [exact Hr|].
  unfold resultOf. cbn [checks failures suggestions].
  pose proof checkNames_NoDup as Hnd. rewrite <- (checkItems_names email signed) in Hnd.
  remember (checkItems email signed) as items eqn:Hitems.
  assert (Hin : In (str "word_count_valid",
             (150 <=? countWords (body email))%nat && (countWords (body email) <=? 200)%nat,
             str "Word count " ++ ofNat (countWords (body email))
               ++ str " outside range 150-200",
             [if (countWords (body email) <? 150)%nat
              then str "Add " ++ ofNat (150 - countWords (body email))
                     ++ str " more words to meet minimum"
              else str "Remove " ++ ofNat (countWords (body email) - 200)
                     ++ str " words to meet maximum"]) items).
  { subst items. left. reflexivity. }
  assert (Hv : (150 <=? countWords (body email))%nat
               && (countWords (body email) <=? 200)%nat = false).
  { apply andb_false_iff. rewrite !Nat.leb_gt. lia. }
  pose proof (runChecks_lookup items (Acc ∅ [] []) _ Hnd Hin) as Hl.
  cbn [fst snd] in Hl. rewrite Hv in Hl.
  split; [exact Hl|].
  rewrite runChecks_failures, runChecks_suggestions. cbn [accFailures accSuggestions app].
  assert (Hf : In (str "word_count_valid",
             (150 <=? countWords (body email))%nat && (countWords (body email) <=? 200)%nat,
             str "Word count " ++ ofNat (countWords (body email))
               ++ str " outside range 150-200",
             [if (countWords (body email) <? 150)%nat
              then str "Add " ++ ofNat (150 - countWords (body email))
                     ++ str " more words to meet minimum"
              else str "Remove " ++ ofNat (countWords (body email) - 200)
                     ++ str " words to meet maximum"])
            (List.filter (fun it => negb it.1.1.2) items)).
  { apply filter_In. split; [exact Hin|]. cbn [fst snd]. now rewrite Hv. }
  split; [|split].
  - apply in_map_iff. eexists. split; [|exact Hf]. reflexivity.
  - intros Hlt. apply in_concat. eexists. split.
    + apply in_map_iff. eexists. split; [|exact Hf]. reflexivity.
    + cbn [snd]. apply Nat.ltb_lt in Hlt. rewrite Hlt. now left.
  - intros Hgt. apply in_concat. eexists. split.
    + apply in_map_iff. eexists. split; [|exact Hf]. reflexivity.
    + cbn [snd]. assert (Hge : (countWords (body email) <? 150)%nat = false)
        by (apply Nat.ltb_ge; lia).
      rewrite Hge. now left.
Qed.

End ValidateEmail.

(** ** [validateSequence] *)

Section ValidateSequence.
Import Js Regex Schemas Validator Auxiliary.
Local Open Scope string_scope.
Local Open Scope list_scope.

(** An email that passes adds no failure. *)
Lemma sequenceStep_passed (a : acc) (email : EmailVariant) (r : ValidationResult) :
  validateEmail email = Normal r -> passed r = true ->
  exists cs, sequenceStep a email = Normal (Acc cs (accFailures a) (accSuggestions a)).
Proof.
  intros Hr Hp. unfold sequenceStep. rewrite Hr.
  cbn [mbind completion_bind]. rewrite Hp. cbn [negb].
  eexists. reflexivity.
Qed.

(** Every step returns, and only adds to the failures. *)
Lemma sequenceStep_extends (a : acc) (email : EmailVariant) :
  exists a' extra, sequenceStep a email = Normal a' /\
                   accFailures a' = accFailures a ++ extra.
Proof.
  destruct (validateEmail_returns email) as (signed & _ & Hr).
  unfold sequenceStep. rewrite Hr. cbn [mbind completion_bind].
  destruct (negb _).
  - eexists. eexists. split; [reflexivity|]. reflexivity.
  - eexists. exists []. split; [reflexivity|]. cbn [accFailures]. now rewrite app_nil_r.
Qed.

Lemma sequenceLoop_extends (emails : EmailSequence) (a : acc) :
  exists a' extra, sequenceLoop a emails = Normal a' /\
                   accFailures a' = accFailures a ++ extra.
Proof.
  revert a. induction emails as [|email emails IH]; intros a.
  - exists a, []. split; [reflexivity|]. now rewrite app_nil_r.
  - destruct (sequenceStep_extends a email) as (a1 & x1 & H1 & F1).
    destruct (IH a1) as (a2 & x2 & H2 & F2).
    exists a2, (x1 ++ x2). cbn [sequenceLoop]. rewrite H1. cbn [mbind completion_bind].
    split; [exact H2|]. rewrite F2, F1. now rewrite app_assoc.
Qed.

Lemma sequenceLoop_passed (emails : EmailSequence) (a : acc) :
  (forall e, In e emails ->
     exists r, validateEmail e = Normal r /\ passed r = true) ->
  exists cs, sequenceLoop a emails = Normal (Acc cs (accFailures a) (accSuggestions a)).
Proof.
  revert a. induction emails as [|email emails IH]; intros a Hall.
  - destruct a. eexists. reflexivity.
  - destruct (Hall email (or_introl eq_refl)) as (r & Hr & Hp).
    destruct (sequenceStep_passed a email r Hr Hp) as (cs & Hs).
    cbn [sequenceLoop]. rewrite Hs. cbn [mbind completion_bind].
    destruct (IH (Acc cs (accFailures a) (accSuggestions a))) as (cs' & Hl).
    + intros e He. apply Hall. now right.
    + exists cs'. exact Hl.
Qed.

(** C5. For three emails whose angle tags are timing, challenge, outcome
    and of which each passes [validateEmail], [validateSequence] returns
    [passed = true]; for the same three emails reordered so that the tags
    read challenge, timing, outcome it returns [passed = false] with the
    angle-order failure message among the failures, whether or not the
    emails pass individually. *)
Theorem validateSequence_angle_order (e1 e2 e3 : EmailVariant) :
  angle e1 = timing -> angle e2 = challenge -> angle e3 = outcome ->
  ((forall e, In e [e1; e2; e3] ->
      exists r, validateEmail e = Normal r /\ passed r = true) ->
   exists r, validateSequence [e1; e2; e3] = Normal r /\ passed r = true) /\
  (exists r, validateSequence [e2; e1; e3] = Normal r /\ passed r = false /\
     In (str "Angle order incorrect: expected timing->challenge->outcome, got challenge->timing->outcome")
        (failures r)).
Proof.
  intros A1 A2 A3. split.
  - intros Hall. unfold validateSequence.
    cbn [length Nat.eqb negb List.map]. rewrite A1, A2, A3.
    change (everyFrom 0 [angleName timing; angleName challenge; angleName outcome])
      with true.
    cbn [negb accChecks accFailures accSuggestions].
    destruct (sequenceLoop_passed [e1; e2; e3]
                (Acc (<[str "angle_order_valid" := true]> ∅) [] []) Hall) as (cs & Hl).
    cbn [accFailures accSuggestions] in Hl. rewrite Hl.
    cbn [mbind completion_bind mret completion_ret accFailures].
    eexists. split; reflexivity.
  - unfold validateSequence.
    cbn [length Nat.eqb negb List.map]. rewrite A1, A2, A3.
    change (everyFrom 0 [angleName challenge; angleName timing; angleName outcome])
      with false.
    cbn [negb accChecks accFailures accSuggestions app].
    match goal with
    | |- context [sequenceLoop ?a ?es] =>
        destruct (sequenceLoop_extends es a) as (a' & extra & Hl & Hf)
    end.
    rewrite Hl. cbn [mbind completion_bind mret completion_ret].
    cbn [accFailures] in Hf.
    eexists. split; [reflexivity|]. cbn [passed failures]. rewrite Hf.
    split; [reflexivity|]. left. reflexivity.
Qed.

End ValidateSequence.

Section ValidateEmailSamples.
Import Js Regex Schemas Validator Auxiliary Samples.
Local Open Scope string_scope.
Local Open Scope list_scope.

Lemma validateEmail_word_count_bounds_witness :
  exists r, validateEmail shortEmail = Normal r /\
    checks r !! str "word_count_valid" = Some false /\
    In (str "Word count 2 outside range 150-200") (failures r) /\
    In (str "Add 148 more words to meet minimum") (suggestions r).
Proof.
  destruct (validateEmail_word_count_bounds shortEmail) as (r & Hr & Hc & Hf & Hs & _).
  - left. vm_compute. lia.
  - exists r. split; [exact Hr|]. split; [exact Hc|]. split; [exact Hf|].
    apply Hs. vm_compute. lia.
Defined.

(** C2, as stated, fails.  The [word_count] field of [miscountedEmail]
    is 10, outside 150..200, yet its check word_count_valid is true and
    nothing is reported, because the words of the body are counted; and
    for [shortEmail] the failures list names the count, not the
    shortfall, which only the suggestions name. *)
Lemma word_count_field_not_read :
  (word_count miscountedEmail < 150)%Z /\
  (exists r, validateEmail miscountedEmail = Normal r /\
     checks r !! str "word_count_valid" = Some true /\ failures r = []) /\
  (exists r, validateEmail shortEmail = Normal r /\
     failures r = [str "Word count 2 outside range 150-200"] /\
     suggestions r = [str "Add 148 more words to meet minimum"]).
Proof.
  split; [reflexivity|]. split.
  - eexists. split; [vm_compute; reflexivity|]. split; vm_compute; reflexivity.
  - eexists. split; [vm_compute; reflexivity|]. split; vm_compute; reflexivity.
Qed.

Lemma validateSequence_angle_order_witness :
  (exists r, validateSequence [email1; email2; email3] = Normal r /\ passed r = true) /\
  (exists r, validateSequence [email2; email1; email3] = Normal r /\ passed r = false).
Proof.
  destruct (validateSequence_angle_order email1 email2 email3 eq_refl eq_refl eq_refl)
    as [Hok (r & Hr & Hp & _)].
  split.
  - apply Hok. intros e [<-|[<-|[<-|[]]]];
      (eexists; split; [vm_compute; reflexivity|reflexivity]).
  - exists r. split; assumption.
Defined.

End ValidateEmailSamples.

(** ** The pronoun-timing rule *)

Section WeTiming.
Import Js Regex Validator Reference Auxiliary.
Local Open Scope string_scope.
Local Open Scope list_scope.

(** The successive matches of a pattern with the [g] flag are its
    occurrences, when no occurrence can start inside another: here, when
    every match starts with a code unit of the class [start] and holds
    no other such code unit. *)
Section Successive.
Variable r : regex.
Variable start : N -> bool.

Hypothesis match_shape : forall pre s m,
  matchAt r (MState pre s None None) = Some m ->
  exists c w rest, s = c :: w ++ rest /\ length (matched m) = S (length w) /\
                   start c = true /\ forallb (fun x => negb (start x)) w = true.

Lemma execAllFrom_occurrences (s : jsstring) :
  forall pre skip p,
    skip <= length s ->
    forallb (fun x => negb (start x)) (firstn skip s) = true ->
    (In p (List.map index (execAllFrom r pre skip s)) <->
     exists k, k <= length s /\ p = length pre + k /\
               matchAt r (splitState pre s k) <> None).
Proof.
  induction s as [|c s IH]; intros pre skip p Hskip Hfirst.
  - simpl in Hskip. replace skip with 0 by lia. cbn [execAllFrom].
    destruct (matchAt r (MState pre [] None None)) as [m|] eqn:E.
    + apply match_shape in E as (c & w & rest & Hs & _). discriminate.
    + cbn [List.map In]. split; [intros []|].
      intros (k & Hk & _ & Hm). simpl in Hk. replace k with 0 in Hm by lia.
      now rewrite splitState_0 in Hm.
  - assert (Hcons : forall skip',
        skip' <= length s ->
        forallb (fun x => negb (start x)) (firstn skip' s) = true ->
        (In p (List.map index (execAllFrom r (c :: pre) skip' s)) <->
         exists k, k <= length (c :: s) /\ p = length pre + k /\ k <> 0 /\
                   matchAt r (splitState pre (c :: s) k) <> None)).
    { intros skip' Hs' Hf'. rewrite (IH (c :: pre) skip' p Hs' Hf'). split.
      - intros (k & Hk & Hp & Hm). exists (S k). rewrite splitState_S.
        simpl in *. repeat split; try lia; assumption.
      - intros ([|k] & Hk & Hp & Hnz & Hm); [congruence|].
        rewrite splitState_S in Hm. exists k. simpl in *.
        repeat split; try lia; assumption. }
    destruct skip as [|skip].
    + cbn [execAllFrom].
      destruct (matchAt r (MState pre (c :: s) None None)) as [m|] eqn:E.
      * pose proof (matchAt_index _ _ _ E) as Hi. unfold position in Hi. simpl in Hi.
        destruct (match_shape _ _ _ E) as (c0 & w & rest & Hs & Hlen & _ & Hw).
        injection Hs as <- ->. rewrite Hlen.
        replace (S (length w) - 1) with (length w) by lia.
        cbn [List.map In]. rewrite Hcons.
        -- split.
           ++ intros [Hp|(k & Hk & Hp & _ & Hm)].
              ** exists 0. rewrite splitState_0, E. simpl.
                 repeat split; try lia. discriminate.
              ** exists k. auto.
           ++ intros ([|k] & Hk & Hp & Hm).
              ** left. lia.
              ** right. exists (S k). repeat split; try assumption. discriminate.
        -- rewrite length_app. lia.
        -- rewrite firstn_app, Nat.sub_diag, firstn_all. simpl.
           now rewrite app_nil_r.
      * rewrite Hcons; [|lia|reflexivity]. split.
        -- intros (k & Hk & Hp & _ & Hm). exists k. auto.
        -- intros ([|k] & Hk & Hp & Hm).
           ++ now rewrite splitState_0 in Hm.
           ++ exists (S k). repeat split; try assumption. discriminate.
    + cbn [execAllFrom]. cbn [firstn forallb] in Hfirst.
      apply andb_true_iff in Hfirst as [Hc Hfirst]. simpl in Hskip.
      rewrite Hcons; [|lia|assumption]. split.
      * intros (k & Hk & Hp & _ & Hm). exists k. auto.
      * intros ([|k] & Hk & Hp & Hm).
        -- rewrite splitState_0 in Hm.
           destruct (matchAt r (MState pre (c :: s) None None)) as [m|] eqn:E;
             [|congruence].
           apply match_shape in E as (c0 & w & rest & Hs & _ & Hst & _).
           injection Hs as <- _. rewrite Hst in Hc. discriminate.
        -- exists (S k). repeat split; try assumption. discriminate.
Qed.

Lemma execAll_occurrences (s : jsstring) (p : nat) :
  In p (List.map index (execAll r s)) <-> occursAt r s p = true.
Proof.
  unfold execAll. rewrite (execAllFrom_occurrences s [] 0 p); [|lia|reflexivity].
  unfold occursAt. rewrite stateAt_splitState. split.
  - intros (k & Hk & -> & Hm). simpl. apply Nat.leb_le in Hk. rewrite Hk.
    destruct (matchAt r (splitState [] s k)); [reflexivity|congruence].
  - intros H. apply andb_true_iff in H as [Hk Hm]. apply Nat.leb_le in Hk.
    exists p. repeat split; [assumption|].
    destruct (matchAt r (splitState [] s p)); [discriminate|discriminate].
Qed.

End Successive.

Lemma closeGroup_text (st : mstate) :
  before (closeGroup st) = before st /\ after (closeGroup st) = after st.
Proof. unfold closeGroup. destruct (capStart st); split; reflexivity. Qed.

(** A text with the letters of a pronoun starts with w or o and holds no
    other w or o. *)
Lemma pronoun_letters (w word : jsstring) :
  In word pronouns -> Forall2 sameLetter w word ->
  exists c w', w = c :: w' /\ startsPronoun c = true /\
               forallb (fun x => negb (startsPronoun x)) w' = true.
Proof.
  intros Hin Hw. unfold pronouns in Hin. cbn [List.map In] in Hin.
  destruct Hin as [<-|[<-|[<-|[<-|[<-|[]]]]]];
    cbv [str list_ascii_of_string List.map N_of_ascii N_of_digits] in Hw;
    repeat match goal with
           | H : Forall2 _ _ (_ :: _) |- _ => inversion H; subst; clear H
           | H : Forall2 _ _ [] |- _ => inversion H; subst; clear H
           end;
    unfold sameLetter in *;
    eexists; eexists; (split; [reflexivity|]);
    cbn [forallb]; unfold startsPronoun;
    repeat match goal with H : canon _ = _ |- _ => rewrite H; clear H end;
    split; reflexivity.
Qed.

Lemma wePattern_reach (st st' : mstate) :
  reach wePattern st st' ->
  exists word w rest, In word pronouns /\ after st = w ++ rest /\
                      Forall2 sameLetter w word /\
                      before st' = rev w ++ before st.
Proof.
  unfold wePattern. cbn [seqs alts reach].
  intros (mid1 & (_ & ->) & mid2 & (mid & Halt & ->) & (_ & ->)).
  destruct (closeGroup_text mid) as [-> _].
  assert (Hlit : forall word, In word pronouns -> reach (units word) (openGroup st) mid ->
            exists word w rest, In word pronouns /\ after st = w ++ rest /\
                                Forall2 sameLetter w word /\
                                before mid = rev w ++ before st).
  { intros word Hin Hr. apply reach_units in Hr as (w & rest & Ha & Hw & Hb & _).
    - exists word, w, rest. auto.
    - unfold pronouns in Hin. cbn [List.map In] in Hin.
      destruct Hin as [<-|[<-|[<-|[<-|[<-|[]]]]]]; discriminate. }
  unfold lit in Halt.
  destruct Halt as [H|[H|[H|[H|H]]]];
    (eapply Hlit; [|exact H]); unfold pronouns; cbn [List.map In]; tauto.
Qed.

(** A match of the pronoun pattern is one of the five pronouns, in
    either case. *)
Lemma wePattern_shape (pre s : jsstring) (m : result) :
  matchAt wePattern (MState pre s None None) = Some m ->
  exists c w rest, s = c :: w ++ rest /\ length (matched m) = S (length w) /\
                   startsPronoun c = true /\
                   forallb (fun x => negb (startsPronoun x)) w = true.
Proof.
  unfold matchAt. intros H.
  apply rmatch_sound in H as (st' & Hr & [= <-]).
  apply wePattern_reach in Hr as (word & w & rest & Hin & Ha & Hw & Hb).
  cbn [after before] in *.
  destruct (pronoun_letters w word Hin Hw) as (c & w' & -> & Hc & Hw').
  exists c, w', rest. split; [exact Ha|]. split; [|split; assumption].
  cbn [matched]. rewrite length_rev, length_firstn.
  unfold position. rewrite Hb. cbn [before].
  rewrite length_app, length_rev. simpl. lia.
Qed.

(** The [while] loop returns false exactly when some match comes with no
    introduction before it. *)
Lemma weLoop_false (classPosition : Z) (ms : list result) :
  weLoop classPosition ms = false <->
  exists y, In y (List.map index ms) /\
            (classPosition = (-1)%Z \/ (Z.of_nat y < classPosition)%Z).
Proof.
  induction ms as [|m ms IH]; cbn [weLoop List.map In].
  - split; [discriminate|]. intros (y & [] & _).
  - destruct ((classPosition =? -1)%Z || (Z.of_nat (index m) <? classPosition)%Z) eqn:E.
    + split; [|reflexivity]. intros _. exists (index m). split; [now left|].
      apply orb_true_iff in E as [E|E]; [left; lia|right; lia].
    + rewrite IH. apply orb_false_iff in E as [E1 E2]. split.
      * intros (y & Hy & Hc). exists y. split; [now right|assumption].
      * intros (y & [<-|Hy] & Hc); [lia|]. exists y. auto.
Qed.

(** The loop over the introduction patterns: -1 when none matches,
    otherwise the least index of a first match. *)
Lemma classPosition_fold (text : jsstring) (rs : list regex) :
  forall acc : Z, (acc = -1 \/ 0 <= acc)%Z ->
    let res := fold_left (classPositionStep text) rs acc in
    (res = (-1)%Z <-> acc = (-1)%Z /\ forall r, In r rs -> exec r text = None) /\
    ((0 <= res)%Z ->
       (res = acc \/ exists r m, In r rs /\ exec r text = Some m /\
                                 res = Z.of_nat (index m)) /\
       ((0 <= acc)%Z -> (res <= acc)%Z) /\
       (forall r m, In r rs -> exec r text = Some m -> (res <= Z.of_nat (index m))%Z)) /\
    (res = -1 \/ 0 <= res)%Z.
Proof.
  induction rs as [|r rs IH]; intros acc Hacc; cbn [fold_left].
  - cbn zeta. split; [|split; [|assumption]].
    + split; [intros ->; split; [reflexivity|intros ? []]|tauto].
    + intros _. split; [now left|]. split; [lia|]. intros ? ? [].
  - specialize (IH (classPositionStep text acc r)). cbn zeta in *.
    assert (Hstep : (classPositionStep text acc r = -1 \/
                     0 <= classPositionStep text acc r)%Z).
    { unfold classPositionStep. destruct (exec r text); [|assumption].
      destruct (_ || _); lia. }
    destruct (IH Hstep) as (H1 & H2 & H3). clear IH.
    split; [|split; [|exact H3]].
    + rewrite H1. unfold classPositionStep.
      destruct (exec r text) as [m|] eqn:E.
      * split.
        -- intros [Hn _]. destruct (_ || _) eqn:O in Hn; [lia|].
           apply orb_false_iff in O. lia.
        -- intros [Hn Hall]. specialize (Hall r (or_introl eq_refl)). congruence.
      * split.
        -- intros [Hn Hall]. split; [assumption|]. intros r' [<-|Hr']; auto.
        -- intros [Hn Hall]. split; [assumption|]. intros r' Hr'. apply Hall. now right.
    + intros Hres. destruct (H2 Hres) as (Ha & Hb & Hc). clear H2.
      unfold classPositionStep in *.
      destruct (exec r text) as [m|] eqn:E.
      * destruct ((acc =? -1)%Z || (Z.of_nat (index m) <? acc)%Z) eqn:O.
        -- split; [|split].
           ++ right. destruct Ha as [->|(r' & m' & Hr' & He & ->)].
              ** exists r, m. split; [now left|auto].
              ** exists r', m'. split; [now right|auto].
           ++ intros Hacc0. apply orb_true_iff in O. lia.
           ++ intros r' m' [<-|Hr'] He.
              ** rewrite E in He. injection He as <-. lia.
              ** now apply (Hc r' m').
        -- apply orb_false_iff in O. split; [|split].
           ++ destruct Ha as [->|(r' & m' & Hr' & He & ->)]; [now left|].
              right. exists r', m'. split; [now right|auto].
           ++ intros Hacc0. lia.
           ++ intros r' m' [<-|Hr'] He.
              ** rewrite E in He. injection He as <-. lia.
              ** now apply (Hc r' m').
      * split; [|split].
        -- destruct Ha as [->|(r' & m' & Hr' & He & ->)]; [now left|].
           right. exists r', m'. split; [now right|auto].
        -- exact Hb.
        -- intros r' m' [<-|Hr'] He; [congruence|]. now apply (Hc r' m').
Qed.

Lemma classPositionOf_none (text : jsstring) :
  (forall r, In r classPatterns -> test r text = false) ->
  classPositionOf text = (-1)%Z.
Proof.
  intros Hall. unfold classPositionOf.
  destruct (classPosition_fold text classPatterns (-1)%Z (or_introl eq_refl))
    as (H1 & _). cbn zeta in H1. apply H1. split; [reflexivity|].
  intros r Hr. specialize (Hall r Hr). unfold test in Hall.
  destruct (exec r text); [discriminate|reflexivity].
Qed.

Lemma classPositionOf_earliest (text : jsstring) (x : nat) :
  earliestOffset classPatterns text x -> classPositionOf text = Z.of_nat x.
Proof.
  intros [(r0 & Hr0 & Ho) Hleast]. unfold classPositionOf.
  destruct (classPosition_fold text classPatterns (-1)%Z (or_introl eq_refl))
    as (H1 & H2 & H3). cbn zeta in *.
  set (res := fold_left (classPositionStep text) classPatterns (-1)%Z) in *.
  destruct (exec r0 text) as [m0|] eqn:E0;
    [|rewrite (exec_None _ _ E0) in Ho; discriminate].
  destruct H3 as [Hneg|Hpos].
  { apply H1 in Hneg as [_ Hnone]. rewrite (Hnone r0 Hr0) in E0. discriminate. }
  destruct (H2 Hpos) as (Ha & _ & Hc).
  destruct Ha as [Ha|(r & m & Hr & He & Hres)]; [lia|].
  pose proof (Hc r0 m0 Hr0 E0) as Hle.
  apply exec_Some in E0 as [_ E0]. apply exec_Some in He as [He _].
  assert (index m0 <= x).
  { destruct (Nat.le_gt_cases (index m0) x) as [|Hgt]; [assumption|].
    rewrite (E0 x Hgt) in Ho. discriminate. }
  assert (x <= index m).
  { destruct (Nat.le_gt_cases x (index m)) as [|Hgt]; [assumption|].
    rewrite (Hleast _ r Hgt Hr) in He. discriminate. }
  lia.
Qed.

End WeTiming.

Section WeTimingSamples.
Import Js Regex Validator Reference Auxiliary Samples.
Local Open Scope string_scope.
Local Open Scope list_scope.

Lemma weAfterClass_earliest : earliestOffset classPatterns weAfterClass 17.
Proof.
  split.
  - eexists. split; [left; reflexivity|]. vm_compute. reflexivity.
  - intros y r Hy Hr. unfold classPatterns in Hr. cbn [In] in Hr.
    assert (Hcase : forall r', exec r' weAfterClass = None \/
                      (exists m, exec r' weAfterClass = Some m /\ index m = 17) ->
                    occursAt r' weAfterClass y = false).
    { intros r' [Hn|(m & Hm & Hi)].
      - now apply exec_None.
      - apply exec_Some in Hm as [_ Hm]. apply Hm. lia. }
    repeat (destruct Hr as [<-|Hr];
            [apply Hcase; first [left; vm_compute; reflexivity
                                |right; eexists; split; vm_compute; reflexivity]|]).
    destruct Hr.
Qed.

(** C1, as stated, fails.  No introduction pattern matches
    [weWithoutClass], and it holds the pronoun "we"; [hasValidWeTiming]
    returns false, not true. *)
Lemma we_without_introduction_rejected :
  forallb (fun r => negb (test r weWithoutClass)) classPatterns = true /\
  occursAt wePattern (toLowerCase weWithoutClass) 14 = true /\
  hasValidWeTiming weWithoutClass = false.
Proof. split; [|split]; vm_compute; reflexivity. Qed.

End WeTimingSamples.

(** ** The KLAS introduction rule *)

Section KlasIntro.
Import Js Regex Validator Reference Auxiliary Samples.
Local Open Scope string_scope.
Local Open Scope list_scope.

(** A body that does not mention KLAS passes. *)
Lemma hasValidKlasIntro_unmentioned (text : jsstring) :
  includes (toLowerCase text) (str "klas") = false ->
  hasValidKlasIntro text = true.
Proof. intros H. unfold hasValidKlasIntro. cbn zeta. now rewrite H. Qed.

(** A body in which a fully-qualified introduction occurs passes. *)
Lemma hasValidKlasIntro_qualified (text : jsstring) :
  existsb (fun pattern => test pattern text) validIntros = true ->
  hasValidKlasIntro text = true.
Proof.
  intros H. unfold hasValidKlasIntro. cbn zeta. rewrite H.
  destruct (negb _); reflexivity.
Qed.

(** C6.  The body [klasShorthandLater] mentions KLAS only in the
    shorthand form "KLAS data shows", with no qualified introduction; the
    shorthand pattern without its anchor matches it, and the same
    sentence alone, [klasShorthandFirst], is rejected; yet after a full
    stop [hasValidKlasIntro] returns true. *)
Theorem hasValidKlasIntro_shorthand_after_full_stop :
  includes (toLowerCase klasShorthandLater) (str "klas") = true /\
  existsb (fun pattern => test pattern klasShorthandLater) validIntros = false /\
  test (phrase ["klas"; "data"; "shows"]) klasShorthandLater = true /\
  hasValidKlasIntro klasShorthandFirst = false /\
  hasValidKlasIntro klasQualified = true /\
  hasValidKlasIntro klasShorthandLater = true.
Proof. repeat split; vm_compute; reflexivity. Qed.

End KlasIntro.

(** ** Contact ranking *)

Section Sorting.
Context {A : Type}.
Variable cmp : A -> A -> Z.

(** The comparator is a consistent ordering. *)
Hypothesis cmp_total : forall a b, (0 < cmp a b)%Z -> (cmp b a <= 0)%Z.
Hypothesis cmp_trans : forall a b c,
  (cmp a b <= 0)%Z -> (cmp b c <= 0)%Z -> (cmp a c <= 0)%Z.

Notation ordered := (Auxiliary.ordered cmp).

Lemma ordered_nil : ordered [].
Proof. intros [|? ?] x l2 H; discriminate. Qed.

Lemma ordered_cons (x : A) (l : list A) :
  (forall y, In y l -> (cmp x y <= 0)%Z) -> ordered l -> ordered (x :: l).
Proof.
  intros Hx Hl [|z l1] x' l2 H y Hy.
  - injection H as <- <-. now apply Hx.
  - injection H as <- ->. now apply (Hl l1 x' l2).
Qed.

Lemma ordered_inv (x : A) (l : list A) :
  ordered (x :: l) -> (forall y, In y l -> (cmp x y <= 0)%Z) /\ ordered l.
Proof.
  intros H. split.
  - intros y Hy. now apply (H [] x l).
  - intros l1 x' l2 -> y Hy. now apply (H (x :: l1) x' l2).
Qed.

Lemma In_insertBy (x y : A) (l : list A) :
  In y (ContactSelector.insertBy cmp x l) <-> y = x \/ In y l.
Proof.
  induction l as [|z l IH]; simpl.
  - intuition.
  - destruct (cmp x z <=? 0)%Z; simpl; [intuition|]. rewrite IH. intuition.
Qed.

Lemma In_sortBy (y : A) (l : list A) :
  In y (ContactSelector.sortBy cmp l) <-> In y l.
Proof.
  unfold ContactSelector.sortBy. induction l as [|x l IH]; simpl; [reflexivity|].
  rewrite In_insertBy, IH. intuition.
Qed.

Lemma ordered_insertBy (x : A) (l : list A) :
  ordered l -> ordered (ContactSelector.insertBy cmp x l).
Proof.
  induction l as [|z l IH]; intros Hl; simpl.
  - apply ordered_cons; [intros ? []|apply ordered_nil].
  - destruct (cmp x z <=? 0)%Z eqn:E.
    + apply Z.leb_le in E. apply ordered_inv in Hl as Hz. destruct Hz as [Hz _].
      apply ordered_cons; [|assumption].
      intros y [<-|Hy]; [assumption|]. apply (cmp_trans x z y); auto.
    + apply Z.leb_gt in E. apply ordered_inv in Hl as [Hz Hl'].
      apply ordered_cons; [|now apply IH].
      intros y Hy. apply In_insertBy in Hy as [->|Hy]; [now apply cmp_total|auto].
Qed.

Lemma ordered_sortBy (l : list A) : ordered (ContactSelector.sortBy cmp l).
Proof.
  unfold ContactSelector.sortBy. induction l as [|x l IH]; simpl.
  - apply ordered_nil.
  - now apply ordered_insertBy.
Qed.

End Sorting.

Section Ranking.
Import Js Types ContactSelector Reference Auxiliary.
Local Open Scope string_scope.
Local Open Scope list_scope.

Lemma startsWith_app (p b : jsstring) : startsWith (p ++ b) p = true.
Proof.
  induction p as [|x p IH]; [destruct b; reflexivity|].
  simpl. now rewrite N.eqb_refl, IH.
Qed.

Lemma startsWith_inv (s p : jsstring) :
  startsWith s p = true -> exists b, s = p ++ b.
Proof.
  revert s. induction p as [|x p IH]; intros s H.
  - exists s. reflexivity.
  - destruct s as [|y s]; [discriminate|]. simpl in H.
    apply andb_true_iff in H as [Hx H]. apply N.eqb_eq in Hx as ->.
    destruct (IH s H) as [b ->]. exists b. reflexivity.
Qed.

Lemma includes_iff (s sub : jsstring) :
  includes s sub = true <-> exists a b, s = a ++ sub ++ b.
Proof.
  split.
  - induction s as [|c s IH]; cbn [includes]; intros H;
      apply orb_true_iff in H as [H|H].
    + apply startsWith_inv in H as [b H]. exists [], b. exact H.
    + discriminate.
    + apply startsWith_inv in H as [b H]. exists [], b. exact H.
    + destruct (IH H) as (a & b & ->). exists (c :: a), b. reflexivity.
  - intros (a & b & ->). induction a as [|c a IH].
    + cbn [app]. destruct (sub ++ b) eqn:E; cbn [includes]; rewrite <- E;
        rewrite startsWith_app; reflexivity.
    + cbn [app includes]. rewrite IH. apply orb_true_r.
Qed.

Lemma toLowerCase_app (a b : jsstring) :
  toLowerCase (a ++ b) = toLowerCase a ++ toLowerCase b.
Proof. unfold toLowerCase. apply flat_map_app. Qed.

(** A keyword of the text is still there, lower-cased, in the lower-cased
    text with anything appended. *)
Lemma includes_lowered (s sub t : jsstring) :
  includes s sub = true ->
  includes (toLowerCase (s ++ t)) (toLowerCase sub) = true.
Proof.
  intros H. apply includes_iff in H as (a & b & ->). apply includes_iff.
  exists (toLowerCase a), (toLowerCase b ++ toLowerCase t).
  rewrite !toLowerCase_app, <- !app_assoc. reflexivity.
Qed.

Lemma ceo_title_excluded (c : ContactListItem) :
  includes (title c) (str "CEO") = true -> isExcluded c = true.
Proof.
  intros H. unfold isExcluded, someKeyword. apply existsb_exists.
  exists (str "CEO"). split; [left; reflexivity|].
  unfold combinedText. now apply includes_lowered.
Qed.

Lemma getPriorityTier_None (c : ContactListItem) :
  getPriorityTier c = None <-> isExcluded c = true.
Proof.
  unfold getPriorityTier. destruct (isExcluded c); [tauto|].
  split; [|discriminate].
  repeat match goal with |- context [if ?b then _ else _] => destruct b end;
    discriminate.
Qed.

Lemma compareContacts_total (a b : ContactListItem) :
  (0 < compareContacts a b)%Z -> (compareContacts b a <= 0)%Z.
Proof.
  unfold compareContacts.
  destruct (getPriorityTier a) as [ta|], (getPriorityTier b) as [tb|]; try lia.
  destruct (ta =? tb)%Z eqn:E, (tb =? ta)%Z eqn:E'; simpl; lia.
Qed.

Lemma compareContacts_trans (a b c : ContactListItem) :
  (compareContacts a b <= 0)%Z -> (compareContacts b c <= 0)%Z ->
  (compareContacts a c <= 0)%Z.
Proof.
  unfold compareContacts.
  destruct (getPriorityTier a) as [ta|], (getPriorityTier b) as [tb|],
    (getPriorityTier c) as [tc|]; try lia.
  destruct (ta =? tb)%Z eqn:E1, (tb =? tc)%Z eqn:E2, (ta =? tc)%Z eqn:E3;
    simpl; lia.
Qed.

Lemma sortContacts_ordered (contacts : list ContactListItem) :
  ordered compareContacts (sortContacts contacts).
Proof.
  apply ordered_sortBy.
  - apply compareContacts_total.
  - apply compareContacts_trans.
Qed.

(** Of two different elements of a list, one comes before the other. *)
Lemma precedes_or {A : Type} (x y : A) (l : list A) :
  In x l -> In y l -> x <> y -> precedes x y l \/ precedes y x l.
Proof.
  intros Hx Hy Hne.
  apply in_split in Hx as (l1 & l2 & ->).
  apply in_app_or in Hy as [Hy|[Hy|Hy]]; [|congruence|].
  - apply in_split in Hy as (k1 & k2 & ->). right.
    exists k1, k2, l2. now rewrite <- app_assoc.
  - apply in_split in Hy as (k1 & k2 & ->). left.
    exists l1, k1, k2. reflexivity.
Qed.

Lemma NoDup_map_inj {A B : Type} (f : A -> B) (l : list A) (a b : A) :
  List.NoDup (List.map f l) -> In a l -> In b l -> f a = f b -> a = b.
Proof.
  induction l as [|x l IH]; intros Hnd Ha Hb Hf; [destruct Ha|].
  simpl in Hnd. apply List.NoDup_cons_iff in Hnd as [Hx Hnd].
  destruct Ha as [->|Ha], Hb as [->|Hb]; auto.
  - exfalso. apply Hx. rewrite Hf. now apply in_map.
  - exfalso. apply Hx. rewrite <- Hf. now apply in_map.
Qed.

(** C9, as the code has it.  In every contact list that holds a contact
    whose title contains "CEO" and a contact titled "Director of Clinical
    Education" whose title and persona text together hold no exclusion
    keyword: the CEO is not auto-selected, so that its id, which no other
    contact of an account bears, is not in the output of
    [getAutoSelectedIds], and [sortContacts] places the CEO after
    every contact that is not excluded, whatever its outreach priority; the
    Director's id is in the output of [getAutoSelectedIds], and
    [sortContacts] places the Director before every contact of the same
    tier with a larger outreach priority. *)
Theorem contact_ranking (contacts : list ContactListItem)
    (ceo director : ContactListItem) :
  In ceo contacts -> In director contacts ->
  includes (title ceo) (str "CEO") = true ->
  title director = str "Director of Clinical Education" ->
  isExcluded director = false ->
  (shouldAutoSelect ceo = false /\
   (List.NoDup (List.map contact_id contacts) ->
    ~ In (contact_id ceo) (getAutoSelectedIds contacts))) /\
  (forall c, In c contacts -> isExcluded c = false ->
     precedes c ceo (sortContacts contacts) /\
     ~ precedes ceo c (sortContacts contacts)) /\
  In (contact_id director) (getAutoSelectedIds contacts) /\
  (forall other, In other contacts ->
     getPriorityTier other = getPriorityTier director ->
     (outreach_priority director < outreach_priority other)%Z ->
     precedes director other (sortContacts contacts) /\
     ~ precedes other director (sortContacts contacts)).
Proof.
  intros Hceo Hdir Htitle Hd Hnot.
  pose proof (ceo_title_excluded ceo Htitle) as Hex.
  assert (Htier : getPriorityTier director = Some 4%Z).
  { unfold getPriorityTier. rewrite Hnot, Hd. reflexivity. }
  split; [|split; [|split]].
  - assert (Hsel : shouldAutoSelect ceo = false)
      by (unfold shouldAutoSelect; now rewrite Hex).
    split; [exact Hsel|].
    unfold getAutoSelectedIds. intros Hnd Hin.
    apply in_map_iff in Hin as (c & Hid & Hc).
    apply filter_In in Hc as [Hc Hsel'].
    assert (c = ceo) as -> by (eapply NoDup_map_inj; eauto).
    congruence.
  - intros c Hc Hcn.
    assert (Hnp : ~ precedes ceo c (sortContacts contacts)).
    { intros (l1 & l2 & l3 & Hs).
      assert (Hin : In c (l2 ++ c :: l3)) by (apply in_or_app; right; now left).
      pose proof (sortContacts_ordered contacts l1 ceo (l2 ++ c :: l3) Hs c Hin) as Hle.
      unfold compareContacts in Hle.
      apply getPriorityTier_None in Hex. rewrite Hex in Hle.
      destruct (getPriorityTier c) eqn:Ht; [lia|].
      apply getPriorityTier_None in Ht. congruence. }
    split; [|exact Hnp].
    destruct (precedes_or c ceo (sortContacts contacts)) as [H|H];
      try assumption; try (now apply In_sortBy).
    + intros ->. congruence.
    + contradiction.
  - unfold getAutoSelectedIds. apply in_map, filter_In. split; [assumption|].
    unfold shouldAutoSelect. rewrite Hnot.
    unfold someKeyword. apply existsb_exists.
    exists (str "Director of Clinical Education").
    split; [unfold ALL_PRIORITY_KEYWORDS, TIER_4_KEYWORDS;
            rewrite !in_app_iff; do 3 right; cbn [List.map In]; tauto|].
    unfold combinedText. apply includes_lowered. rewrite Hd.
    apply includes_iff. exists [], []. now rewrite app_nil_r.
  - intros other Hother Hsame Hprio.
    assert (Hnp : ~ precedes other director (sortContacts contacts)).
    { intros (l1 & l2 & l3 & Hs).
      pose proof (sortContacts_ordered contacts l1 other (l2 ++ director :: l3) Hs
                    director) as Hle.
      unfold compareContacts in Hle. rewrite Hsame, Htier in Hle.
      rewrite Z.eqb_refl in Hle. simpl in Hle.
      assert (Hin : In director (l2 ++ director :: l3))
        by (apply in_or_app; right; now left).
      specialize (Hle Hin). lia. }
    split; [|exact Hnp].
    destruct (precedes_or director other (sortContacts contacts)) as [H|H];
      try assumption; try (now apply In_sortBy).
    + intros ->. lia.
    + contradiction.
Qed.

End Ranking.

Section RankingSamples.
Import Js Types ContactSelector Reference Auxiliary Samples.
Local Open Scope string_scope.
Local Open Scope list_scope.

Lemma contact_ranking_witness :
  ~ In (contact_id ceoContact)
       (getAutoSelectedIds [ceoContact; trainingContact; directorContact]) /\
  In (contact_id directorContact)
     (getAutoSelectedIds [ceoContact; trainingContact; directorContact]) /\
  precedes trainingContact ceoContact
    (sortContacts [ceoContact; trainingContact; directorContact]) /\
  precedes directorContact trainingContact
    (sortContacts [ceoContact; trainingContact; directorContact]).
Proof.
  destruct (contact_ranking [ceoContact; trainingContact; directorContact]
              ceoContact directorContact) as ((_ & H1) & H2 & H3 & H4).
  - simpl. tauto.
  - simpl. tauto.
  - vm_compute. reflexivity.
  - reflexivity.
  - vm_compute. reflexivity.
  - split.
    { apply H1. apply NoDup_ListNoDup, (bool_decide_unpack _). vm_compute. exact I. }
    split; [exact H3|]. split.
    { apply (H2 trainingContact); [simpl; tauto|vm_compute; reflexivity]. }
    apply (H4 trainingContact).
    + simpl. tauto.
    + vm_compute. reflexivity.
    + vm_compute. reflexivity.
Defined.

(** C9, as stated, fails.  [directorUnderCno] is titled "Director of
    Clinical Education", but its persona text names the CNO, an exclusion
    keyword: it is excluded, and its id is not in the output of
    [getAutoSelectedIds]. *)
Lemma director_excluded_by_persona :
  In ceoContact [ceoContact; directorUnderCno] /\
  In directorUnderCno [ceoContact; directorUnderCno] /\
  includes (title ceoContact) (str "CEO") = true /\
  title directorUnderCno = str "Director of Clinical Education" /\
  isExcluded directorUnderCno = true /\
  ~ In (contact_id directorUnderCno)
       (getAutoSelectedIds [ceoContact; directorUnderCno]).
Proof.
  split; [simpl; tauto|]. split; [simpl; tauto|].
  split; [vm_compute; reflexivity|]. split; [reflexivity|].
  split; [vm_compute; reflexivity|].
  vm_compute. intros [].
Qed.

End RankingSamples.

(** ** The store of saved sequences *)

Section StorageFacts.
Import Js Schemas Storage Auxiliary.

Lemma wellKeyed_applyOp (store : emailStore) (op : operation) :
  wellKeyed store -> wellKeyed (applyOp store op).
Proof.
  intros Hw k e. destruct op as [uuid now data|i|]; cbn [applyOp saveEmail deleteEmail
    clearAllEmails snd].
  - destruct (decide (uuid = k)) as [->|Hne].
    + rewrite lookup_insert_eq. intros [= <-]. reflexivity.
    + rewrite lookup_insert_ne by assumption. apply Hw.
  - destruct (decide (i = k)) as [->|Hne].
    + rewrite lookup_delete_eq. discriminate.
    + rewrite lookup_delete_ne by assumption. apply Hw.
  - unfold clearAllEmails. rewrite lookup_empty. discriminate.
Qed.

Lemma wellKeyed_fold (ops : list operation) (store : emailStore) :
  wellKeyed store -> wellKeyed (fold_left applyOp ops store).
Proof.
  revert store. induction ops as [|op ops IH]; intros store Hw; [assumption|].
  cbn [fold_left]. apply IH. now apply wellKeyed_applyOp.
Qed.

Lemma reachable_wellKeyed (store : emailStore) :
  reachable store -> wellKeyed store.
Proof.
  intros [ops ->]. apply wellKeyed_fold. intros k e. rewrite lookup_empty. discriminate.
Qed.

Lemma reachable_applyOp (store : emailStore) (op : operation) :
  reachable store -> reachable (applyOp store op).
Proof.
  intros [ops ->]. exists (ops ++ [op]). now rewrite fold_left_app.
Qed.

(** The ids that [listEmails] lists are keys of the store. *)
Lemma listEmails_ids (store : emailStore) (filterIndex : option Z)
    (m : SavedEmailMetadata) :
  wellKeyed store -> In m (listEmails filterIndex store) ->
  exists e, store !! metaId m = Some e.
Proof.
  intros Hw Hm. unfold listEmails in Hm. cbn zeta in Hm.
  apply in_map_iff in Hm as (e & <- & He).
  assert (Hin : In e (List.map snd (map_to_list store))).
  { destruct filterIndex; [apply filter_In in He as [He _]|]; exact He. }
  apply in_map_iff in Hin as ([k e'] & <- & Hk).
  apply list_elem_of_In, elem_of_map_to_list in Hk.
  cbn [snd toMetadata metaId]. rewrite (Hw k e' Hk). eauto.
Qed.

(** C8.  In every store the process can be in, [saveEmail] returns a
    record whose account and contact fields and emails are those of the
    input, with the generated id and the two timestamps; [getEmail] of
    that id then returns that record; [deleteEmail] of that id then
    returns true, after which [getEmail] of the id returns null and
    [listEmails], with any account filter or none, lists no record with
    that id. *)
Theorem storage_round_trip (store : emailStore) (uuid now : jsstring)
    (data : SaveEmailInput) :
  reachable store ->
  let saved := (saveEmail uuid now data store).1 in
  let store1 := (saveEmail uuid now data store).2 in
  let store2 := (deleteEmail (id saved) store1).2 in
  (accountIndex saved = inAccountIndex data /\
   accountName saved = inAccountName data /\
   contactId saved = inContactId data /\
   contactName saved = inContactName data /\
   contactTitle saved = inContactTitle data /\
   emails saved = inEmails data /\
   id saved = uuid /\ createdAt saved = now /\ updatedAt saved = now) /\
  getEmail (id saved) store1 = Some saved /\
  (deleteEmail (id saved) store1).1 = true /\
  getEmail (id saved) store2 = None /\
  (forall filterIndex m,
     In m (listEmails filterIndex store2) -> metaId m <> id saved).
Proof.
  intros Hr. cbn zeta. cbn [saveEmail deleteEmail fst snd id].
  split; [repeat split|]. split; [|split; [|split]].
  - unfold getEmail. apply lookup_insert_eq.
  - rewrite lookup_insert_eq. apply bool_decide_eq_true. eauto.
  - unfold getEmail. apply lookup_delete_eq.
  - intros filterIndex m Hm Heq.
    apply listEmails_ids in Hm as [e He].
    + rewrite Heq, lookup_delete_eq in He. discriminate.
    + apply reachable_wellKeyed.
      apply (reachable_applyOp _ (OpDelete uuid)).
      now apply (reachable_applyOp _ (OpSave uuid now data)).
Qed.

End StorageFacts.

Section StorageSamples.
Import Js Schemas Storage Auxiliary Samples.

Lemma storage_round_trip_witness :
  getEmail sampleUuid (saveEmail sampleUuid sampleNow sampleInput ∅).2
  = Some (saveEmail sampleUuid sampleNow sampleInput ∅).1.
Proof.
  apply (storage_round_trip ∅ sampleUuid sampleNow sampleInput).
  exists []. reflexivity.
Defined.

End StorageSamples.

(** ** Interpreting the response text *)

Section Brackets.
Import Js Regex Reference Auxiliary.
Local Open Scope Z_scope.








End Brackets.

Section Strategies.
Import Js Regex EmailGenerator Reference Auxiliary.
Local Open Scope string_scope.
Local Open Scope list_scope.














(** *** The code block pattern *)

















(** *** The array pattern *)










End Strategies.

Section Orchestrator.
Import Js Regex Types EmailGenerator Reference Auxiliary.
Local Open Scope string_scope.
Local Open Scope list_scope.

Context {J : Type}.
Variable JSON_parse : jsstring -> option J.
Variable truthy : J -> bool.



End Orchestrator.

Section OrchestratorSamples.
Import Js Regex Types EmailGenerator Reference Auxiliary Samples.
Local Open Scope string_scope.
Local Open Scope list_scope.



End OrchestratorSamples.

(** ** The batch loop *)

Section Batch.
Import Js Regex Types EmailGenerator Reference Auxiliary.
Local Open Scope string_scope.
Local Open Scope list_scope.

Context {J : Type}.
Variable JSON_parse : jsstring -> option J.
Variable truthy : J -> bool.
Variable fetch : nat -> ContactListItem -> completion Response.

(** What generating for the [n]-th request of the batch comes to. *)
Notation outcome n c := (generateForContact JSON_parse (fetch n c)).








End Batch.

Section BatchSamples.
Import Js Regex Types EmailGenerator Reference Auxiliary Samples.
Local Open Scope string_scope.
Local Open Scope list_scope.



End BatchSamples.

(** ** More on the matcher *)

Section MatcherMore.
Import Js Regex Reference Auxiliary MoreAuxiliary.

Lemma starGreedy_complete {A : Type} (p : N -> bool) (k : mstate -> option A)
    (rest : jsstring) :
  forall st st', starReach p rest st st' -> k st' <> None ->
                 starGreedy p k rest st <> None.
Proof.
  induction rest as [|c rest IH]; intros st st' Hr Hk; cbn [starReach starGreedy] in *.
  - destruct Hr as [->|[]]. exact Hk.
  - destruct Hr as [->|[Hp Hr]].
    + destruct (p c); [|exact Hk].
      destruct (starGreedy p k rest (advance c rest st)); [discriminate|exact Hk].
    + rewrite Hp. specialize (IH _ _ Hr Hk).
      destruct (starGreedy p k rest (advance c rest st)); [discriminate|contradiction].
Qed.

Lemma starLazy_complete {A : Type} (p : N -> bool) (k : mstate -> option A)
    (rest : jsstring) :
  forall st st', starReach p rest st st' -> k st' <> None ->
                 starLazy p k rest st <> None.
Proof.
  induction rest as [|c rest IH]; intros st st' Hr Hk; cbn [starReach starLazy] in *.
  - destruct Hr as [->|[]]. destruct (k st); [discriminate|contradiction].
  - destruct (k st) eqn:E; [discriminate|].
    destruct Hr as [->|[Hp Hr]]; [contradiction|].
    rewrite Hp. now apply (IH _ _ Hr).
Qed.

(** Whatever the pattern can reach, with a continuation that accepts it,
    the matcher finds some match. *)
Lemma rmatch_complete {A : Type} (r : regex) :
  forall (k : mstate -> option A) (st st' : mstate),
    reach r st st' -> k st' <> None -> rmatch r k st <> None.
Proof.
  induction r as [|p|a IHa b IHb|a IHa b IHb|a IHa|p|p| | |a IHa];
    intros k st st'; cbn [rmatch reach].
  - intros -> Hk. exact Hk.
  - intros (c & rest & -> & -> & ->) Hk. exact Hk.
  - intros (mid & Ha & Hb) Hk. apply (IHa _ _ mid Ha). now apply (IHb _ _ st').
  - intros [Ha|Hb] Hk.
    + specialize (IHa k _ _ Ha Hk). destruct (rmatch a k st); [discriminate|contradiction].
    + destruct (rmatch a k st); [discriminate|]. now apply (IHb _ _ st').
  - intros [Ha| ->] Hk.
    + specialize (IHa k _ _ Ha Hk). destruct (rmatch a k st); [discriminate|contradiction].
    + destruct (rmatch a k st); [discriminate|exact Hk].
  - intros Hr Hk. now apply (starGreedy_complete p k _ st st').
  - intros Hr Hk. now apply (starLazy_complete p k _ st st').
  - intros [-> ->] Hk. exact Hk.
  - intros [-> ->] Hk. exact Hk.
  - intros (mid & Hr & ->) Hk. now apply (IHa _ _ mid Hr).
Qed.

Lemma starReach_sim (b : jsstring) (p : N -> bool) (rest : jsstring) :
  forall st1 st1' st2,
    starReach p rest st1 st1' -> sim b st1 st2 ->
    exists st2', starReach p (rest ++ b) st2 st2' /\ sim b st1' st2'.
Proof.
  induction rest as [|c rest IH]; intros st1 st1' st2 Hr Hs; cbn [starReach] in Hr.
  - destruct Hr as [->|[]]. exists st2. split; [|exact Hs].
    destruct b; now left.
  - destruct Hr as [->|[Hp Hr]].
    + exists st2. split; [now left|exact Hs].
    + destruct (IH (advance c rest st1) st1' (advance c (rest ++ b) st2) Hr)
        as (st2' & Hr2 & Hs2); [reflexivity|].
      exists st2'. split; [|exact Hs2]. cbn [app starReach]. right. auto.
Qed.

(** What a pattern without [\b] and [^] reaches does not depend on the
    text before, nor on the text after what it matched. *)
Lemma reach_sim (b : jsstring) (r : regex) :
  contextFree r = true ->
  forall st1 st1' st2,
    reach r st1 st1' -> sim b st1 st2 ->
    exists st2', reach r st2 st2' /\ sim b st1' st2'.
Proof.
  induction r as [|p|x IHx y IHy|x IHx y IHy|x IHx|p|p| | |x IHx];
    cbn [contextFree reach]; intros Hcf st1 st1' st2.
  - intros -> Hs. exists st2. auto.
  - intros (c & rest & Ha & Hp & ->) Hs. unfold sim in Hs. rewrite Ha in Hs.
    exists (advance c (rest ++ b) st2). split; [|reflexivity].
    exists c, (rest ++ b). auto.
  - apply andb_true_iff in Hcf as [Hx Hy].
    intros (mid & Ha & Hb) Hs.
    destruct (IHx Hx _ _ _ Ha Hs) as (mid2 & Ha2 & Hs2).
    destruct (IHy Hy _ _ _ Hb Hs2) as (st2' & Hb2 & Hs3).
    exists st2'. split; [exists mid2; auto|exact Hs3].
  - apply andb_true_iff in Hcf as [Hx Hy].
    intros [Ha|Hb] Hs.
    + destruct (IHx Hx _ _ _ Ha Hs) as (st2' & H2 & Hs2). exists st2'. auto.
    + destruct (IHy Hy _ _ _ Hb Hs) as (st2' & H2 & Hs2). exists st2'. auto.
  - intros [Ha| ->] Hs.
    + destruct (IHx Hcf _ _ _ Ha Hs) as (st2' & H2 & Hs2). exists st2'. auto.
    + exists st2. auto.
  - intros Hr Hs. unfold sim in Hs. rewrite Hs. now apply (starReach_sim b p _ st1).
  - intros Hr Hs. unfold sim in Hs. rewrite Hs. now apply (starReach_sim b p _ st1).
  - discriminate.
  - discriminate.
  - intros (mid & Hr & ->) Hs.
    destruct (IHx Hcf (openGroup st1) mid (openGroup st2) Hr) as (mid2 & H2 & Hs2);
      [exact Hs|].
    exists (closeGroup mid2). split; [exists mid2; auto|].
    unfold sim. destruct (closeGroup_text mid) as [_ ->].
    destruct (closeGroup_text mid2) as [_ ->]. exact Hs2.
Qed.

Lemma matchAt_found (r : regex) (s : jsstring) (k : nat) :
  k <= length s -> matchAt r (splitState [] s k) <> None -> test r s = true.
Proof.
  intros Hk Hm. unfold test, exec.
  pose proof (searchFrom_leftmost r s []) as L.
  destruct (searchFrom r [] s); [reflexivity|]. exfalso. apply Hm. now apply L.
Qed.

(** A pattern without [\b] and [^] that matches in a text matches in
    every text that holds it. *)
Lemma test_extend (r : regex) (a w b : jsstring) :
  contextFree r = true -> test r w = true -> test r (a ++ w ++ b) = true.
Proof.
  intros Hcf Ht. unfold test, exec in Ht.
  pose proof (searchFrom_leftmost r w []) as L.
  destruct (searchFrom r [] w) as [m|]; [|discriminate].
  destruct L as (k & Hk & _ & Hm & _).
  unfold matchAt in Hm. apply rmatch_sound in Hm as (st' & Hr & _).
  destruct (reach_sim b r Hcf _ st' (splitState [] (a ++ w ++ b) (length a + k)) Hr)
    as (st2' & Hr2 & _).
  { unfold sim, splitState. cbn [after].
    rewrite skipn_app, skipn_all2 by lia. cbn [app].
    replace (length a + k - length a) with k by lia.
    rewrite skipn_app. replace (k - length w) with 0 by lia. reflexivity. }
  apply (matchAt_found r _ (length a + k)).
  - rewrite !length_app. lia.
  - unfold matchAt. apply (rmatch_complete r _ _ st2' Hr2). discriminate.
Qed.

End MatcherMore.

(** ** Text around a match *)

Section Monotone.
Import Js Regex Schemas Validator Reference Auxiliary MoreAuxiliary.
Local Open Scope string_scope.
Local Open Scope list_scope.

Lemma toLowerCase_app3 (a w b : jsstring) :
  toLowerCase (a ++ w ++ b) = toLowerCase a ++ toLowerCase w ++ toLowerCase b.
Proof. now rewrite !toLowerCase_app. Qed.

Lemma existsb_test_extend (rs : list regex) (a w b : jsstring) :
  forallb contextFree rs = true ->
  existsb (fun pattern => test pattern w) rs = true ->
  existsb (fun pattern => test pattern (a ++ w ++ b)) rs = true.
Proof.
  intros Hcf Hw. apply existsb_exists in Hw as (r & Hr & Ht).
  apply existsb_exists. exists r. split; [exact Hr|].
  apply test_extend; [|exact Ht].
  rewrite forallb_forall in Hcf. now apply Hcf.
Qed.

(** X1.  A body that holds a warmth phrase keeps passing the warmth
    check whatever text is put before or after it. *)
Theorem hasWarmthPhrase_monotone (a w b : jsstring) (emailNumber : nat) :
  hasWarmthPhrase w emailNumber = true ->
  hasWarmthPhrase (a ++ w ++ b) emailNumber = true.
Proof.
  unfold hasWarmthPhrase. destruct (negb (emailNumber =? 3)%nat); [reflexivity|].
  cbn zeta. rewrite toLowerCase_app3. now apply existsb_test_extend.
Qed.

(** X2.  A banned call to action is not hidden by the text around it: a
    body that holds a text failing the CTA check fails it. *)
Theorem hasValidCta_antitone (a w b : jsstring) :
  hasValidCta w = false -> hasValidCta (a ++ w ++ b) = false.
Proof.
  unfold hasValidCta. cbn zeta. rewrite !negb_false_iff, toLowerCase_app3.
  now apply existsb_test_extend.
Qed.

(** X3.  Every banned phrase found in a text is found in every body
    that holds the text. *)
Theorem hasBannedPhrases_monotone (a w b : jsstring) (description : jsstring) :
  In description (hasBannedPhrases w) ->
  In description (hasBannedPhrases (a ++ w ++ b)).
Proof.
  unfold hasBannedPhrases. rewrite !in_map_iff.
  intros ([r d] & <- & Hin). apply filter_In in Hin as [Hin Ht].
  exists (r, d). split; [reflexivity|]. apply filter_In. split; [exact Hin|].
  cbn [fst] in *. apply test_extend; [|exact Ht].
  assert (Hcf : forallb (fun x => contextFree (fst x)) bannedPhrases = true)
    by reflexivity.
  rewrite forallb_forall in Hcf. now apply (Hcf (r, d)).
Qed.

(** X4.  A fully-qualified KLAS introduction anywhere in the body makes
    the KLAS check pass, whatever comes before it, a shorthand mention
    included. *)
Theorem hasValidKlasIntro_qualified_anywhere (a w b : jsstring) :
  existsb (fun pattern => test pattern w) validIntros = true ->
  hasValidKlasIntro (a ++ w ++ b) = true.
Proof.
  intros Hw. apply hasValidKlasIntro_qualified.
  now apply existsb_test_extend.
Qed.

End Monotone.

Section MonotoneSamples.
Import Js Regex Schemas Validator Reference Auxiliary MoreAuxiliary Samples.
Local Open Scope string_scope.
Local Open Scope list_scope.

Lemma hasWarmthPhrase_monotone_witness :
  hasWarmthPhrase (plainBody ++ str "I hope these findings are useful" ++ str ". Dalton") 3
  = true.
Proof. apply hasWarmthPhrase_monotone. vm_compute. reflexivity. Defined.

Lemma hasValidCta_antitone_witness :
  hasValidCta (str "Hi Sam. " ++ str "Does Tuesday work for 20 minutes" ++ str "?") = false.
Proof. apply hasValidCta_antitone. vm_compute. reflexivity. Defined.

Lemma hasBannedPhrases_monotone_witness :
  In (str "Feels pestering")
     (hasBannedPhrases (str "Hi Sam. " ++ str "One more thought" ++ str " on this.")).
Proof. apply hasBannedPhrases_monotone. vm_compute. left. reflexivity. Defined.

Lemma hasValidKlasIntro_qualified_anywhere_witness :
  hasValidKlasIntro
    (str "KLAS data shows gains. " ++
     str "KLAS Research, which surveyed 500,000+ clinicians" ++ str ", agrees.") = true.
Proof. apply hasValidKlasIntro_qualified_anywhere. vm_compute. reflexivity. Defined.

End MonotoneSamples.

(** ** More on [countWords] *)

Section WordCountMore.
Import Js Regex Schemas Validator Reference Auxiliary MoreAuxiliary.
Local Open Scope list_scope.

Lemma tokenCount_white_cons (c : N) (s : jsstring) :
  isWhite c = true -> tokenCount (c :: s) = tokenCount s.
Proof.
  intros Hc. unfold tokenCount. fold nonEmpty.
  cbn [splitOnWhitespaceRuns]. rewrite Hc.
  cbn [rev List.filter nonEmpty length Nat.ltb Nat.leb].
  now rewrite tokens_inRun.
Qed.

Lemma tokenCount_white_app (ws s : jsstring) :
  forallb isWhite ws = true -> tokenCount (ws ++ s) = tokenCount s.
Proof.
  induction ws as [|c ws IH]; intros H; [reflexivity|].
  cbn [forallb] in H. apply andb_true_iff in H as [Hc H].
  cbn [app]. rewrite tokenCount_white_cons by assumption. now apply IH.
Qed.

Lemma tokens_split (a b cur : jsstring) (w : N) (f : bool) :
  isWhite w = true -> (f = true -> cur = []) ->
  length (List.filter nonEmpty (splitOnWhitespaceRuns cur f (a ++ w :: b)))
  = length (List.filter nonEmpty (splitOnWhitespaceRuns cur f a))
    + length (List.filter nonEmpty (splitOnWhitespaceRuns [] false b)).
Proof.
  intros Hw. revert cur f. induction a as [|c a IH]; intros cur f Hf.
  - cbn [app splitOnWhitespaceRuns]. rewrite Hw. destruct f.
    + rewrite (Hf eq_refl), tokens_inRun. reflexivity.
    + cbn [List.filter]. rewrite tokens_inRun.
      destruct (nonEmpty (rev cur)); reflexivity.
  - cbn [app splitOnWhitespaceRuns]. destruct (isWhite c), f.
    + apply IH. reflexivity.
    + cbn [List.filter]. pose proof (IH [] true (fun _ => eq_refl)) as IH'.
      destruct (nonEmpty (rev cur)); cbn [length]; rewrite IH'; lia.
    + apply IH. discriminate.
    + apply IH. discriminate.
Qed.

(** X5.  The words of two texts joined by whitespace are the words of
    the one and the words of the other. *)
Theorem countWords_app (a ws b : jsstring) :
  ws <> [] -> forallb isWhite ws = true ->
  countWords (a ++ ws ++ b) = countWords a + countWords b.
Proof.
  intros Hne Hws. rewrite !countWords_tokenCount.
  destruct ws as [|w ws]; [congruence|].
  cbn [forallb] in Hws. apply andb_true_iff in Hws as [Hw Hws].
  pose proof (tokenCount_white_app ws b Hws) as E.
  unfold tokenCount in *. fold nonEmpty in *. cbn [app].
  rewrite tokens_split; [|assumption|discriminate]. now rewrite E.
Qed.

Lemma tokens_none (s cur : jsstring) (f : bool) :
  (f = true -> cur = []) ->
  List.filter nonEmpty (splitOnWhitespaceRuns cur f s) = [] ->
  cur = [] /\ forallb isWhite s = true.
Proof.
  revert cur f. induction s as [|c s IH]; intros cur f Hf H.
  - cbn in H. destruct cur as [|x cur]; [auto|].
    exfalso. cbn [rev] in H. destruct (rev cur); discriminate.
  - cbn [splitOnWhitespaceRuns] in H. cbn [forallb].
    destruct (isWhite c) eqn:Hc.
    + destruct f.
      * apply IH in H as [_ H]; [|reflexivity]. auto.
      * cbn [List.filter] in H. destruct (nonEmpty (rev cur)) eqn:E; [discriminate|].
        apply IH in H as [_ H]; [|reflexivity]. split; [|exact H].
        destruct cur as [|x cur]; [reflexivity|].
        cbn [rev] in E. destruct (rev cur); discriminate.
    + apply IH in H as [H _]; [discriminate|discriminate].
Qed.

(** X6.  A text has no word exactly when it is empty or whitespace
    only. *)
Theorem countWords_zero_iff (s : jsstring) :
  countWords s = 0 <-> forallb isWhite s = true.
Proof.
  split.
  - rewrite countWords_tokenCount. unfold tokenCount. fold nonEmpty.
    intros H. apply length_zero_iff_nil in H.
    now apply (tokens_none s [] false) in H as [_ H].
  - intros Hs. rewrite countWords_tokenCount. unfold tokenCount. fold nonEmpty.
    rewrite tokens_white; [reflexivity|assumption|discriminate].
Qed.

End WordCountMore.

Section WordCountSamples.
Import Js Regex Schemas Validator Reference Auxiliary MoreAuxiliary Samples.
Local Open Scope string_scope.
Local Open Scope list_scope.

Lemma countWords_app_witness :
  countWords (str "Hi Sam," ++ [32%N; 10%N] ++ str "how are you") = 2 + 3.
Proof.
  rewrite countWords_app; [reflexivity|discriminate|reflexivity].
Defined.

End WordCountSamples.

(** ** More on [validateEmail] and [validateSequence] *)

Section ValidateMore.
Import Js Regex Schemas Validator Reference Auxiliary MoreAuxiliary.
Local Open Scope string_scope.
Local Open Scope list_scope.

Lemma filter_map_length {A B : Type} (f : A -> B) (P : B -> bool) (l : list A) :
  length (List.filter P (List.map f l)) = length (List.filter (fun x => P (f x)) l).
Proof.
  induction l as [|x l IH]; [reflexivity|]. cbn [List.map List.filter].
  destruct (P (f x)); cbn [length]; now rewrite IH.
Qed.

Lemma concat_length_ge {A : Type} (ls : list (list A)) :
  (forall l, In l ls -> l <> []) -> length ls <= length (concat ls).
Proof.
  induction ls as [|l ls IH]; intros H; [reflexivity|].
  cbn [concat length]. rewrite length_app.
  assert (l <> []) by (apply H; now left).
  assert (length ls <= length (concat ls)) by (apply IH; intros; apply H; now right).
  destruct l; [congruence|]. cbn [length]. lia.
Qed.

(** A failing check always comes with a suggestion. *)
Lemma checkItems_fixes (email : EmailVariant) (signed : bool) it :
  In it (checkItems email signed) -> it.1.1.2 = false -> it.2 <> [].
Proof.
  unfold checkItems. cbn zeta. cbn [In].
  intros [<-|[<-|[<-|[<-|[<-|[<-|[<-|[<-|[<-|[]]]]]]]]]]; cbn [fst snd];
    try discriminate.
  intros H. apply Nat.eqb_neq in H. intros E. apply H. now rewrite E.
Qed.

(** X7.  [validateEmail] reports one failure for each of the nine checks
    that is false, no more, and at least as many suggestions as
    failures. *)
Theorem validateEmail_failure_count (email : EmailVariant) :
  exists r, validateEmail email = Normal r /\
    length (failures r)
    = length (List.filter (fun k => negb (isSet (checks r) k)) checkNames) /\
    length (failures r) <= length (suggestions r).
Proof.
  destruct (validateEmail_returns email) as (signed & _ & Hr).
  eexists. split; [exact Hr|].
  unfold resultOf. cbn [checks failures suggestions].
  pose proof checkNames_NoDup as Hnd.
  rewrite <- (checkItems_names email signed) in *.
  remember (checkItems email signed) as items eqn:Hitems.
  rewrite runChecks_failures, runChecks_suggestions. cbn [accFailures accSuggestions app].
  rewrite !length_map. split.
  - rewrite filter_map_length. f_equal. apply filter_ext_in. intros it Hit.
    unfold isSet. now rewrite runChecks_lookup.
  - rewrite <- (length_map (fun it : jsstring * bool * jsstring * list jsstring => it.2)).
    apply concat_length_ge. intros l Hl.
    apply in_map_iff in Hl as (it & <- & Hit). apply filter_In in Hit as [Hit Hv].
    subst items. apply (checkItems_fixes email signed it Hit).
    now apply negb_true_iff.
Qed.

(** Each step of the loop over a sequence adds exactly one failure for an
    email that does not pass, and none for one that does. *)
Lemma sequenceStep_count (a : acc) (email : EmailVariant) :
  exists a', sequenceStep a email = Normal a' /\
    length (accFailures a')
    = length (accFailures a) + (if passesEmail email then 0 else 1).
Proof.
  destruct (validateEmail_returns email) as (signed & _ & Hr).
  unfold sequenceStep, passesEmail. rewrite Hr. cbn [mbind completion_bind].
  destruct (passed _); cbn [negb mret completion_ret].
  - eexists. split; [reflexivity|]. cbn [accFailures]. lia.
  - eexists. split; [reflexivity|]. cbn [accFailures]. rewrite length_app. reflexivity.
Qed.

Lemma sequenceLoop_count (emails : EmailSequence) (a : acc) :
  exists a', sequenceLoop a emails = Normal a' /\
    length (accFailures a')
    = length (accFailures a)
      + length (List.filter (fun e => negb (passesEmail e)) emails).
Proof.
  revert a. induction emails as [|email emails IH]; intros a.
  - exists a. split; [reflexivity|]. cbn [List.filter length]. lia.
  - destruct (sequenceStep_count a email) as (a1 & H1 & F1).
    destruct (IH a1) as (a2 & H2 & F2).
    exists a2. cbn [sequenceLoop]. rewrite H1. cbn [mbind completion_bind].
    split; [exact H2|]. rewrite F2, F1. cbn [List.filter].
    destruct (passesEmail email); cbn [negb length]; lia.
Qed.

(** X8.  [validateSequence] always returns; its failures are one for a
    length other than three, one for a wrong angle order and one for each
    email that does not pass [validateEmail], and [passed] holds exactly
    when there is none. *)
Theorem validateSequence_failure_count (emails : EmailSequence) :
  exists r, validateSequence emails = Normal r /\
    length (failures r)
    = (if (length emails =? 3)%nat then 0 else 1)
      + (if everyFrom 0 (List.map (fun e => angleName (angle e)) emails) then 0 else 1)
      + length (List.filter (fun e => negb (passesEmail e)) emails) /\
    passed r = (length (failures r) =? 0)%nat.
Proof.
  unfold validateSequence. cbn zeta.
  match goal with
  | |- context [sequenceLoop ?a ?es] =>
      destruct (sequenceLoop_count es a) as (a' & Hl & Hf); rewrite Hl
  end.
  cbn [mbind completion_bind mret completion_ret].
  eexists. split; [reflexivity|]. cbn [passed failures]. split; [|reflexivity].
  rewrite Hf. f_equal.
  destruct (length emails =? 3)%nat; destruct (everyFrom 0 _);
    cbn [negb accFailures accChecks accSuggestions]; rewrite ?length_app; reflexivity.
Qed.

Lemma angleName_inj (a b : EmailAngle) : angleName a = angleName b -> a = b.
Proof. destruct a, b; intros H; try reflexivity; discriminate H. Qed.

Lemma everyFrom_expected (l : list jsstring) :
  length l = 3 -> everyFrom 0 l = true -> l = expectedAngles.
Proof.
  destruct l as [|a [|b [|c [|d l]]]]; try discriminate. intros _.
  cbn [everyFrom]. unfold expectedAngles. cbn [lookup list_lookup].
  unfold eqb. intros H.
  apply andb_prop in H as [Ha H]. apply andb_prop in H as [Hb H].
  apply andb_prop in H as [Hc _].
  apply bool_decide_eq_true_1 in Ha, Hb, Hc. now subst.
Qed.

(** X9.  A sequence passes exactly when its angles are timing, challenge
    and outcome, in this order, and each of its emails passes
    [validateEmail] on its own. *)
Theorem validateSequence_passed_iff (emails : EmailSequence) :
  exists r, validateSequence emails = Normal r /\
    (passed r = true <->
       List.map angle emails = [timing; challenge; outcome] /\
       forallb passesEmail emails = true).
Proof.
  unfold validateSequence. cbn zeta.
  match goal with
  | |- context [sequenceLoop ?a ?es] =>
      destruct (sequenceLoop_count es a) as (a' & Hl & Hf); rewrite Hl
  end.
  cbn [mbind completion_bind mret completion_ret].
  eexists. split; [reflexivity|]. cbn [passed].
  rewrite Nat.eqb_eq, Hf.
  assert (Hall : length (List.filter (fun e => negb (passesEmail e)) emails) = 0
                 <-> forallb passesEmail emails = true).
  { clear. induction emails as [|e emails IH]; [easy|].
    cbn [List.filter forallb]. destruct (passesEmail e); cbn [negb andb length]; [exact IH|].
    split; [lia|discriminate]. }
  assert (Hang : length emails = 3 ->
                 everyFrom 0 (List.map (fun e => angleName (angle e)) emails) = true ->
                 List.map angle emails = [timing; challenge; outcome]).
  { clear. intros E3 Ev.
    apply everyFrom_expected in Ev; [|now rewrite length_map].
    destruct emails as [|e1 [|e2 [|e3 [|e4 l]]]]; try discriminate.
    cbn [List.map] in *. injection Ev as H1 H2 H3.
    change (str "timing") with (angleName timing) in H1.
    change (str "challenge") with (angleName challenge) in H2.
    change (str "outcome") with (angleName outcome) in H3.
    apply angleName_inj in H1, H2, H3. congruence. }
  assert (Hgna : List.map angle emails = [timing; challenge; outcome] ->
                 (length emails =? 3)%nat = true /\
                 everyFrom 0 (List.map (fun e => angleName (angle e)) emails) = true).
  { clear. intros Ha. destruct emails as [|e1 [|e2 [|e3 [|e4 l]]]]; try discriminate.
    cbn [List.map] in Ha. injection Ha as H1 H2 H3.
    cbn [length Nat.eqb List.map]. rewrite H1, H2, H3. split; reflexivity. }
  destruct (length emails =? 3)%nat eqn:E3;
    destruct (everyFrom 0 _) eqn:Ev;
    cbn [negb accFailures accChecks accSuggestions]; rewrite ?length_app; cbn [length app].
  - apply Nat.eqb_eq in E3. split.
    + intros H. split; [now apply Hang|]. apply Hall. lia.
    + intros [_ Hp]. apply Hall in Hp. lia.
  - split; [lia|]. intros [Ha _]. apply Hgna in Ha as [_ Ha]. discriminate.
  - split; [lia|]. intros [Ha _]. apply Hgna in Ha as [Ha _]. discriminate.
  - split; [lia|]. intros [Ha _]. apply Hgna in Ha as [Ha _]. discriminate.
Qed.

(** The keys that the loop adds all start with the letter E. *)
Lemma prefixed_fold_lookup (p key : jsstring) (cs0 m : gmap jsstring bool) :
  (forall k, p ++ k <> key) ->
  map_fold (fun k v acc => <[p ++ k := v]> acc) cs0 m !! key = cs0 !! key.
Proof.
  intros Hne.
  apply (map_fold_weak_ind (fun r _ => r !! key = cs0 !! key)); [reflexivity|].
  intros i x m' r _ IH. rewrite lookup_insert_ne; [exact IH|apply Hne].
Qed.

Lemma sequenceLoop_angle_key (emails : EmailSequence) (a : acc) :
  exists a', sequenceLoop a emails = Normal a' /\
    accChecks a' !! str "angle_order_valid" = accChecks a !! str "angle_order_valid".
Proof.
  revert a. induction emails as [|email emails IH]; intros a.
  - exists a. split; reflexivity.
  - destruct (validateEmail_returns email) as (signed & _ & Hr).
    cbn [sequenceLoop]. unfold sequenceStep. rewrite Hr. cbn [mbind completion_bind].
    match goal with
    | |- context [if ?b then mret ?x else mret ?y] =>
        destruct (IH x) as (ax & Hx & Kx); destruct (IH y) as (ay & Hy & Ky);
        destruct b; cbn [mret completion_ret]
    end.
    + exists ax. split; [exact Hx|]. rewrite Kx. cbn [accChecks].
      apply prefixed_fold_lookup. intros k. unfold checkPrefix. discriminate.
    + exists ay. split; [exact Hy|]. rewrite Ky. cbn [accChecks].
      apply prefixed_fold_lookup. intros k. unfold checkPrefix. discriminate.
Qed.


Lemma everyFrom_prefix (l : list jsstring) (i : nat) :
  everyFrom i l = true <-> l = firstn (length l) (skipn i expectedAngles).
Proof.
  revert i. induction l as [|a l IH]; intros i; [easy|].
  cbn [everyFrom length].
  destruct (expectedAngles !! i) as [e|] eqn:E.
  - rewrite (drop_S _ _ _ E). cbn [firstn]. rewrite andb_true_iff, IH.
    unfold eqb. rewrite bool_decide_eq_true. split.
    + intros [-> <-]. reflexivity.
    + intros H. injection H as -> H. split; [reflexivity|exact H].
  - apply lookup_ge_None in E. rewrite (drop_ge _ _ E). split; discriminate.
Qed.

Lemma map_angleName_inj (l l' : list EmailAngle) :
  List.map angleName l = List.map angleName l' -> l = l'.
Proof.
  revert l'. induction l as [|a l IH]; intros [|b l']; try discriminate; [easy|].
  cbn [List.map]. intros H. injection H as Ha H.
  apply angleName_inj in Ha. apply IH in H. congruence.
Qed.

(** X10.  The angle-order check of a sequence is recorded under the key
    [angle_order_valid], which no later step overwrites, and it is true
    exactly when the angles are an initial part of timing, challenge,
    outcome: so it holds for an empty or a shorter sequence and fails for
    every sequence of more than three emails. *)
Theorem validateSequence_angle_check (emails : EmailSequence) :
  exists r b, validateSequence emails = Normal r /\
    checks r !! str "angle_order_valid" = Some b /\
    (b = true <->
       List.map angle emails = firstn (length emails) [timing; challenge; outcome]).
Proof.
  unfold validateSequence. cbn zeta.
  match goal with
  | |- context [sequenceLoop ?a ?es] =>
      destruct (sequenceLoop_angle_key es a) as (a' & Hl & Hk); rewrite Hl
  end.
  cbn [mbind completion_bind mret completion_ret].
  eexists. exists (everyFrom 0 (List.map (fun e => angleName (angle e)) emails)).
  split; [reflexivity|]. cbn [checks]. split.
  - rewrite Hk. destruct (negb (everyFrom 0 _)); cbn [accChecks];
      destruct (negb (length emails =? 3)%nat); cbn [accChecks];
      apply lookup_insert_eq.
  - rewrite everyFrom_prefix, length_map. cbn [skipn].
    change expectedAngles with (List.map angleName [timing; challenge; outcome]). clear.
    rewrite skipn_O, firstn_map, <- (map_map angle angleName). split.
    + apply map_angleName_inj.
    + intros ->. reflexivity.
Qed.

End ValidateMore.

(** ** The signature check *)

Section Signature.
Import Js Regex Schemas Validator Reference Auxiliary MoreAuxiliary.
Local Open Scope string_scope.
Local Open Scope list_scope.

Lemma trimStart_nil_iff (s : jsstring) :
  trimStart s = [] <-> forallb isWhite s = true.
Proof.
  induction s as [|c s IH]; [easy|]. cbn [trimStart forallb].
  destruct (isWhite c); cbn [andb]; [exact IH|]. split; discriminate.
Qed.

Lemma trimStart_app (a b : jsstring) :
  trimStart a <> [] -> trimStart (a ++ b) = trimStart a ++ b.
Proof.
  induction a as [|c a IH]; [easy|]. cbn [trimStart app].
  destruct (isWhite c); [exact IH|reflexivity].
Qed.

Lemma trimStart_white_app (ws s : jsstring) :
  forallb isWhite ws = true -> trimStart (ws ++ s) = trimStart s.
Proof.
  induction ws as [|c ws IH]; [easy|]. cbn [forallb app trimStart].
  intros H. apply andb_prop in H as [-> H]. now apply IH.
Qed.

Lemma trimStart_idem (s : jsstring) : trimStart (trimStart s) = trimStart s.
Proof.
  induction s as [|c s IH]; [reflexivity|]. cbn [trimStart].
  destruct (isWhite c) eqn:E; [exact IH|]. cbn [trimStart]. now rewrite E.
Qed.

Lemma trimEnd_nil_iff (s : jsstring) :
  trimEnd s = [] <-> forallb isWhite s = true.
Proof.
  unfold trimEnd. split.
  - intros H. apply (f_equal (@rev N)) in H. rewrite rev_involutive in H.
    cbn [rev] in H. apply trimStart_nil_iff in H.
    rewrite forallb_forall in *. intros x Hx. apply H. now apply in_rev in Hx.
  - intros H. replace (trimStart (rev s)) with (@nil N); [reflexivity|].
    symmetry. apply trimStart_nil_iff. rewrite forallb_forall in *.
    intros x Hx. apply H. now apply in_rev.
Qed.

Lemma trimEnd_app (a b : jsstring) :
  trimEnd b <> [] -> trimEnd (a ++ b) = a ++ trimEnd b.
Proof.
  unfold trimEnd. intros H. rewrite rev_app_distr, trimStart_app.
  - now rewrite rev_app_distr, rev_involutive.
  - intros E. apply H. now rewrite E.
Qed.

Lemma trimEnd_app_white (s ws : jsstring) :
  forallb isWhite ws = true -> trimEnd (s ++ ws) = trimEnd s.
Proof.
  unfold trimEnd. intros H. rewrite rev_app_distr, trimStart_white_app; [reflexivity|].
  rewrite forallb_forall in *. intros x Hx. apply H. now apply in_rev.
Qed.

Lemma trim_trimEnd (s : jsstring) : trim (trimEnd s) = trim s.
Proof.
  unfold trim. destruct (trimEnd_decompose s) as (ws & Hs & Hws).
  destruct (trimStart (trimEnd s)) as [|c t] eqn:E.
  - apply trimStart_nil_iff in E.
    assert (Hall : forallb isWhite s = true).
    { rewrite Hs, forallb_app, E, Hws. reflexivity. }
    apply trimStart_nil_iff in Hall. now rewrite Hall.
  - rewrite Hs at 1. rewrite trimStart_app; [|now rewrite E].
    rewrite E. now rewrite trimEnd_app_white.
Qed.

Lemma trim_idem (s : jsstring) : trim (trim s) = trim s.
Proof.
  unfold trim at 2. rewrite trim_trimEnd. unfold trim. now rewrite trimStart_idem.
Qed.

Lemma splitLoop_one_piece (d : N) (b cur : jsstring) :
  lacks d b = true -> splitLoop [d] cur 0 b = [rev cur ++ b].
Proof.
  revert cur. induction b as [|c b IH]; intros cur H.
  - cbn [splitLoop]. now rewrite app_nil_r.
  - cbn [lacks forallb] in H. apply andb_prop in H as [Hc H].
    cbn [splitLoop startsWith].
    rewrite N.eqb_sym. apply negb_true_iff in Hc. rewrite Hc. cbn [andb].
    rewrite (IH _ H). cbn [rev]. now rewrite <- app_assoc.
Qed.

Lemma splitLoop_last_piece (d : N) (a b cur : jsstring) :
  lacks d b = true ->
  exists front, splitLoop [d] cur 0 (a ++ d :: b) = front ++ [b].
Proof.
  intros Hb. revert cur. induction a as [|c a IH]; intros cur.
  - cbn [app splitLoop startsWith length Nat.sub].
    assert (E : startsWith b [] = true) by (destruct b; reflexivity).
    rewrite E, N.eqb_refl. cbn [andb].
    rewrite (splitLoop_one_piece d b [] Hb). exists [rev cur]. reflexivity.
  - cbn [app splitLoop].
    destruct (startsWith (c :: a ++ d :: b) [d]).
    + destruct (IH []) as (front & Hf). exists (rev cur :: front).
      cbn [length Nat.sub]. now rewrite Hf.
    + apply IH.
Qed.

Lemma splitLoop_one_line (b cur : jsstring) :
  noLineFeed b = true -> splitLoop lf cur 0 b = [rev cur ++ b].
Proof. apply splitLoop_one_piece. Qed.

Lemma splitLoop_last_line (a b cur : jsstring) :
  noLineFeed b = true ->
  exists front, splitLoop lf cur 0 (a ++ 10%N :: b) = front ++ [b].
Proof. apply splitLoop_last_piece. Qed.

Lemma last_lookup_app {A : Type} (front : list A) (x : A) :
  (front ++ [x]) !! (length (front ++ [x]) - 1) = Some x.
Proof.
  rewrite length_app. cbn [length]. replace (length front + 1 - 1) with (length front) by lia.
  rewrite lookup_app_r by lia. now rewrite Nat.sub_diag.
Qed.

Lemma noLineFeed_trimEnd (s : jsstring) : noLineFeed s = true -> noLineFeed (trimEnd s) = true.
Proof.
  destruct (trimEnd_decompose s) as (ws & Hs & _). intros H. rewrite Hs in H.
  unfold noLineFeed, lacks in *. rewrite forallb_app in H. now apply andb_prop in H as [H _].
Qed.

Lemma noLineFeed_trimStart (s : jsstring) : noLineFeed s = true -> noLineFeed (trimStart s) = true.
Proof.
  destruct (trimStart_decompose s) as (ws & Hs & _). intros H. rewrite Hs in H.
  unfold noLineFeed, lacks in *. rewrite forallb_app in H. now apply andb_prop in H as [_ H].
Qed.

(** X11.  The signature check reads the last line only: for a text that
    ends in a line feed followed by a line with something other than
    whitespace on it, the check is whether that line, trimmed and
    lower-cased, is [dalton], whatever comes before. *)
Theorem hasValidSignature_last_line (pre line : jsstring) :
  noLineFeed line = true ->
  forallb isWhite line = false ->
  hasValidSignature (pre ++ 10%N :: line)
  = Normal (eqb (toLowerCase (trim line)) (str "dalton")).
Proof.
  intros Hnl Hnw. unfold hasValidSignature. cbn zeta. fold lf. unfold Js.split.
  assert (HtE : trimEnd line <> []).
  { intros E. apply trimEnd_nil_iff in E. congruence. }
  destruct (trimStart pre) as [|c t] eqn:Ep.
  - apply trimStart_nil_iff in Ep.
    assert (Et : trim (pre ++ 10%N :: line) = trim line).
    { unfold trim. rewrite trimStart_white_app by exact Ep. reflexivity. }
    rewrite Et. rewrite splitLoop_one_line.
    + cbn [rev app length Nat.sub lookup list_lookup]. now rewrite trim_idem.
    + unfold trim. now apply noLineFeed_trimEnd, noLineFeed_trimStart.
  - assert (Et : trim (pre ++ 10%N :: line) = (c :: t) ++ 10%N :: trimEnd line).
    { unfold trim. rewrite trimStart_app by (now rewrite Ep). rewrite Ep.
      change (10%N :: line) with ([10%N] ++ line).
      rewrite app_assoc, trimEnd_app by exact HtE. now rewrite <- app_assoc. }
    rewrite Et.
    destruct (splitLoop_last_line (c :: t) (trimEnd line) [] (noLineFeed_trimEnd _ Hnl))
      as (front & Hf).
    rewrite Hf, last_lookup_app. now rewrite trim_trimEnd.
Qed.

End Signature.

Section SignatureSamples.
Import Js Regex Schemas Validator Reference Auxiliary MoreAuxiliary Samples.
Local Open Scope string_scope.
Local Open Scope list_scope.

Lemma hasValidSignature_last_line_witness :
  hasValidSignature (str "Thanks for reading." ++ 10%N :: str "  DALTON ")
  = Normal true.
Proof.
  rewrite hasValidSignature_last_line; reflexivity.
Defined.

End SignatureSamples.

(** ** More on the contact selector *)

Section SortingMore.
Import Js Types ContactSelector SelectorHandlers Auxiliary MoreAuxiliary.
Local Open Scope string_scope.
Local Open Scope list_scope.

Lemma insertBy_Permutation {A : Type} (cmp : A -> A -> Z) (x : A) (l : list A) :
  Permutation (insertBy cmp x l) (x :: l).
Proof.
  induction l as [|y l IH]; cbn [insertBy]; [reflexivity|].
  destruct (cmp x y <=? 0)%Z; [reflexivity|].
  rewrite IH. apply perm_swap.
Qed.

Lemma sortBy_Permutation {A : Type} (cmp : A -> A -> Z) (l : list A) :
  Permutation (sortBy cmp l) l.
Proof.
  unfold sortBy. induction l as [|x l IH]; cbn [foldr]; [reflexivity|].
  rewrite insertBy_Permutation. now apply perm_skip.
Qed.

Lemma sortBy_ordered_fixed {A : Type} (cmp : A -> A -> Z) (l : list A) :
  ordered cmp l -> sortBy cmp l = l.
Proof.
  unfold sortBy. induction l as [|x l IH]; intros Ho; cbn [foldr]; [reflexivity|].
  apply ordered_inv in Ho as [Hx Ho]. rewrite (IH Ho).
  destruct l as [|y l']; [reflexivity|]. cbn [insertBy].
  specialize (Hx y (or_introl eq_refl)). apply Z.leb_le in Hx. now rewrite Hx.
Qed.

(** X12.  [sortContacts] rearranges the contacts, neither dropping nor
    repeating one, and sorting a list that it returned changes nothing. *)
Theorem sortContacts_rearranges (contacts : list ContactListItem) :
  Permutation (sortContacts contacts) contacts /\
  sortContacts (sortContacts contacts) = sortContacts contacts.
Proof.
  split; [apply sortBy_Permutation|].
  apply sortBy_ordered_fixed, sortContacts_ordered.
Qed.

Lemma insertBy_app_below {A : Type} (cmp : A -> A -> Z) (x : A) (top bottom : list A) :
  (forall y, In y bottom -> (cmp x y <= 0)%Z) ->
  insertBy cmp x (top ++ bottom) = insertBy cmp x top ++ bottom.
Proof.
  intros Hb. induction top as [|z top IH]; cbn [app insertBy].
  - destruct bottom as [|y bottom]; [reflexivity|]. cbn [insertBy].
    specialize (Hb y (or_introl eq_refl)). apply Z.leb_le in Hb. now rewrite Hb.
  - destruct (cmp x z <=? 0)%Z; [reflexivity|]. now rewrite IH.
Qed.

Lemma insertBy_app_above {A : Type} (cmp : A -> A -> Z) (x : A) (top bottom : list A) :
  (forall y, In y top -> (0 < cmp x y)%Z) ->
  (forall y, In y bottom -> (cmp x y <= 0)%Z) ->
  insertBy cmp x (top ++ bottom) = top ++ x :: bottom.
Proof.
  intros Ht Hb. induction top as [|z top IH]; cbn [app insertBy].
  - destruct bottom as [|y bottom]; [reflexivity|]. cbn [insertBy].
    specialize (Hb y (or_introl eq_refl)). apply Z.leb_le in Hb. now rewrite Hb.
  - pose proof (Ht z (or_introl eq_refl)) as Hz.
    apply Z.leb_gt in Hz. rewrite Hz. rewrite IH; [reflexivity|].
    intros y Hy. apply Ht. now right.
Qed.

(** A sort whose comparator puts the elements of a class [low] below
    all others, and leaves them unordered among themselves, moves them to
    the end in the order in which they came. *)
Lemma sortBy_split {A : Type} (cmp : A -> A -> Z) (low : A -> bool) (l : list A) :
  (forall x y, low x = true -> low y = false -> (0 < cmp x y)%Z) ->
  (forall x y, low y = true -> (cmp x y <= 0)%Z) ->
  sortBy cmp l
  = sortBy cmp (List.filter (fun x => negb (low x)) l) ++ List.filter low l.
Proof.
  intros Habove Hbelow. unfold sortBy.
  induction l as [|x l IH]; [reflexivity|].
  cbn [foldr List.filter]. rewrite IH. clear IH.
  destruct (low x) eqn:Ex; cbn [negb foldr].
  - apply insertBy_app_above.
    + intros y Hy. apply In_sortBy, filter_In in Hy as [_ Hy].
      apply negb_true_iff in Hy. now apply Habove.
    + intros y Hy. apply filter_In in Hy as [_ Hy]. now apply Hbelow.
  - apply insertBy_app_below.
    intros y Hy. apply filter_In in Hy as [_ Hy]. now apply Hbelow.
Qed.

Lemma compareContacts_excluded_above (x y : ContactListItem) :
  isExcluded x = true -> isExcluded y = false -> (0 < compareContacts x y)%Z.
Proof.
  intros Hx Hy. unfold compareContacts.
  apply getPriorityTier_None in Hx. rewrite Hx.
  destruct (getPriorityTier y) eqn:Ty; [lia|].
  apply getPriorityTier_None in Ty. congruence.
Qed.

Lemma compareContacts_excluded_below (x y : ContactListItem) :
  isExcluded y = true -> (compareContacts x y <= 0)%Z.
Proof.
  intros Hy. unfold compareContacts.
  apply getPriorityTier_None in Hy. rewrite Hy.
  destruct (getPriorityTier x); lia.
Qed.

(** X13.  Excluded contacts go to the bottom, in the order in which they
    came; the contacts above them are the eligible ones, sorted. *)
Theorem sortContacts_excluded_last (contacts : list ContactListItem) :
  sortContacts contacts
  = sortContacts (List.filter (fun c => negb (isExcluded c)) contacts)
    ++ List.filter isExcluded contacts.
Proof.
  unfold sortContacts. apply sortBy_split.
  - apply compareContacts_excluded_above.
  - apply compareContacts_excluded_below.
Qed.

Lemma filter_app_disjoint {A : Type} (p : A -> bool) (l1 l2 : list A) :
  (forall x, In x l1 -> p x = true) -> (forall x, In x l2 -> p x = false) ->
  List.filter p (l1 ++ l2) = l1.
Proof.
  intros H1 H2. rewrite List.filter_app.
  replace (List.filter p l2) with (@nil A).
  - rewrite app_nil_r. induction l1 as [|x l1 IH]; [reflexivity|].
    cbn [List.filter]. rewrite (H1 x (or_introl eq_refl)). f_equal.
    apply IH. intros y Hy. apply H1. now right.
  - symmetry. induction l2 as [|x l2 IH]; [reflexivity|].
    cbn [List.filter]. rewrite (H2 x (or_introl eq_refl)).
    apply IH. intros y Hy. apply H2. now right.
Qed.

(** X14.  The list that the selector shows is the eligible contacts,
    sorted: filtering the excluded ones out after sorting is the same as
    before, and no contact shown has the tier label [Excluded]. *)
Theorem eligibleContacts_sorted (contacts : list ContactListItem) :
  eligibleContacts contacts
  = sortContacts (List.filter (fun c => negb (isExcluded c)) contacts) /\
  (forall c, In c (eligibleContacts contacts) ->
     getTierLabel (getPriorityTier c) <> str "Excluded").
Proof.
  split.
  - unfold eligibleContacts, sortContacts.
    rewrite (sortBy_split compareContacts isExcluded contacts
               compareContacts_excluded_above compareContacts_excluded_below).
    apply filter_app_disjoint.
    + intros x Hx. apply In_sortBy, filter_In in Hx as [_ Hx]. exact Hx.
    + intros x Hx. apply filter_In in Hx as [_ Hx]. now rewrite Hx.
  - intros c Hc. unfold eligibleContacts in Hc. apply filter_In in Hc as [_ Hc].
    apply negb_true_iff in Hc. unfold getPriorityTier. rewrite Hc.
    repeat match goal with |- context [if ?b then _ else _] => destruct b end;
      discriminate.
Qed.

End SortingMore.

Section Selection.
Import Js Types ContactSelector SelectorHandlers Auxiliary MoreAuxiliary.
Local Open Scope string_scope.
Local Open Scope list_scope.

Lemma includes_app_r (s t sub : jsstring) :
  includes s sub = true -> includes (s ++ t) sub = true.
Proof.
  intros H. apply includes_iff in H as (a & b & ->). apply includes_iff.
  exists a, (b ++ t). now rewrite <- !app_assoc.
Qed.

Lemma includes_app_l (s t sub : jsstring) :
  includes t sub = true -> includes (s ++ t) sub = true.
Proof.
  intros H. apply includes_iff in H as (a & b & ->). apply includes_iff.
  exists (s ++ a), b. now rewrite <- !app_assoc.
Qed.

Lemma someKeyword_title (kws all : list jsstring) (c : ContactListItem) :
  (forall kw, In kw kws -> In kw all) ->
  someKeyword kws (toLowerCase (title c)) = true ->
  someKeyword all (combinedText c) = true.
Proof.
  intros Hin H. unfold someKeyword in *. apply existsb_exists in H as (kw & Hkw & H).
  apply existsb_exists. exists kw. split; [now apply Hin|].
  unfold combinedText. rewrite toLowerCase_app. now apply includes_app_r.
Qed.

(** X15.  Every contact of tier 1 to 4 is auto-selected. *)
Theorem priority_tier_auto_selected (c : ContactListItem) (t : Z) :
  getPriorityTier c = Some t -> t <> 5%Z -> shouldAutoSelect c = true.
Proof.
  unfold getPriorityTier, shouldAutoSelect.
  destruct (isExcluded c); [discriminate|].
  destruct (someKeyword TIER_1_KEYWORDS _) eqn:T1.
  { intros _ _. revert T1. apply someKeyword_title. intros kw Hkw.
    unfold ALL_PRIORITY_KEYWORDS. apply in_or_app. now left. }
  destruct (someKeyword TIER_2_KEYWORDS _) eqn:T2.
  { intros _ _. revert T2. apply someKeyword_title. intros kw Hkw.
    unfold ALL_PRIORITY_KEYWORDS. apply in_or_app. right. apply in_or_app. now left. }
  destruct (someKeyword TIER_3_KEYWORDS _) eqn:T3.
  { intros _ _. revert T3. apply someKeyword_title. intros kw Hkw.
    unfold ALL_PRIORITY_KEYWORDS. apply in_or_app. right. apply in_or_app. right.
    apply in_or_app. now left. }
  destruct (someKeyword TIER_4_KEYWORDS _) eqn:T4.
  { intros _ _. revert T4. apply someKeyword_title. intros kw Hkw.
    unfold ALL_PRIORITY_KEYWORDS. apply in_or_app. right. apply in_or_app. right.
    apply in_or_app. now right. }
  intros H Hne. injection H as <-. contradiction.
Qed.

(** X16.  Auto-selection reads the persona text too: a contact that is
    not excluded and whose persona text holds a priority keyword, in any
    letter case, is auto-selected whatever its title and its tier. *)
Theorem persona_keyword_auto_selected (c : ContactListItem) :
  isExcluded c = false ->
  someKeyword ALL_PRIORITY_KEYWORDS (toLowerCase (persona_match c)) = true ->
  shouldAutoSelect c = true.
Proof.
  intros Hex H. unfold shouldAutoSelect. rewrite Hex.
  unfold someKeyword in *. apply existsb_exists in H as (kw & Hkw & H).
  apply existsb_exists. exists kw. split; [exact Hkw|].
  unfold combinedText. rewrite !toLowerCase_app.
  now apply includes_app_l, includes_app_l.
Qed.

(** X17.  The contacts that are auto-selected are among those that Select
    All selects, in the same order; neither selects an excluded
    contact. *)
Theorem getAutoSelectedIds_sublist (contacts : list ContactListItem) :
  sublist (getAutoSelectedIds contacts) (handleSelectAll contacts) /\
  handleSelectAll (List.filter isExcluded contacts) = [].
Proof.
  unfold getAutoSelectedIds, handleSelectAll. split.
  - induction contacts as [|c l IH]; [constructor|].
    cbn [List.filter]. unfold shouldAutoSelect at 1.
    destruct (isExcluded c); cbn [negb]; [exact IH|].
    destruct (someKeyword _ _); cbn [List.map].
    + now apply sublist_skip.
    + now apply sublist_cons.
  - induction contacts as [|c l IH]; [reflexivity|].
    cbn [List.filter]. destruct (isExcluded c) eqn:E; [|exact IH].
    cbn [List.filter]. rewrite E. exact IH.
Qed.

Lemma includesId_In (sel : list jsstring) (i : jsstring) :
  includesId sel i = true <-> In i sel.
Proof.
  unfold includesId. rewrite existsb_exists. split.
  - intros (x & Hx & E). unfold eqb in E. apply bool_decide_eq_true_1 in E. now subst.
  - intros H. exists i. split; [exact H|]. unfold eqb. now apply bool_decide_eq_true_2.
Qed.

(** X18.  Toggling a contact flips whether it is selected and leaves the
    selection of every other contact as it was. *)
Theorem handleToggle_flips (selectedIds : list jsstring) (contactId : jsstring) :
  includesId (handleToggle selectedIds contactId) contactId
  = negb (includesId selectedIds contactId) /\
  (forall other, other <> contactId ->
     includesId (handleToggle selectedIds contactId) other
     = includesId selectedIds other).
Proof.
  unfold handleToggle. split.
  - destruct (includesId selectedIds contactId) eqn:E; cbn [negb].
    + apply not_true_is_false. rewrite includesId_In, filter_In.
      intros [_ H]. apply negb_true_iff in H. unfold eqb in H.
      now apply bool_decide_eq_false_1 in H.
    + apply includesId_In, in_or_app. right. now left.
  - intros other Hne. apply eq_true_iff_eq. rewrite !includesId_In.
    destruct (includesId selectedIds contactId).
    + rewrite filter_In. split; [tauto|]. intros H. split; [exact H|].
      apply negb_true_iff. unfold eqb. now apply bool_decide_eq_false_2.
    + rewrite in_app_iff. cbn [In]. split; [|tauto].
      intros [H|[H|[]]]; [exact H|congruence].
Qed.

(** X19.  Toggling keeps a selection free of repetitions, and toggling a
    contact that was not selected twice gives the selection back. *)
Theorem handleToggle_NoDup (selectedIds : list jsstring) (contactId : jsstring) :
  List.NoDup selectedIds ->
  List.NoDup (handleToggle selectedIds contactId) /\
  (includesId selectedIds contactId = false ->
   handleToggle (handleToggle selectedIds contactId) contactId = selectedIds).
Proof.
  intros Hnd. split.
  - unfold handleToggle. destruct (includesId selectedIds contactId) eqn:E.
    + now apply List.NoDup_filter.
    + apply NoDup_ListNoDup, NoDup_app. split; [now apply NoDup_ListNoDup|].
      split; [|apply NoDup_singleton].
      intros x Hx Hx'. apply list_elem_of_singleton in Hx'. subst x.
      apply list_elem_of_In, includesId_In in Hx. congruence.
  - intros E. unfold handleToggle at 2. rewrite E.
    unfold handleToggle.
    replace (includesId (selectedIds ++ [contactId]) contactId) with true.
    2:{ symmetry. apply includesId_In, in_or_app. right. now left. }
    rewrite List.filter_app. cbn [List.filter]. unfold eqb at 2.
    rewrite bool_decide_eq_true_2 by reflexivity. cbn [negb]. rewrite app_nil_r.
    clear Hnd. induction selectedIds as [|x l IH]; [reflexivity|].
    unfold includesId in E. cbn [existsb] in E. apply orb_false_elim in E as [Ex E].
    cbn [List.filter]. rewrite Ex. cbn [negb]. f_equal. now apply IH.
Qed.

End Selection.

Section SelectionSamples.
Import Js Types ContactSelector SelectorHandlers Auxiliary MoreAuxiliary Samples MoreSamples.
Local Open Scope string_scope.
Local Open Scope list_scope.

Lemma priority_tier_auto_selected_witness : shouldAutoSelect trainingContact = true.
Proof.
  apply (priority_tier_auto_selected trainingContact 4); [reflexivity|discriminate].
Defined.

Lemma persona_keyword_auto_selected_witness :
  getPriorityTier managerWithPersona = Some 5%Z /\
  shouldAutoSelect managerWithPersona = true.
Proof.
  split; [reflexivity|].
  apply persona_keyword_auto_selected; reflexivity.
Defined.

Lemma handleToggle_NoDup_witness :
  List.NoDup (handleToggle [str "C-1"; str "C-2"] (str "C-3")) /\
  (includesId [str "C-1"; str "C-2"] (str "C-3") = false ->
   handleToggle (handleToggle [str "C-1"; str "C-2"] (str "C-3")) (str "C-3")
   = [str "C-1"; str "C-2"]).
Proof.
  apply handleToggle_NoDup.
  apply NoDup_ListNoDup, (bool_decide_unpack _). vm_compute. exact I.
Defined.

End SelectionSamples.

(** ** More on the store and its routes *)

Section StorageMore.
Import Js Schemas Storage EmailRoute Auxiliary MoreAuxiliary.
Local Open Scope list_scope.

(** X20.  [saveEmail] leaves every other record as it was; under the
    generated id the store then holds the new record, made of the input,
    the id and the time, whatever was there before; and the number of
    records grows by one unless the generated id was already a key, in
    which case the record under it is replaced. *)
Theorem saveEmail_frame (store : emailStore) (uuid now : jsstring)
    (data : SaveEmailInput) :
  let store1 := (saveEmail uuid now data store).2 in
  (forall other, other <> uuid -> getEmail other store1 = getEmail other store) /\
  getEmail uuid store1
  = Some {| id := uuid;
            accountIndex := inAccountIndex data;
            accountName := inAccountName data;
            contactId := inContactId data;
            contactName := inContactName data;
            contactTitle := inContactTitle data;
            emails := inEmails data;
            createdAt := now;
            updatedAt := now |} /\
  getEmailCount store1
  = match getEmail uuid store with
    | None => S (getEmailCount store)
    | Some _ => getEmailCount store
    end.
Proof.
  cbn zeta. cbn [saveEmail snd]. unfold getEmail, getEmailCount.
  split; [|split].
  - intros other Hne. now apply lookup_insert_ne.
  - apply lookup_insert_eq.
  - destruct (store !! uuid) as [old|] eqn:E.
    + rewrite <- (insert_delete_id store uuid old E) at 2.
      rewrite <- (insert_delete_eq store).
      rewrite !map_size_insert_None by apply lookup_delete_eq. reflexivity.
    + now apply map_size_insert_None.
Qed.

(** X21.  [deleteEmail] returns whether the id was a key; if it was not,
    the store is unchanged, and otherwise it has one record fewer; every
    other record stays. *)
Theorem deleteEmail_effect (store : emailStore) (i : jsstring) :
  let deleted := (deleteEmail i store).1 in
  let store1 := (deleteEmail i store).2 in
  (deleted = true <-> getEmail i store <> None) /\
  (deleted = false -> store1 = store) /\
  getEmailCount store = getEmailCount store1 + (if deleted then 1 else 0) /\
  (forall other, other <> i -> getEmail other store1 = getEmail other store).
Proof.
  cbn zeta. cbn [deleteEmail fst snd]. unfold getEmail, getEmailCount.
  split; [|split; [|split]].
  - rewrite bool_decide_eq_true. rewrite <- not_eq_None_Some. reflexivity.
  - intros H. apply bool_decide_eq_false_1 in H.
    apply delete_id. now apply eq_None_not_Some.
  - destruct (store !! i) as [e|] eqn:E.
    + rewrite bool_decide_eq_true_2 by eauto.
      rewrite <- (insert_delete_id store i e E) at 1.
      rewrite map_size_insert_None by apply lookup_delete_eq. lia.
    + rewrite bool_decide_eq_false_2 by (intros [? ?]; discriminate).
      rewrite delete_id by exact E. lia.
  - intros other Hne. now apply lookup_delete_ne.
Qed.

(** X22.  Without a filter [listEmails] lists as many entries as
    [getEmailCount] counts, with a filter it lists only entries of that
    account, and every record of the store is listed, under its own
    account as well as without a filter. *)
Theorem listEmails_complete (store : emailStore) :
  length (listEmails None store) = getEmailCount store /\
  (forall n m, In m (listEmails (Some n) store) -> metaAccountIndex m = n) /\
  (forall k e, getEmail k store = Some e ->
     In (toMetadata e) (listEmails None store) /\
     In (toMetadata e) (listEmails (Some (accountIndex e)) store)).
Proof.
  unfold listEmails, getEmailCount, getEmail. cbn zeta. split; [|split].
  - rewrite !length_map. apply length_map_to_list.
  - intros n m Hm. apply in_map_iff in Hm as (e & <- & He).
    apply filter_In in He as [_ He]. apply Z.eqb_eq in He. exact He.
  - intros k e He.
    assert (Hin : In e (List.map snd (map_to_list store))).
    { apply in_map_iff. exists (k, e). split; [reflexivity|].
      apply list_elem_of_In, elem_of_map_to_list. exact He. }
    split; apply in_map; [exact Hin|].
    apply filter_In. split; [exact Hin|]. apply Z.eqb_refl.
Qed.

(** X23.  The two routes on an email id agree: DELETE answers 200 exactly
    when GET does, on the same store; after a DELETE that answered 200
    both answer 404 for that id; and any other answer of DELETE leaves
    the store as it was. *)
Theorem email_routes_agree (store : emailStore) (i : jsstring) :
  let answer := (DELETE i store).1 in
  let store1 := (DELETE i store).2 in
  (status answer = 200 <-> status (GET i store) = 200) /\
  (status answer = 200 ->
     status (GET i store1) = 404 /\ status (DELETE i store1).1 = 404) /\
  (status answer <> 200 -> store1 = store).
Proof.
  cbn zeta. unfold DELETE, GET, deleteEmail, getEmail.
  destruct (missing i) eqn:Em; cbn [fst snd status].
  { split; [split; discriminate|]. split; [discriminate|reflexivity]. }
  destruct (store !! i) as [e|] eqn:E.
  - rewrite bool_decide_eq_true_2 by eauto. cbn [negb fst snd status].
    split; [tauto|]. split; [|congruence]. intros _.
    rewrite lookup_delete_eq.
    rewrite bool_decide_eq_false_2 by (intros [? ?]; discriminate).
    cbn [negb fst status]. split; reflexivity.
  - rewrite bool_decide_eq_false_2 by (intros [? ?]; discriminate).
    cbn [negb fst snd status]. split; [split; discriminate|].
    split; [discriminate|]. intros _. now apply delete_id.
Qed.

End StorageMore.

(** ** More on the generator component *)

Section MatchedText.
Import Js Regex Reference Auxiliary MoreAuxiliary.
Local Open Scope list_scope.

Lemma substring_refl (s : jsstring) : substring s s.
Proof. exists [], []. now rewrite app_nil_r. Qed.

Lemma substring_trans (a b c : jsstring) :
  substring a b -> substring b c -> substring a c.
Proof.
  intros (p & q & ->) (p' & q' & ->). exists (p' ++ p), (q ++ q').
  now rewrite <- !app_assoc.
Qed.

Lemma substring_firstn (n : nat) (s : jsstring) : substring (firstn n s) s.
Proof. exists [], (skipn n s). cbn [app]. symmetry. apply firstn_skipn. Qed.

Lemma substring_skipn (n : nat) (s : jsstring) : substring (skipn n s) s.
Proof.
  exists (firstn n s), []. rewrite app_nil_r. symmetry. apply firstn_skipn.
Qed.

Lemma substring_app_l (w a b : jsstring) : substring w a -> substring w (a ++ b).
Proof.
  intros (p & q & ->). exists p, (q ++ b). now rewrite <- !app_assoc.
Qed.

(** The code units last passed over are part of the text. *)
Lemma substring_passed (n : nat) (st : mstate) :
  substring (rev (firstn n (before st))) (textOf st).
Proof.
  unfold textOf. apply substring_app_l.
  rewrite <- (firstn_skipn n (before st)) at 2. rewrite rev_app_distr.
  exists (rev (skipn n (before st))), []. now rewrite app_nil_r.
Qed.

Lemma substring_trim (s : jsstring) : substring (trim s) s.
Proof.
  unfold trim.
  destruct (trimStart_decompose s) as (ws & Hs & _).
  destruct (trimEnd_decompose (trimStart s)) as (ws' & Hs' & _).
  exists ws, ws'. rewrite <- Hs'. exact Hs.
Qed.

Lemma starReach_text (p : N -> bool) (rest : jsstring) :
  forall st st', after st = rest -> starReach p rest st st' ->
                 textOf st' = textOf st /\ group1 st' = group1 st.
Proof.
  induction rest as [|c rest IH]; intros st st' Ha; cbn [starReach].
  - intros [->|[]]. split; reflexivity.
  - intros [->|[_ Hr]]; [split; reflexivity|].
    apply IH in Hr as [Ht Hg]; [|reflexivity].
    rewrite Ht, Hg. unfold textOf, advance. cbn [before after group1 rev].
    rewrite Ha, <- app_assoc. split; reflexivity.
Qed.

(** Matching moves within the text, and what the group captures is part
    of the text. *)
Lemma reach_text (r : regex) :
  forall st st', reach r st st' ->
    textOf st' = textOf st /\ (capturedFromText st -> capturedFromText st').
Proof.
  induction r as [|p|a IHa b IHb|a IHa b IHb|a IHa|p|p| | |a IHa];
    intros st st'; cbn [reach].
  - intros ->. split; [reflexivity|tauto].
  - intros (c & rest & Ha & _ & ->).
    assert (Et : textOf (advance c rest st) = textOf st).
    { unfold textOf, advance. cbn [before after rev]. now rewrite Ha, <- app_assoc. }
    split; [exact Et|]. unfold capturedFromText. rewrite Et. tauto.
  - intros (mid & Ha & Hb). apply IHa in Ha as [Ta Ca]. apply IHb in Hb as [Tb Cb].
    split; [congruence|tauto].
  - intros [H|H]; [now apply IHa|now apply IHb].
  - intros [H| ->]; [now apply IHa|split; [reflexivity|tauto]].
  - intros H. apply starReach_text in H as [Ht Hg]; [|reflexivity].
    unfold capturedFromText. rewrite Ht, Hg. split; [reflexivity|tauto].
  - intros H. apply starReach_text in H as [Ht Hg]; [|reflexivity].
    unfold capturedFromText. rewrite Ht, Hg. split; [reflexivity|tauto].
  - intros [_ ->]. split; [reflexivity|tauto].
  - intros [_ ->]. split; [reflexivity|tauto].
  - intros (mid & Ha & ->). apply IHa in Ha as [Ta Ca].
    assert (Tc : textOf (closeGroup mid) = textOf mid).
    { unfold textOf. destruct (closeGroup_text mid) as [-> ->]. reflexivity. }
    split; [rewrite Tc, Ta; reflexivity|].
    intros Hc g. rewrite Tc. unfold closeGroup. destruct (capStart mid) as [s|].
    + cbn [group1]. intros [= <-]. apply substring_passed.
    + apply Ca. exact Hc.
Qed.

(** What [exec] returns is part of the text it searched: the match and
    the capture. *)
Lemma exec_substring (r : regex) (s : jsstring) (m : result) :
  exec r s = Some m ->
  substring (matched m) s /\ (forall g, captured m = Some g -> substring g s).
Proof.
  intros H. pose proof (searchFrom_leftmost r s []) as L.
  unfold exec in H. rewrite H in L. destruct L as (k & _ & _ & Hm & _).
  unfold matchAt in Hm. apply rmatch_sound in Hm as (st' & Hr & [= <-]).
  apply reach_text in Hr as [Ht Hc].
  assert (Es : textOf (splitState [] s k) = s).
  { unfold textOf, splitState. cbn [before after].
    rewrite app_nil_r, rev_involutive. apply firstn_skipn. }
  rewrite Es in Ht. cbn [matched captured]. split.
  - rewrite <- Ht. apply substring_passed.
  - intros g Hg. rewrite <- Ht. apply Hc; [|exact Hg]. intros g'. discriminate.
Qed.

End MatchedText.

Section GeneratorMore.
Import Js Regex Types EmailGenerator Reference Auxiliary MoreAuxiliary Progress.
Local Open Scope string_scope.
Local Open Scope list_scope.

Context {J : Type}.
Variable JSON_parse : jsstring -> option J.
Variable truthy : J -> bool.
Variable fetch : nat -> ContactListItem -> completion Response.

Notation outcome n c := (generateForContact JSON_parse (fetch n c)).

(** Converting a JSON value to a string returns, or throws an Error
    object. *)
Lemma toString_thrown (v : Json.value) :
  match Json.toString v with
  | Normal _ => True
  | Throw e => exists m, e = ErrorObject m
  end.
Proof.
  revert v. fix IH 1. intros [| b | r | s | elements | properties];
    cbn [Json.toString]; try exact I.
  - match goal with
    | |- match (match ?p with Normal _ => _ | Throw _ => _ end) with
         | Normal _ => _ | Throw _ => _ end =>
        assert (Hp : match p with
                     | Normal _ => True
                     | Throw e => exists m, e = ErrorObject m
                     end); [|destruct p; [exact I|exact Hp]]
    end.
    induction elements as [|x l IHl]; [exact I|].
    pose proof (IH x) as Hx.
    match goal with
    | |- match (match ?h with Normal _ => _ | Throw _ => _ end) with
         | Normal _ => _ | Throw _ => _ end =>
        assert (Hh : match h with
                     | Normal _ => True
                     | Throw e => exists m, e = ErrorObject m
                     end) by (destruct x; try exact I; exact Hx);
        destruct h; [|exact Hh]
    end.
    match goal with
    | |- match (match ?t with Normal _ => _ | Throw _ => _ end) with
         | Normal _ => _ | Throw _ => _ end => destruct t; [exact I|exact IHl]
    end.
  - destruct (properties !! _); [eexists; reflexivity|exact I].
Qed.

(** X24.  A response that is not ok makes [generateForContact] throw an
    Error object, whatever its error body is, and never read the text:
    the message is [Unknown error] when the error body cannot be read as
    JSON; for an object it is its [details] when that is a non-empty
    string, else its [error] when that is a non-empty string and
    [details] is absent or falsy, else the HTTP status when [error] is
    absent or falsy too; a [details] that is a plain object gives
    [[object Object]], an empty array the empty message, and of a [null]
    body no property can be read. *)
Theorem generateForContact_http_error (response : Response) :
  Http.ok response = false ->
  let thrown m := generateForContact JSON_parse (Normal response)
                  = Throw (ErrorObject m) in
  (exists m, thrown m) /\
  (Http.json response = None -> thrown (str "Unknown error")) /\
  (Http.json response = Some Json.JNull ->
   thrown (Json.nullReadMessage (str "details"))) /\
  (forall properties, Http.json response = Some (Json.JObject properties) ->
     let details := properties !! str "details" in
     let error := properties !! str "error" in
     (forall d, details = Some (Json.JString d) -> d <> [] -> thrown d) /\
     (forall fields, details = Some (Json.JObject fields) ->
        fields !! str "toString" = None -> thrown (str "[object Object]")) /\
     (details = Some (Json.JArray []) -> thrown []) /\
     (forall e, Json.truthy details = false -> error = Some (Json.JString e) ->
        e <> [] -> thrown e) /\
     (Json.truthy details = false -> Json.truthy error = false ->
        thrown (str "HTTP " ++ ofNat (Http.status response)))).
Proof.
  intros Hok thrown. unfold thrown, generateForContact.
  cbn [mbind completion_bind]. rewrite Hok. cbn [negb].
  split; [|split; [|split]].
  - destruct (errorMessageOf _ _) as [v|e] eqn:Ev; cbn [mbind completion_bind].
    + pose proof (toString_thrown v) as Hv.
      destruct (Json.toString v) as [m|e]; cbn [mbind completion_bind];
        [eexists; reflexivity|].
      destruct Hv as [m ->]. eexists. reflexivity.
    + unfold errorMessageOf in Ev.
      destruct (Http.json response) as [[| | | | |properties]|];
        cbn [Json.getProperty mbind completion_bind mret completion_ret] in Ev;
        try (injection Ev as <-; eexists; reflexivity);
        repeat match type of Ev with
               | context [if ?c then _ else _] => destruct c
               end; discriminate Ev.
  - intros ->. reflexivity.
  - intros ->. reflexivity.
  - intros properties Hj. rewrite Hj. cbn zeta. unfold errorMessageOf.
    cbn [Json.getProperty mbind completion_bind].
    split; [|split; [|split; [|split]]].
    + intros d -> Hd. destruct d as [|c d]; [congruence|]. reflexivity.
    + intros fields -> Hf.
      cbn [Json.truthy default mret completion_ret mbind completion_bind].
      unfold id. cbn [Json.toString]. rewrite Hf. reflexivity.
    + intros ->. reflexivity.
    + intros e Hd -> He. rewrite Hd. destruct e as [|c e]; [congruence|]. reflexivity.
    + intros Hd He. rewrite Hd, He. reflexivity.
Qed.

Lemma parseAccumulated_substring (accumulated : jsstring) (v : J) :
  parseAccumulated JSON_parse accumulated = Normal v ->
  exists w, substring w accumulated /\ JSON_parse w = Some v.
Proof.
  unfold parseAccumulated, orElse. cbn zeta.
  destruct (JSON_parse accumulated) as [v0|] eqn:E0.
  { intros [= <-]. exists accumulated. split; [apply substring_refl|exact E0]. }
  destruct (exec codeBlockPattern accumulated) as [m|] eqn:E1.
  - destruct (captured m) as [inner|] eqn:Ec.
    + destruct (JSON_parse (trim inner)) as [v1|] eqn:P1.
      { intros [= <-]. exists (trim inner). split; [|exact P1].
        apply (substring_trans _ inner); [apply substring_trim|].
        apply exec_substring in E1 as [_ Hc]. now apply Hc. }
      destruct (exec jsonArrayPattern accumulated) as [m'|] eqn:E2.
      * destruct (JSON_parse (matched m')) as [v2|] eqn:P2.
        { intros [= <-]. exists (matched m'). split; [|exact P2].
          now apply exec_substring in E2 as [Hm _]. }
        destruct (negb _ && _); [|discriminate].
        destruct (JSON_parse (slice _ _ _)) as [v3|] eqn:P3; [|discriminate].
        intros [= <-]. eexists. split; [|exact P3]. unfold slice.
        eapply substring_trans; [apply substring_firstn|apply substring_skipn].
      * destruct (negb _ && _); [|discriminate].
        destruct (JSON_parse (slice _ _ _)) as [v3|] eqn:P3; [|discriminate].
        intros [= <-]. eexists. split; [|exact P3]. unfold slice.
        eapply substring_trans; [apply substring_firstn|apply substring_skipn].
    + destruct (exec jsonArrayPattern accumulated) as [m'|] eqn:E2.
      * destruct (JSON_parse (matched m')) as [v2|] eqn:P2.
        { intros [= <-]. exists (matched m'). split; [|exact P2].
          now apply exec_substring in E2 as [Hm _]. }
        destruct (negb _ && _); [|discriminate].
        destruct (JSON_parse (slice _ _ _)) as [v3|] eqn:P3; [|discriminate].
        intros [= <-]. eexists. split; [|exact P3]. unfold slice.
        eapply substring_trans; [apply substring_firstn|apply substring_skipn].
      * destruct (negb _ && _); [|discriminate].
        destruct (JSON_parse (slice _ _ _)) as [v3|] eqn:P3; [|discriminate].
        intros [= <-]. eexists. split; [|exact P3]. unfold slice.
        eapply substring_trans; [apply substring_firstn|apply substring_skipn].
  - destruct (exec jsonArrayPattern accumulated) as [m'|] eqn:E2.
    + destruct (JSON_parse (matched m')) as [v2|] eqn:P2.
      { intros [= <-]. exists (matched m'). split; [|exact P2].
        now apply exec_substring in E2 as [Hm _]. }
      destruct (negb _ && _); [|discriminate].
      destruct (JSON_parse (slice _ _ _)) as [v3|] eqn:P3; [|discriminate].
      intros [= <-]. eexists. split; [|exact P3]. unfold slice.
      eapply substring_trans; [apply substring_firstn|apply substring_skipn].
    + destruct (negb _ && _); [|discriminate].
      destruct (JSON_parse (slice _ _ _)) as [v3|] eqn:P3; [|discriminate].
      intros [= <-]. eexists. split; [|exact P3]. unfold slice.
      eapply substring_trans; [apply substring_firstn|apply substring_skipn].
Qed.

(** X25.  Whatever [generateForContact] returns was parsed by
    [JSON.parse] from a contiguous part of the text streamed by an ok
    response that was read to its end; it never returns a value that
    comes from anywhere else. *)
Theorem generateForContact_from_text (fetched : completion Response) (v : J) :
  generateForContact JSON_parse fetched = Normal v ->
  exists response chunks w,
    fetched = Normal response /\ Http.ok response = true /\
    Http.body response = Some (chunks, None) /\
    substring w (concat chunks) /\ JSON_parse w = Some v.
Proof.
  unfold generateForContact. destruct fetched as [response|e]; [|discriminate].
  cbn [mbind completion_bind].
  destruct (Http.ok response) eqn:Hok; cbn [negb].
  2:{ destruct (errorMessageOf _ _) as [m|e]; cbn [mbind completion_bind];
        [|discriminate].
      destruct (Json.toString m); discriminate. }
  destruct (Http.body response) as [[chunks [e|]]|] eqn:Hb; try discriminate.
  unfold readAll. cbn [fst snd]. intros H.
  apply parseAccumulated_substring in H as (w & Hw & Hp).
  exists response, chunks, w. repeat split; assumption.
Qed.

Lemma setStatus_names (i : jsstring) (st : Status) (err : option jsstring)
    (prev : list GenerationStatus) :
  exists h, setStatus i st err prev = List.map h prev /\
    (forall s, contactId (h s) = contactId s /\ contactName (h s) = contactName s) /\
    (forall s, contactId s <> i -> h s = s) /\
    (forall s, contactId s = i -> status (h s) = st).
Proof.
  eexists. split; [reflexivity|]. cbn beta. unfold eqb. split; [|split].
  - intros s. destruct (bool_decide _); split; reflexivity.
  - intros s Hs. rewrite bool_decide_eq_false_2 by assumption. reflexivity.
  - intros s Hs. rewrite bool_decide_eq_true_2 by assumption. reflexivity.
Qed.

Lemma batchStep_settled (n : nat) (c : ContactListItem) (b : @batch J) :
  exists h, statuses (batchStep JSON_parse truthy (fetch n c) c b)
            = List.map h (statuses b) /\
    (forall s, contactId (h s) = contactId s /\ contactName (h s) = contactName s) /\
    (forall s, contactId s <> contact_id c -> h s = s) /\
    (forall s, contactId s = contact_id c -> settled (h s)).
Proof.
  unfold batchStep. cbn zeta. cbn [statuses results].
  destruct (setStatus_names (contact_id c) Generating None (statuses b))
    as (h1 & -> & Hid1 & Hne1 & Heq1).
  destruct (outcome n c) as [emails|e].
  - destruct (setStatus_names (contact_id c) Complete None (List.map h1 (statuses b)))
      as (h2 & E2 & Hid2 & Hne2 & Heq2).
    exists (fun s => h2 (h1 s)). cbn [statuses]. rewrite E2, map_map.
    split; [reflexivity|]. split; [|split].
    + intros s. destruct (Hid2 (h1 s)) as [-> ->]. apply Hid1.
    + intros s Hs. rewrite Hne1 by assumption. now apply Hne2.
    + intros s Hs. left. apply Heq2. now rewrite (proj1 (Hid1 s)).
  - destruct (setStatus_names (contact_id c) Error (Some (messageOf e))
                (List.map h1 (statuses b))) as (h2 & E2 & Hid2 & Hne2 & Heq2).
    exists (fun s => h2 (h1 s)). cbn [statuses]. rewrite E2, map_map.
    split; [reflexivity|]. split; [|split].
    + intros s. destruct (Hid2 (h1 s)) as [-> ->]. apply Hid1.
    + intros s Hs. rewrite Hne1 by assumption. now apply Hne2.
    + intros s Hs. right. apply Heq2. now rewrite (proj1 (Hid1 s)).
Qed.

Lemma batchLoop_settled (contacts : list ContactListItem) :
  forall (n : nat) (b : @batch J),
    exists g, statuses (batchLoop JSON_parse truthy fetch n contacts b)
              = List.map g (statuses b) /\
      (forall s, contactId (g s) = contactId s /\ contactName (g s) = contactName s) /\
      (forall s, In (contactId s) (List.map contact_id contacts) \/ settled s ->
                 settled (g s)).
Proof.
  induction contacts as [|c contacts IH]; intros n b; cbn [batchLoop].
  - exists (fun s => s). rewrite map_id. split; [reflexivity|].
    split; [split; reflexivity|]. intros s [[]|H]. exact H.
  - destruct (batchStep_settled n c b) as (h & Eh & Hid & Hne & Heq).
    destruct (IH (S n) (batchStep JSON_parse truthy (fetch n c) c b)) as (g & Eg & Gid & Gs).
    exists (fun s => g (h s)). rewrite Eg, Eh, map_map. split; [reflexivity|]. split.
    + intros s. destruct (Gid (h s)) as [-> ->]. apply Hid.
    + intros s Hs. apply Gs.
      destruct (decide (contactId s = contact_id c)) as [E|E].
      * right. now apply Heq.
      * rewrite (Hne s E). destruct Hs as [[Hs|Hs]|Hs]; [congruence|now left|now right].
Qed.

Lemma settled_counts (l : list GenerationStatus) :
  Forall settled l -> completedCount l + errorCount l = length l.
Proof.
  unfold completedCount, errorCount.
  induction 1 as [|s l Hs _ IH]; [reflexivity|].
  cbn [List.filter length]. destruct Hs as [-> | ->]; cbn [length]; lia.
Qed.

(** X26.  [handleGenerate] does nothing when no contact is selected;
    otherwise, when the loop is over, there is one status record for
    each contact, in the order of the contacts and with their ids and
    names, none of them is left pending or generating, and the counts of
    complete and of failed contacts add up to the number of contacts:
    this holds also when two contacts share an id. *)
Theorem handleGenerate_settles (contacts : list ContactListItem) :
  match handleGenerate JSON_parse truthy fetch contacts with
  | None => contacts = []
  | Some b =>
      contacts <> [] /\
      List.map contactId (statuses b) = List.map contact_id contacts /\
      List.map contactName (statuses b) = List.map full_name contacts /\
      Forall settled (statuses b) /\
      currentlyGenerating (statuses b) = None /\
      completedCount (statuses b) + errorCount (statuses b) = length contacts
  end.
Proof.
  unfold handleGenerate. destruct contacts as [|c0 l]; [reflexivity|].
  cbn [length Nat.eqb]. set (contacts := c0 :: l).
  destruct (batchLoop_settled contacts 0 (Batch (initialStatuses contacts) ∅))
    as (g & Eg & Gid & Gs).
  cbn [statuses] in Eg. rewrite Eg.
  assert (Hall : Forall settled (List.map g (initialStatuses contacts))).
  { apply Forall_forall. intros s Hs. apply list_elem_of_In in Hs.
    apply in_map_iff in Hs as (s0 & <- & Hs0).
    apply Gs. left. unfold initialStatuses in Hs0.
    apply in_map_iff in Hs0 as (c & <- & Hc). cbn [contactId]. now apply in_map. }
  split; [discriminate|]. split; [|split; [|split; [|split]]].
  - rewrite map_map. unfold initialStatuses. rewrite map_map.
    apply map_ext. intros c. now rewrite (proj1 (Gid _)).
  - rewrite map_map. unfold initialStatuses. rewrite map_map.
    apply map_ext. intros c. now rewrite (proj2 (Gid _)).
  - exact Hall.
  - unfold currentlyGenerating.
    destruct (find _ _) as [s|] eqn:F; [|reflexivity].
    apply find_some in F as [Hin Hs].
    rewrite Forall_forall in Hall. apply list_elem_of_In, Hall in Hin.
    destruct Hin as [E|E]; rewrite E in Hs; discriminate.
  - rewrite settled_counts by exact Hall.
    rewrite length_map. unfold initialStatuses. now rewrite length_map.
Qed.

Lemma batchStep_result (n : nat) (c : ContactListItem) (b : @batch J)
    (k : jsstring) (v : J) :
  results (batchStep JSON_parse truthy (fetch n c) c b) !! k = Some v ->
  results b !! k = Some v \/
  (contact_id c = k /\ outcome n c = Normal v /\ truthy v = true).
Proof.
  unfold batchStep. cbn zeta. cbn [statuses results].
  destruct (outcome n c) as [emails|e]; cbn [results]; [|now left].
  destruct (truthy emails) eqn:T; [|now left].
  destruct (decide (contact_id c = k)) as [<-|Hne].
  - rewrite lookup_insert_eq. intros [= <-]. right. auto.
  - rewrite lookup_insert_ne by assumption. now left.
Qed.

Lemma batchLoop_result (contacts : list ContactListItem) :
  forall (n : nat) (b : @batch J) (k : jsstring) (v : J),
    results (batchLoop JSON_parse truthy fetch n contacts b) !! k = Some v ->
    results b !! k = Some v \/
    exists j c, contacts !! j = Some c /\ contact_id c = k /\
                outcome (n + j) c = Normal v /\ truthy v = true.
Proof.
  induction contacts as [|c contacts IH]; intros n b k v; cbn [batchLoop].
  - now left.
  - intros H. apply IH in H as [H|(j & c' & Hj & Hk & Ho & Ht)].
    + apply batchStep_result in H as [H|(Hk & Ho & Ht)]; [now left|].
      right. exists 0, c. rewrite Nat.add_0_r. auto.
    + right. exists (S j), c'. replace (n + S j) with (S n + j) by lia. auto.
Qed.

(** X27.  Every entry of the map that [handleGenerate] hands over is
    under the id of a selected contact, and is the truthy value that the
    generation for a contact with that id returned; a contact whose
    generation threw adds no entry.  This holds also when two contacts
    share an id. *)
Theorem handleGenerate_results (contacts : list ContactListItem) (b : @batch J)
    (k : jsstring) (v : J) :
  handleGenerate JSON_parse truthy fetch contacts = Some b ->
  results b !! k = Some v ->
  exists j c, contacts !! j = Some c /\ contact_id c = k /\
              outcome j c = Normal v /\ truthy v = true.
Proof.
  unfold handleGenerate. destruct (length contacts =? 0)%nat; [discriminate|].
  intros [= <-] H. apply batchLoop_result in H as [H|H].
  - cbn [results] in H. rewrite lookup_empty in H. discriminate.
  - exact H.
Qed.

End GeneratorMore.

Section GeneratorSamples.
Import Js Regex Types EmailGenerator Reference Auxiliary MoreAuxiliary Progress Samples.
Local Open Scope string_scope.
Local Open Scope list_scope.

Lemma generateForContact_http_error_witness :
  generateForContact toyParse (Normal overloadedResponse)
  = Throw (ErrorObject (str "Overloaded")) /\
  generateForContact toyParse (Normal invalidBodyResponse)
  = Throw (ErrorObject (str "[object Object]")).
Proof.
  split.
  - destruct (generateForContact_http_error toyParse overloadedResponse eq_refl)
      as (_ & _ & _ & Hobject).
    destruct (Hobject _ eq_refl) as (_ & _ & _ & Herror & _).
    apply Herror; [reflexivity|reflexivity|discriminate].
  - destruct (generateForContact_http_error toyParse invalidBodyResponse eq_refl)
      as (_ & _ & _ & Hobject).
    destruct (Hobject _ eq_refl) as (_ & Hdetails & _).
    eapply Hdetails; reflexivity.
Defined.

Lemma generateForContact_from_text_witness :
  exists w, substring w (str "Here you go: ```json" ++ newline ++ str "[{1},{2},{3}]"
                           ++ newline ++ str "``` Enjoy!") /\
            toyParse w = Some 3.
Proof.
  destruct (generateForContact_from_text toyParse (Normal fencedResponse) 3)
    as (response & chunks & w & Hf & _ & Hb & Hw & Hp).
  - vm_compute. reflexivity.
  - injection Hf as <-. injection Hb as <-. exists w. split; [exact Hw|exact Hp].
Defined.

Lemma handleGenerate_results_witness :
  exists j c, [directorContact; trainingContact; directorUnderCno] !! j = Some c /\
    contact_id c = str "C-4" /\
    generateForContact toyParse (sampleFetch j c) = Normal 3 /\ toyTruthy 3 = true.
Proof.
  eapply (handleGenerate_results toyParse toyTruthy sampleFetch
            [directorContact; trainingContact; directorUnderCno]).
  - reflexivity.
  - vm_compute. reflexivity.
Defined.

End GeneratorSamples.

(** ** File names of exported documents *)

Section DownloadFacts.
Import Js Regex Reference Auxiliary MoreAuxiliary Download.
Local Open Scope string_scope.
Local Open Scope list_scope.

(** Replacing the matches of [/\s+/g] by a dash turns every maximal run
    of whitespace into one dash. *)
Lemma replaceAll_ws1 (s : jsstring) :
  (forall pre, replaceAllFrom ws1 (str "-") pre 0 s = dashRuns false s) /\
  (forall pre, replaceAllFrom ws1 (str "-") pre (runLength isWhite s) s
               = dashRuns true s).
Proof.
  induction s as [|c s [IH0 IHk]]; [split; reflexivity|].
  assert (H0 : forall pre,
    replaceAllFrom ws1 (str "-") pre 0 (c :: s) = dashRuns false (c :: s)).
  { intros pre. cbn [replaceAllFrom dashRuns].
    destruct (isWhite c) eqn:Hc.
    - destruct (matchAt_ws1_white pre s c Hc) as (m & -> & Hlen).
      rewrite Hlen. replace (S (runLength isWhite s) - 1) with (runLength isWhite s) by lia.
      rewrite IHk. reflexivity.
    - rewrite (matchAt_ws1_other pre s c Hc). now rewrite IH0. }
  split; [exact H0|].
  intros pre. cbn [runLength]. destruct (isWhite c) eqn:Hc.
  - cbn [replaceAllFrom dashRuns]. rewrite Hc. apply IHk.
  - rewrite H0. cbn [dashRuns]. rewrite Hc. reflexivity.
Qed.

(** Replacing the matches of a class by nothing removes the code units of
    the class. *)
Lemma replaceAll_class (p : N -> bool) (s : jsstring) :
  forall pre, replaceAllFrom (Chr p) (str "") pre 0 s
              = List.filter (fun c => negb (p c)) s.
Proof.
  induction s as [|c s IH]; intros pre; [reflexivity|].
  cbn [replaceAllFrom List.filter]. unfold matchAt. cbn [rmatch after].
  destruct (p c); cbn [negb].
  - cbn [matched advance before position length].
    replace (S (length pre) - length pre) with 1 by lia.
    cbn [firstn rev app length Nat.sub]. apply IH.
  - now rewrite IH.
Qed.

Lemma sanitizeFilename_eq (name : jsstring) :
  sanitizeFilename name
  = List.filter isFilenameUnit (dashRuns false (toLowerCase name)).
Proof.
  unfold sanitizeFilename, replaceAll.
  rewrite (proj1 (replaceAll_ws1 _)), replaceAll_class.
  apply filter_ext. intros c. apply negb_involutive.
Qed.

Lemma isFilenameUnit_plain (c : N) :
  isFilenameUnit c = true -> lowerUnit c = [c] /\ isWhite c = false.
Proof.
  unfold isFilenameUnit. intros H.
  assert (Hr : (97 <= c <= 122 \/ 48 <= c <= 57 \/ c = 45)%N).
  { apply orb_true_iff in H as [H|H]; [apply orb_true_iff in H as [H|H]|].
    - apply andb_true_iff in H as [H1 H2]. apply N.leb_le in H1, H2. lia.
    - apply andb_true_iff in H as [H1 H2]. apply N.leb_le in H1, H2. lia.
    - apply N.eqb_eq in H. lia. }
  clear H. split.
  - unfold lowerUnit.
    assert (E1 : ((65 <=? c) && (c <=? 90) = false)%N).
    { apply andb_false_iff. rewrite !N.leb_gt. lia. }
    rewrite E1, (proj2 (N.eqb_neq c 304)), (proj2 (N.eqb_neq c 8490)) by lia.
    reflexivity.
  - unfold isWhite.
    rewrite (proj2 (N.leb_gt c 13)), (proj2 (N.leb_gt 8192 c)) by lia.
    rewrite (proj2 (N.eqb_neq c 32)), (proj2 (N.eqb_neq c 160)),
      (proj2 (N.eqb_neq c 5760)), (proj2 (N.eqb_neq c 8232)),
      (proj2 (N.eqb_neq c 8233)), (proj2 (N.eqb_neq c 8239)),
      (proj2 (N.eqb_neq c 8287)), (proj2 (N.eqb_neq c 12288)),
      (proj2 (N.eqb_neq c 65279)) by lia.
    rewrite andb_false_r. reflexivity.
Qed.

Lemma sanitizeFilename_plain (name : jsstring) :
  forallb isFilenameUnit name = true -> sanitizeFilename name = name.
Proof.
  intros H. rewrite sanitizeFilename_eq.
  assert (Hl : toLowerCase name = name).
  { unfold toLowerCase. induction name as [|c s IH]; [reflexivity|].
    cbn [forallb] in H. apply andb_prop in H as [Hc H]. cbn [flat_map].
    rewrite (proj1 (isFilenameUnit_plain c Hc)), IH by exact H. reflexivity. }
  rewrite Hl. clear Hl. induction name as [|c s IH]; [reflexivity|].
  cbn [forallb] in H. apply andb_prop in H as [Hc H]. cbn [dashRuns].
  rewrite (proj2 (isFilenameUnit_plain c Hc)). cbn [List.filter]. rewrite Hc.
  now rewrite IH.
Qed.

(** X28.  [sanitizeFilename] returns lower-case letters, digits and
    dashes only, and sanitizing its result again changes nothing; the
    name under which the export button downloads the document holds, in
    addition, only the dot of its extension. *)
Theorem sanitizeFilename_safe (name : jsstring) :
  forallb isFilenameUnit (sanitizeFilename name) = true /\
  sanitizeFilename (sanitizeFilename name) = sanitizeFilename name /\
  forallb (fun c => isFilenameUnit c || (c =? 46)%N) (exportFilename name) = true.
Proof.
  assert (H : forallb isFilenameUnit (sanitizeFilename name) = true).
  { rewrite sanitizeFilename_eq. apply forallb_forall. intros c Hc.
    now apply filter_In in Hc as [_ Hc]. }
  split; [exact H|]. split; [now apply sanitizeFilename_plain|].
  unfold exportFilename. rewrite !forallb_app. apply andb_true_intro. split.
  - apply andb_true_intro. split; [|reflexivity].
    rewrite forallb_forall in *. intros c Hc. now rewrite (H c Hc).
  - reflexivity.
Qed.

End DownloadFacts.

(** ** The variant ids asked of the model *)

Section PromptFacts.
Import Js EmailGenerator Prompts Auxiliary MoreAuxiliary.
Local Open Scope string_scope.
Local Open Scope list_scope.

(** A text either lacks [d] or has a last occurrence of it. *)
Lemma last_occurrence (d : N) (s : jsstring) :
  lacks d s = true \/ exists a b, s = a ++ d :: b /\ lacks d b = true.
Proof.
  induction s as [|c s [IH|(a & b & -> & Hb)]].
  - now left.
  - destruct (N.eqb_spec c d) as [->|Hne].
    + right. exists [], s. split; [reflexivity|exact IH].
    + left. cbn [lacks forallb]. apply andb_true_intro. split; [|exact IH].
      apply negb_true_iff. now apply N.eqb_neq.
  - right. exists (c :: a), b. split; [reflexivity|exact Hb].
Qed.

Lemma lacks_In (d : N) (s : jsstring) : lacks d s = true -> ~ In d s.
Proof.
  unfold lacks. rewrite forallb_forall. intros H Hin. specialize (H d Hin).
  now rewrite N.eqb_refl in H.
Qed.

(** X29.  The suffix that [buildUserPrompt] puts into the variant-id
    format is never empty and holds no dash: it is what follows the last
    dash of the contact id, or the whole id when it has no dash, and the
    letter A when that is empty. *)
Theorem contactIdSuffix_shape (contact_id : jsstring) :
  contactIdSuffix contact_id <> [] /\
  ~ In 45%N (contactIdSuffix contact_id) /\
  (contactIdSuffix contact_id = str "A" \/
   exists before, contact_id = before ++ contactIdSuffix contact_id /\
     (before = [] \/ exists b, before = b ++ [45%N])).
Proof.
  unfold contactIdSuffix, Js.split. change (str "-") with [45%N].
  destruct (last_occurrence 45%N contact_id) as [H|(a & b & -> & H)].
  - rewrite (splitLoop_one_piece 45%N contact_id [] H). cbn [rev app last].
    destruct contact_id as [|c s]; cbn [truthyString default].
    + split; [discriminate|]. split; [|now left]. intros [E|[]]; discriminate E.
    + split; [discriminate|]. split; [now apply lacks_In|]. right. exists [].
      split; [reflexivity|now left].
  - destruct (splitLoop_last_piece 45%N a b [] H) as (front & ->).
    rewrite last_snoc.
    destruct b as [|c s]; cbn [truthyString default].
    + split; [discriminate|]. split; [|now left]. intros [E|[]]; discriminate E.
    + split; [discriminate|]. split; [now apply lacks_In|]. right. exists (a ++ [45%N]).
      split; [now rewrite <- app_assoc|]. right. now exists a.
Qed.

End PromptFacts.

(** ** The list route *)

Section ListRouteFacts.
Import Js Schemas Storage EmailListRoute Auxiliary MoreAuxiliary.
Local Open Scope string_scope.
Local Open Scope list_scope.

Variable toNumber : Z -> Z.
Hypothesis toNumber_below : forall n, (toNumber n < 1)%Z <-> (n < 1)%Z.

Lemma isDigit_plain (c : N) :
  isDigit c = true -> isWhite c = false /\ c <> 45%N /\ c <> 43%N.
Proof.
  unfold isDigit. intros H. apply andb_true_iff in H as [H1 H2].
  apply N.leb_le in H1, H2. split; [|lia].
  unfold isWhite.
  rewrite (proj2 (N.leb_gt c 13)), (proj2 (N.leb_gt 8192 c)) by lia.
  rewrite (proj2 (N.eqb_neq c 32)), (proj2 (N.eqb_neq c 160)),
    (proj2 (N.eqb_neq c 5760)), (proj2 (N.eqb_neq c 8232)),
    (proj2 (N.eqb_neq c 8233)), (proj2 (N.eqb_neq c 8239)),
    (proj2 (N.eqb_neq c 8287)), (proj2 (N.eqb_neq c 12288)),
    (proj2 (N.eqb_neq c 65279)) by lia.
  rewrite andb_false_r. reflexivity.
Qed.

Lemma leadingDigits_app (digits rest : jsstring) :
  forallb isDigit digits = true ->
  match rest with c :: _ => isDigit c = false | [] => True end ->
  leadingDigits (digits ++ rest) = digits.
Proof.
  intros Hd Hr. induction digits as [|c ds IH].
  - destruct rest as [|c r]; [reflexivity|]. cbn [app leadingDigits]. now rewrite Hr.
  - cbn [forallb] in Hd. apply andb_prop in Hd as [Hc Hd].
    cbn [app leadingDigits]. rewrite Hc. now rewrite IH.
Qed.

Lemma parseInt_digits (ws digits rest : jsstring) :
  forallb isWhite ws = true -> digits <> [] -> forallb isDigit digits = true ->
  match rest with c :: _ => isDigit c = false | [] => True end ->
  parseInt toNumber (ws ++ digits ++ rest) = Some (toNumber (mathInt digits)).
Proof.
  intros Hws Hne Hd Hr. unfold parseInt. cbn zeta.
  rewrite trimStart_white_app by exact Hws.
  destruct digits as [|c ds]; [congruence|].
  pose proof Hd as Hd'. cbn [forallb] in Hd'. apply andb_prop in Hd' as [Hc _].
  destruct (isDigit_plain c Hc) as (Hw & Hm & Hp).
  cbn [app trimStart]. rewrite Hw.
  assert (E : leadingDigits (c :: ds ++ rest) = c :: ds)
    by (apply (leadingDigits_app (c :: ds) rest Hd Hr)).
  rewrite (proj2 (N.eqb_neq c 45) Hm), (proj2 (N.eqb_neq c 43) Hp). cbn [orb].
  rewrite E. now rewrite Z.mul_1_l.
Qed.

(** X30.  The list route reads its [accountIndex] parameter with
    [parseInt]: whitespace before the digits and anything after them is
    ignored, so that a parameter that starts with digits is answered as
    the digits alone would be, with 400 when they make a number below 1
    and otherwise with the list of that account. *)
Theorem GET_list_lenient (ws digits rest : jsstring) (store : emailStore) :
  forallb isWhite ws = true -> digits <> [] -> forallb isDigit digits = true ->
  match rest with c :: _ => isDigit c = false | [] => True end ->
  GET toNumber (Some (ws ++ digits ++ rest)) store
  = GET toNumber (Some digits) store /\
  GET toNumber (Some digits) store
  = if (mathInt digits <? 1)%Z
    then {| listStatus := 400;
            listJson := ListError (str "Invalid accountIndex parameter") |}
    else {| listStatus := 200;
            listJson := ListOk (listEmails (Some (toNumber (mathInt digits))) store) |}.
Proof.
  intros Hws Hne Hd Hr. unfold GET.
  rewrite (parseInt_digits ws digits rest Hws Hne Hd Hr).
  pose proof (parseInt_digits [] digits [] eq_refl Hne Hd I) as E.
  cbn [app] in E. rewrite app_nil_r in E. rewrite E.
  split; [reflexivity|].
  destruct (Z.ltb_spec (toNumber (mathInt digits)) 1) as [H|H];
    destruct (Z.ltb_spec (mathInt digits) 1) as [H'|H']; try reflexivity.
  - exfalso. apply (proj1 (toNumber_below _)) in H. lia.
  - exfalso. apply (proj2 (toNumber_below _)) in H'. lia.
Qed.

End ListRouteFacts.

Section ListRouteSamples.
Import Js Schemas Storage EmailListRoute Auxiliary MoreAuxiliary Samples.
Local Open Scope string_scope.
Local Open Scope list_scope.

Lemma GET_list_lenient_witness :
  GET (fun n => n) (Some (str " 12abc")) ∅ = GET (fun n => n) (Some (str "12")) ∅.
Proof.
  apply (GET_list_lenient (fun n => n) (fun n => conj (fun H => H) (fun H => H))
           (str " ") (str "12") (str "abc") ∅); try reflexivity.
  discriminate.
Defined.

End ListRouteSamples.

(** ** The pronoun-timing rule, pronoun by pronoun *)

Section Pronouns.
Import Js Regex Schemas Validator Reference Auxiliary MoreAuxiliary.
Local Open Scope string_scope.
Local Open Scope list_scope.

Lemma lowerUnit_lowered (c : N) : lowered (lowerUnit c) = true.
Proof.
  unfold lowerUnit.
  destruct ((65 <=? c) && (c <=? 90))%N eqn:E.
  - apply andb_true_iff in E as [E1 E2]. apply N.leb_le in E1, E2.
    cbn [lowered forallb]. rewrite andb_true_r. apply negb_true_iff.
    apply andb_false_iff. right. apply N.leb_gt. lia.
  - destruct (c =? 304)%N; [reflexivity|].
    destruct (c =? 8490)%N; [reflexivity|].
    cbn [lowered forallb]. now rewrite E.
Qed.

Lemma toLowerCase_lowered (s : jsstring) : lowered (toLowerCase s) = true.
Proof.
  unfold toLowerCase. induction s as [|c s IH]; [reflexivity|].
  cbn [flat_map]. pose proof (lowerUnit_lowered c) as Hc.
  unfold lowered in *. now rewrite forallb_app, Hc, IH.
Qed.

(** Among code units that are no upper-case letters, the [i] flag makes
    no difference. *)
Lemma canon_eq_lowered (x c : N) :
  negb ((65 <=? x) && (x <=? 90))%N = true ->
  negb ((65 <=? c) && (c <=? 90))%N = true ->
  canon x = canon c -> x = c.
Proof.
  unfold canon. intros Hx Hc.
  apply negb_true_iff, andb_false_iff in Hx, Hc.
  rewrite !N.leb_gt in Hx, Hc.
  destruct ((97 <=? x) && (x <=? 122))%N eqn:Ex;
    destruct ((97 <=? c) && (c <=? 122))%N eqn:Ec;
    try (apply andb_true_iff in Ex as [Ex1 Ex2]; apply N.leb_le in Ex1, Ex2);
    try (apply andb_true_iff in Ec as [Ec1 Ec2]; apply N.leb_le in Ec1, Ec2);
    intros H; lia.
Qed.

Lemma sameLetter_lowered (w word : jsstring) :
  lowered w = true -> lowered word = true ->
  Forall2 sameLetter w word -> w = word.
Proof.
  intros Hw Hword H. induction H as [|x c w word Hx _ IH]; [reflexivity|].
  cbn [lowered forallb] in Hw, Hword.
  apply andb_true_iff in Hw as [Hx' Hw], Hword as [Hc' Hword].
  f_equal; [now apply canon_eq_lowered|now apply IH].
Qed.

Lemma sameLetter_refl (w : jsstring) : Forall2 sameLetter w w.
Proof. induction w; constructor; [reflexivity|assumption]. Qed.

(** What a literal run reaches, the other way round. *)
Lemma reach_units_intro (l : jsstring) : l <> [] ->
  forall st w rest, after st = w ++ rest -> Forall2 sameLetter w l ->
    reach (units l) st
      (MState (rev w ++ before st) rest (capStart st) (group1 st)).
Proof.
  induction l as [|c l IH]; [congruence|]. intros _ st w rest Ha Hw.
  inversion Hw as [|x c' w' l' Hx Hw' E1 E2]; subst.
  destruct l as [|c2 l].
  - inversion Hw'; subst. cbn [units unit reach].
    exists x, rest. split; [exact Ha|]. split; [now apply N.eqb_eq|].
    reflexivity.
  - change (units (c :: c2 :: l)) with (Seq (unit c) (units (c2 :: l))).
    cbn [reach unit]. exists (advance x (w' ++ rest) st). split.
    + exists x, (w' ++ rest). split; [exact Ha|]. split; [now apply N.eqb_eq|].
      reflexivity.
    + pose proof (IH ltac:(discriminate) (advance x (w' ++ rest) st) w' rest
                    eq_refl Hw') as H.
      cbn [advance before capStart group1 rev] in *.
      now rewrite <- app_assoc.
Qed.

Lemma reach_pronoun (st st' : mstate) :
  reach (alts [lit "we"; lit "we're"; lit "we've"; lit "we'll"; lit "our"]) st st' <->
  exists word, In word pluralPronouns /\ reach (units word) st st'.
Proof.
  cbn [alts reach]. unfold lit, pluralPronouns. cbn [List.map]. split.
  - intros [H|[H|[H|[H|H]]]]; eexists; (split; [|exact H]); cbn [In]; tauto.
  - intros (word & Hin & H). cbn [In] in Hin.
    destruct Hin as [<-|[<-|[<-|[<-|[<-|[]]]]]]; tauto.
Qed.

Lemma pluralPronouns_shape (word : jsstring) :
  In word pluralPronouns ->
  lowered word = true /\
  exists first middle final, word = first :: middle ++ [final] /\
    isWordChar first = true /\ isWordChar final = true.
Proof.
  unfold pluralPronouns. cbn [List.map In].
  intros [<-|[<-|[<-|[<-|[<-|[]]]]]]; (split; [reflexivity|]).
  - exists 119%N, [], 101%N. repeat split.
  - exists 119%N, (str "e'r"), 101%N. repeat split.
  - exists 119%N, (str "e'v"), 101%N. repeat split.
  - exists 119%N, (str "e'l"), 108%N. repeat split.
  - exists 111%N, (str "u"), 114%N. repeat split.
Qed.

Lemma startsWith_iff (s p : jsstring) :
  startsWith s p = true <-> exists b, s = p ++ b.
Proof.
  split; [apply startsWith_inv|]. intros [b ->]. apply startsWith_app.
Qed.

(** The word character before offset [y]. *)
Lemma wordChar_before (s : jsstring) (y : nat) :
  y <= length s ->
  match rev (firstn y s) with c :: _ => isWordChar c | [] => false end
  = match y with 0 => false | S y' => wordCharAt s y' end.
Proof.
  intros Hy. destruct y as [|y']; [reflexivity|].
  unfold wordCharAt.
  destruct (lookup_lt_is_Some_2 s y' ltac:(lia)) as [x Hx].
  rewrite (take_S_r s y' x Hx), rev_app_distr, Hx. reflexivity.
Qed.

(** The word character at offset [n]. *)
Lemma wordChar_at (s : jsstring) (n : nat) :
  match skipn n s with c :: _ => isWordChar c | [] => false end = wordCharAt s n.
Proof.
  unfold wordCharAt. rewrite <- (Nat.add_0_r n) at 2.
  rewrite <- lookup_drop. destruct (drop n s); reflexivity.
Qed.

(** In a text without upper-case letters the pronoun pattern matches at
    an offset exactly when one of the five pronouns stands there as a
    whole word. *)
Lemma wePattern_occurs (s : jsstring) (y : nat) :
  lowered s = true ->
  occursAt wePattern s y = pronounAt s y.
Proof.
  intros Hs. apply eq_true_iff_eq. unfold occursAt, pronounAt.
  rewrite andb_true_iff, Nat.leb_le, existsb_exists. split.
  - intros [Hy Hm].
    destruct (matchAt wePattern (stateAt s y)) as [m|] eqn:E; [|discriminate].
    unfold matchAt in E. apply rmatch_sound in E as (st' & Hr & _).
    unfold wePattern in Hr. cbn [seqs reach] in Hr.
    destruct Hr as (mid1 & (Hb1 & ->) & mid2 & (mid & Halt & ->) & (Hb2 & ->)).
    apply reach_pronoun in Halt as (word & Hin & Hu).
    destruct (pluralPronouns_shape word Hin)
      as (Hlow & first & middle & final & Hword & Hfirst & Hfinal).
    apply reach_units in Hu as (w & rest & Ha & Hw & Hbef & Haft & _);
      [|rewrite Hword; discriminate].
    cbn [openGroup after before stateAt] in Ha, Hbef.
    assert (Hww : w = word).
    { apply sameLetter_lowered; [|exact Hlow|exact Hw].
      unfold lowered in *. rewrite <- (firstn_skipn y s), forallb_app in Hs.
      apply andb_true_iff in Hs as [_ Hs]. rewrite Ha, forallb_app in Hs.
      now apply andb_true_iff in Hs as [Hs _]. }
    subst w. exists word. split; [exact Hin|]. unfold wholeWordAt.
    rewrite !andb_true_iff, !negb_true_iff. split; [split|].
    + apply startsWith_iff. now exists rest.
    + unfold isWordBoundary in Hb1. cbn [stateAt before after] in Hb1.
      rewrite Ha, Hword in Hb1. cbn [app] in Hb1. rewrite Hfirst in Hb1.
      rewrite (wordChar_before s y Hy) in Hb1.
      destruct (match y with 0 => false | S y' => wordCharAt s y' end);
        [discriminate|reflexivity].
    + unfold isWordBoundary in Hb2.
      destruct (closeGroup_text mid) as [Eb Ea]. rewrite Eb, Ea, Hbef, Haft in Hb2.
      rewrite Hword in Hb2 at 1.
      change (first :: middle ++ [final]) with ((first :: middle) ++ [final]) in Hb2.
      rewrite rev_app_distr in Hb2. cbn [rev app] in Hb2. rewrite Hfinal in Hb2.
      assert (Hrest : rest = skipn (y + length word) s).
      { rewrite <- drop_drop. change (drop y s) with (skipn y s).
        rewrite Ha. now rewrite drop_app_length. }
      rewrite Hrest, wordChar_at in Hb2.
      destruct (wordCharAt s (y + length word)); [discriminate|reflexivity].
  - intros (word & Hin & Hw). unfold wholeWordAt in Hw.
    rewrite !andb_true_iff, !negb_true_iff in Hw. destruct Hw as [[Hst Hb] Ha].
    apply startsWith_iff in Hst as [rest Hrest].
    destruct (pluralPronouns_shape word Hin)
      as (Hlow & first & middle & final & Hword & Hfirst & Hfinal).
    assert (Hy : y <= length s).
    { destruct (Nat.le_gt_cases y (length s)) as [|Hgt]; [assumption|].
      rewrite skipn_all2 in Hrest by lia. rewrite Hword in Hrest. discriminate. }
    split; [exact Hy|].
    set (st := stateAt s y).
    set (mid := MState (rev word ++ before (openGroup st)) rest
                  (capStart (openGroup st)) (group1 (openGroup st))).
    assert (Hr : reach wePattern st (closeGroup mid)).
    { unfold wePattern. cbn [seqs reach]. exists st. split.
      - split; [|reflexivity]. unfold isWordBoundary, st. cbn [stateAt before after].
        rewrite (wordChar_before s y Hy), Hb, Hrest, Hword. cbn [app].
        now rewrite Hfirst.
      - exists (closeGroup mid). split.
        + exists mid. split; [|reflexivity]. apply reach_pronoun.
          exists word. split; [exact Hin|].
          apply reach_units_intro; [rewrite Hword; discriminate|exact Hrest|].
          apply sameLetter_refl.
        + split; [|reflexivity]. unfold isWordBoundary.
          destruct (closeGroup_text mid) as [-> ->]. unfold mid. cbn [before after].
          rewrite Hword at 1.
          change (first :: middle ++ [final]) with ((first :: middle) ++ [final]).
          rewrite rev_app_distr. cbn [rev app]. rewrite Hfinal.
          assert (Hr' : rest = skipn (y + length word) s).
          { rewrite <- drop_drop. change (drop y s) with (skipn y s).
            rewrite Hrest. now rewrite drop_app_length. }
          rewrite Hr', wordChar_at, Ha. reflexivity. }
    pose proof (rmatch_complete wePattern
                  (fun st' => Some (Result (position st)
                     (rev (firstn (position st' - position st) (before st')))
                     (group1 st'))) st (closeGroup mid) Hr ltac:(discriminate)) as Hm.
    unfold matchAt. fold st. destruct (rmatch wePattern _ st); [reflexivity|congruence].
Qed.

(** The check [we_timing_valid] of [validateEmail] is what
    [hasValidWeTiming] returns for the body, and a false one is among the
    failures. *)
Lemma validateEmail_we_timing (email : EmailVariant) :
  exists r, validateEmail email = Normal r /\
    checks r !! str "we_timing_valid" = Some (hasValidWeTiming (body email)) /\
    (hasValidWeTiming (body email) = false ->
     In (quoted "We" ++ str " used before Class was introduced") (failures r) /\
     passed r = false).
Proof.
  destruct (validateEmail_returns email) as (signed & _ & Hr).
  eexists. split; [exact Hr|].
  unfold resultOf. cbn [checks failures passed].
  pose proof checkNames_NoDup as Hnd. rewrite <- (checkItems_names email signed) in Hnd.
  remember (checkItems email signed) as items eqn:Hitems.
  assert (Hin : In (str "we_timing_valid", hasValidWeTiming (body email),
             quoted "We" ++ str " used before Class was introduced",
             [str "Introduce Class by name before using " ++ quoted "we"
                ++ str ": " ++ [dquote]
                ++ str "That's why I'm reaching out about Class" ++ [emDash]
                ++ str "a virtual classroom platform. The challenge we hear..."
                ++ [dquote]]) items).
  { subst items. do 3 right. left. reflexivity. }
  pose proof (runChecks_lookup items (Acc ∅ [] []) _ Hnd Hin) as Hl.
  cbn [fst snd] in Hl. split; [exact Hl|].
  intros Hv. rewrite runChecks_failures. cbn [accFailures app].
  assert (Hf : In (quoted "We" ++ str " used before Class was introduced")
                 (List.map (fun it : jsstring * bool * jsstring * list jsstring => it.1.2)
                    (List.filter (fun it => negb it.1.1.2) items))).
  { apply in_map_iff. eexists. split; [|apply filter_In; split; [exact Hin|]].
    - reflexivity.
    - cbn [fst snd]. now rewrite Hv. }
  split; [exact Hf|].
  apply Nat.eqb_neq. intros Hlen. apply length_zero_iff_nil in Hlen.
  rewrite Hlen in Hf. destruct Hf.
Qed.

(** C1, as the code has it.  When no introduction pattern matches the
    body, [hasValidWeTiming] returns false exactly when one of the plural
    pronouns "we", "we're", "we've", "we'll", "our" stands as a whole
    word in the lower-cased body (it returns true only when there is
    none), and for an email with such a body that holds one,
    [validateEmail] reports the check [we_timing_valid] as false, lists
    its failure and does not pass.  When some introduction pattern
    matches, with [x] the earliest offset of a match in the body,
    [hasValidWeTiming] returns false exactly when one of the pronouns
    stands as a whole word in the lower-cased body at an offset strictly
    before [x]. *)
Theorem hasValidWeTiming_spec (text : jsstring) :
  ((forall r, In r classPatterns -> test r text = false) ->
   (hasValidWeTiming text = false <->
    exists y, pronounAt (toLowerCase text) y = true) /\
   (forall email, body email = text ->
      (exists y, pronounAt (toLowerCase text) y = true) ->
      exists r, validateEmail email = Normal r /\
        checks r !! str "we_timing_valid" = Some false /\
        In (quoted "We" ++ str " used before Class was introduced") (failures r) /\
        passed r = false)) /\
  (forall x, earliestOffset classPatterns text x ->
   (hasValidWeTiming text = false <->
    exists y, pronounAt (toLowerCase text) y = true /\ y < x)).
Proof.
  assert (Hocc : forall y, In y (List.map index (execAll wePattern (toLowerCase text)))
                           <-> pronounAt (toLowerCase text) y = true).
  { intros y.
    rewrite (execAll_occurrences wePattern startsPronoun wePattern_shape).
    now rewrite (wePattern_occurs _ _ (toLowerCase_lowered text)). }
  split.
  - intros Hnone.
    assert (Hiff : hasValidWeTiming text = false <->
                   exists y, pronounAt (toLowerCase text) y = true).
    { unfold hasValidWeTiming. cbn zeta.
      rewrite (classPositionOf_none text Hnone), weLoop_false. split.
      - intros (y & Hy & _). exists y. now apply Hocc.
      - intros (y & Hy). exists y. split; [now apply Hocc|now left]. }
    split; [exact Hiff|].
    intros email <- Hy. apply Hiff in Hy.
    destruct (validateEmail_we_timing email) as (r & Hr & Hc & Hf).
    exists r. split; [exact Hr|]. rewrite Hy in Hc. split; [exact Hc|]. now apply Hf.
  - intros x Hx. unfold hasValidWeTiming. cbn zeta.
    rewrite (classPositionOf_earliest text x Hx), weLoop_false. split.
    + intros (y & Hy & Hc). exists y. split; [now apply Hocc|lia].
    + intros (y & Hy & Hlt). exists y. split; [now apply Hocc|right; lia].
Qed.

End Pronouns.

Section PronounSamples.
Import Js Regex Schemas Validator Reference Auxiliary Samples.
Local Open Scope string_scope.
Local Open Scope list_scope.

Lemma hasValidWeTiming_spec_witness :
  (hasValidWeTiming weWithoutClass = false <->
   exists y, pronounAt (toLowerCase weWithoutClass) y = true) /\
  (hasValidWeTiming weAfterClass = false <->
   exists y, pronounAt (toLowerCase weAfterClass) y = true /\ y < 17).
Proof.
  split.
  - apply (hasValidWeTiming_spec weWithoutClass).
    intros r Hr. unfold classPatterns in Hr. cbn [In] in Hr.
    repeat (destruct Hr as [<-|Hr]; [vm_compute; reflexivity|]). destruct Hr.
  - apply (hasValidWeTiming_spec weAfterClass). exact weAfterClass_earliest.
Defined.

End PronounSamples.
